(** * FiveTwelve: the model, the keyboard and the controller

    A shallow embedding of the game logic of [FiveTwelve/model.py]
    (classes [Grid] and [Tile], with the notifications they send), of the
    key bindings of [FiveTwelve/keypress.py] and of the game loop of
    [FiveTwelve/game_manager.py], and the properties of placement,
    sliding, merging, scoring, loading and of a whole game proved about
    them.

    - Python objects are shared and mutated in place: a [Tile] is
      referenced by a cell of [Grid.tiles] and, while it slides, by the
      local [self].  The embedding therefore keeps a store of tile objects
      ([heap]) and lets cells hold references into it.
    - A method is a function from the state to an outcome: a result and a
      new state, or an exception and the state it leaves behind.
    - [Tile.slide] has a [while True] loop; it is given fuel, one unit for
      each execution of the loop body, and [OutOfFuel] is the outcome of a
      loop that has not ended when the fuel has.
    - The draws of [random.choice] and [random.randint] are arguments of
      [find_empty] and [place_tile]; the keys pressed are arguments of the
      game loop. *)

From Stdlib Require Import ZArith Lia.
From stdpp Require Import base list relations strings gmap.

Local Open Scope Z_scope.

(** ** Data model *)

Definition GRID_SIZE : Z := 4.

Inductive EventKind := tile_created | tile_updated | tile_removed.

(** The identity of a [Tile] object: its allocation index in the store. *)
Abbreviation ref := nat.

(** The attributes of a [Tile] ([grid] is the one grid of the state). *)
Record Tile := mkTile { row : Z; col : Z; value : Z }.

Global Instance Tile_inhabited : Inhabited Tile := populate (mkTile 0 0 0).

(** [GameEvent(kind, tile)]. *)
Record GameEvent := mkGameEvent { kind : EventKind; tile : ref }.

(** The state the methods of [model.py] work on: the attributes of the
    [Grid] object ([rows], [cols], [sum], [tiles]), the store of the [Tile]
    objects created so far, the events passed to [notify_all], in order
    (each with the attributes the tile had at that moment, which is what a
    listener called back with the event reads), and the numbers written by
    [print].  Listeners are the view's: they are not part of the model, and
    do not change it. *)
Record State := mkState {
  rows : Z;
  cols : Z;
  sum : Z;
  tiles : list (list (option ref));
  heap : list Tile;
  notified : list (GameEvent * Tile);
  printed : list Z
}.

Definition with_sum (v : Z) (s : State) : State :=
  mkState (rows s) (cols s) v (tiles s) (heap s) (notified s) (printed s).
Definition with_tiles (t : list (list (option ref))) (s : State) : State :=
  mkState (rows s) (cols s) (sum s) t (heap s) (notified s) (printed s).
Definition with_heap (h : list Tile) (s : State) : State :=
  mkState (rows s) (cols s) (sum s) (tiles s) h (notified s) (printed s).
Definition with_notified (d : list (GameEvent * Tile)) (s : State) : State :=
  mkState (rows s) (cols s) (sum s) (tiles s) (heap s) d (printed s).
Definition with_printed (p : list Z) (s : State) : State :=
  mkState (rows s) (cols s) (sum s) (tiles s) (heap s) (notified s) p.

Arguments with_sum v s /.
Arguments with_tiles t s /.
Arguments with_heap h s /.
Arguments with_notified d s /.
Arguments with_printed p s /.

(** ** Exceptions, state and the [while True] loop *)

Inductive Exn := IndexError | AssertionError.

(** A call returns a value, raises (the state is the one reached when the
    exception left the method), or is still running when the fuel given to
    the [while True] loop of [Tile.slide] is used up. *)
Inductive Outcome (A : Type) :=
| Ok (a : A) (s : State)
| Raise (e : Exn) (s : State)
| OutOfFuel.
Arguments Ok {A} a s.
Arguments Raise {A} e s.
Arguments OutOfFuel {A}.

Definition M (A : Type) := State -> Outcome A.

Definition ret {A} (a : A) : M A := fun s => Ok a s.
Definition bind {A B} (m : M A) (k : A -> M B) : M B :=
  fun s => match m s with
           | Ok a s' => k a s'
           | Raise e s' => Raise e s'
           | OutOfFuel => OutOfFuel
           end.
Definition raise {A} (e : Exn) : M A := fun s => Raise e s.
Definition gets {A} (f : State -> A) : M A := fun s => Ok (f s) s.
Definition modify (f : State -> State) : M unit := fun s => Ok tt (f s).

Notation "x <- m ;; k" := (bind m (fun x => k))
  (at level 100, m at next level, right associativity).
Notation "m ;;; k" := (bind m (fun _ => k))
  (at level 100, right associativity).

(** [for x in l: body], with and without a local accumulator. *)
Fixpoint for_each {A} (l : list A) (body : A -> M unit) : M unit :=
  match l with
  | [] => ret tt
  | x :: l' => body x ;;; for_each l' body
  end.

Fixpoint for_acc {A S} (l : list A) (body : A -> S -> M S) (acc : S) : M S :=
  match l with
  | [] => ret acc
  | x :: l' => acc' <- body x acc ;; for_acc l' body acc'
  end.

(** [range(n)]. *)
Definition range (n : Z) : list Z := map Z.of_nat (seq 0 (Z.to_nat n)).

(** Python's indexing of a list: a negative index counts from the end, an
    index outside the list is an [IndexError] ([None] here). *)
Definition norm_index (len : nat) (i : Z) : option nat :=
  if 0 <=? i then
    (if i <? Z.of_nat len then Some (Z.to_nat i) else None)
  else
    (if - Z.of_nat len <=? i then Some (Z.to_nat (Z.of_nat len + i)) else None).

(** [l[i]] and [l[i] = x]. *)
Definition getitem {A} (l : list A) (i : Z) : option A :=
  match norm_index (length l) i with
  | Some n => l !! n
  | None => None
  end.

Definition setitem {A} (l : list A) (i : Z) (x : A) : option (list A) :=
  match norm_index (length l) i with
  | Some n => Some (<[n := x]> l)
  | None => None
  end.

(** ** GameElement *)

(** [notify_all]: every listener is called with the event. *)
Definition notify_all (k : EventKind) (t : ref) : M unit :=
  modify (fun s =>
    with_notified (notified s ++ [(mkGameEvent k t, heap s !!! t)]) s).

(** ** Tile attributes *)

(** Reading and assigning the attributes of the tile object [t]. *)
Definition Tile_get (t : ref) : M Tile := gets (fun s => heap s !!! t).
Definition Tile_set (t : ref) (f : Tile -> Tile) : M unit :=
  modify (fun s => with_heap (<[t := f (heap s !!! t)]> (heap s)) s).

(** [Tile(grid, row, col, value)]. *)
Definition Tile_new (r c v : Z) : M ref :=
  fun s => Ok (length (heap s)) (with_heap (heap s ++ [mkTile r c v]) s).

(** ** Grid *)

(** [Grid()]. *)
Definition Grid_init : State :=
  mkState GRID_SIZE GRID_SIZE 0
    (map (fun _ => map (fun _ => None) (range GRID_SIZE)) (range GRID_SIZE))
    [] [] [].

(** [0 <= row < self.rows and 0 <= col < self.cols]. *)
Definition within (s : State) (r c : Z) : bool :=
  (0 <=? r) && (r <? rows s) && ((0 <=? c) && (c <? cols s)).

Definition in_bounds (r c : Z) : M bool := gets (fun s => within s r c).

(** [self.tiles[r][c]]. *)
Definition tiles_getitem (r c : Z) : M (option ref) :=
  fun s => match getitem (tiles s) r with
           | None => Raise IndexError s
           | Some rw => match getitem rw c with
                        | None => Raise IndexError s
                        | Some x => Ok x s
                        end
           end.

(** [self.tiles[r][c] = x]: the row object is looked up, then updated in
    place. *)
Definition tiles_setitem (r c : Z) (x : option ref) : M unit :=
  fun s => match getitem (tiles s) r with
           | None => Raise IndexError s
           | Some rw =>
               match setitem rw c x with
               | None => Raise IndexError s
               | Some rw' =>
                   match setitem (tiles s) r rw' with
                   | None => Raise IndexError s
                   | Some t' => Ok tt (with_tiles t' s)
                   end
               end
           end.

(** [as_list]: 0 for an empty cell, the value of the tile otherwise. *)
Definition cell_value (h : list Tile) (c : option ref) : Z :=
  match c with
  | None => 0
  | Some t => value (h !!! t)
  end.

Definition as_list (s : State) : list (list Z) :=
  map (map (cell_value (heap s))) (tiles s).

Definition score (s : State) : Z := sum s.

(** [rep[row][col]]. *)
Definition rep_getitem (rep : list (list Z)) (r c : Z) : M Z :=
  fun s => match getitem rep r with
           | None => Raise IndexError s
           | Some rw => match getitem rw c with
                        | None => Raise IndexError s
                        | Some x => Ok x s
                        end
           end.

(** The body of the inner loop of [set_tiles]. *)
Definition set_tiles_cell (rep : list (list Z)) (r c : Z)
    (row_tiles : list (option ref)) : M (list (option ref)) :=
  x <- rep_getitem rep r c ;;
  if x =? 0 then ret (row_tiles ++ [None])
  else
    val <- rep_getitem rep r c ;;
    t <- Tile_new r c val ;;
    notify_all tile_created t ;;;
    ret (row_tiles ++ [Some t]).

Definition set_tiles_row (rep : list (list Z)) (r : Z) : M (list (option ref)) :=
  cs <- gets cols ;;
  for_acc (range cs) (set_tiles_cell rep r) [].

(** The body of the outer loop of [set_tiles]. *)
Definition set_tiles_append (rep : list (list Z)) (r : Z) : M unit :=
  row_tiles <- set_tiles_row rep r ;;
  modify (fun s => with_tiles (tiles s ++ [row_tiles]) s).

Definition set_tiles (rep : list (list Z)) : M unit :=
  modify (with_tiles []) ;;;
  rs <- gets rows ;;
  for_each (range rs) (set_tiles_append rep).

(** [random.choice(seq)]: [seq[i]] for the index [i] below [len(seq)] that
    the generator draws, [IndexError] on an empty sequence. *)
Definition random_choice {A} (pick : nat) (l : list A) : M A :=
  match l !! (pick mod length l)%nat with
  | Some x => ret x
  | None => raise IndexError
  end.

(** [random.randint(lo, hi)]: the drawn integer, brought into [lo..hi]. *)
Definition random_randint (lo hi : Z) (draw : nat) : Z :=
  lo + Z.of_nat draw mod (hi - lo + 1).

Definition find_empty_row (r : Z) (candidates : list (Z * Z)) : M (list (Z * Z)) :=
  cs <- gets cols ;;
  for_acc (range cs) (fun c cand =>
    x <- tiles_getitem r c ;;
    match x with
    | None => ret (cand ++ [(r, c)])
    | Some _ => ret cand
    end) candidates.

Definition find_empty (pick : nat) : M (option (Z * Z)) :=
  rs <- gets rows ;;
  candidates <- for_acc (range rs) find_empty_row [] ;;
  match candidates with
  | [] => ret None
  | _ => p <- random_choice pick candidates ;; ret (Some p)
  end.

Definition place_tile (pick draw : nat) : M unit :=
  spot <- find_empty pick ;;
  match spot with
  | None => raise AssertionError
  | Some (r, c) =>
      t <- (if random_randint 1 10 draw =? 4
            then Tile_new r c 4 else Tile_new r c 2) ;;
      tiles_setitem r c (Some t) ;;;
      notify_all tile_created t
  end.

(** ** Tile *)

Definition Tile_remove (self : ref) : M unit := notify_all tile_removed self.

Definition Tile_move (self : ref) (r c : Z) : M unit :=
  me <- Tile_get self ;;
  tiles_setitem (row me) (col me) None ;;;
  Tile_set self (fun t => mkTile r (col t) (value t)) ;;;
  Tile_set self (fun t => mkTile (row t) c (value t)) ;;;
  tiles_setitem r c (Some self) ;;;
  notify_all tile_updated self.

Definition Tile_merge (self other : ref) : M unit :=
  me <- Tile_get self ;;
  it <- Tile_get other ;;
  Tile_set self (fun t => mkTile (row t) (col t) (value me + value it)) ;;;
  Tile_remove other ;;;
  notify_all tile_updated self.

(** The body of the matching-tile branch of [slide]. *)
Definition slide_merge (self other : ref) (trial_x trial_y : Z) : M unit :=
  Tile_merge self other ;;;
  Tile_move self trial_x trial_y ;;;
  me <- Tile_get self ;;
  modify (fun s => with_sum (sum s + value me) s) ;;;
  modify (fun s => with_printed (printed s ++ [sum s]) s).

(** The [while True] loop of [slide]; [r], [c] are its locals [row], [col].
    One unit of fuel is one execution of the loop body. *)
Fixpoint slide_loop (fuel : nat) (self : ref) (dx dy r c : Z) : M unit :=
  match fuel with
  | O => fun _ => OutOfFuel
  | S fuel' =>
      let trial_x := r + dy in
      let trial_y := c + dx in
      inb <- in_bounds trial_x trial_y ;;
      if negb inb then ret tt
      else
        nxt <- tiles_getitem trial_x trial_y ;;
        match nxt with
        | None =>
            Tile_move self trial_x trial_y ;;;
            slide_loop fuel' self dx dy trial_x trial_y
        | Some other =>
            it <- Tile_get other ;;
            me <- Tile_get self ;;
            if value it =? value me then
              slide_merge self other trial_x trial_y ;;;
              slide_loop fuel' self dx dy trial_x trial_y
            else ret tt
        end
  end.

Definition slide (fuel : nat) (self : ref) (movement_vector : Z * Z) : M unit :=
  let '(dx, dy) := movement_vector in
  me <- Tile_get self ;;
  slide_loop fuel self dx dy (row me) (col me).

(** ** Moves

    [for row in self.tiles: for col in row: if col: col.slide(v)].  A list
    iterator reads the list by index at each step, so a cell is read when
    it is reached, after the slides of the cells before it.  A slide
    assigns items of the rows: it changes the length of no list and
    replaces no row, so that the row the inner loop goes through is the
    one the cell array holds.  [rev] is [reversed(...)]. *)
Definition indices {A} (l : list A) : list Z :=
  map Z.of_nat (seq 0 (length l)).

(** [if col: col.slide(movement_vector)], for the cell [(r, c)]. *)
Definition visit (fuel : nat) (v : Z * Z) (r c : Z) : M unit :=
  x <- tiles_getitem r c ;;
  match x with
  | Some t => slide fuel t v
  | None => ret tt
  end.

(** The row object [self.tiles[r]] that the outer loop has reached. *)
Definition row_at (r : Z) : M (list (option ref)) :=
  fun s => match getitem (tiles s) r with
           | Some rw => Ok rw s
           | None => Raise IndexError s
           end.

(** The two loops of a move, with the rows or the columns reversed. *)
Definition sweep (fuel : nat) (v : Z * Z) (rev_rows rev_cols : bool) : M unit :=
  ts <- gets tiles ;;
  for_each (if rev_rows then rev (indices ts) else indices ts) (fun r =>
    rw <- row_at r ;;
    for_each (if rev_cols then rev (indices rw) else indices rw) (fun c =>
      visit fuel v r c)).

Definition left (fuel : nat) : M unit := sweep fuel (-1, 0) false false.
Definition right (fuel : nat) : M unit := sweep fuel (1, 0) false true.
Definition up (fuel : nat) : M unit := sweep fuel (0, -1) false false.
Definition down (fuel : nat) : M unit := sweep fuel (0, 1) true false.

(** * The keyboard ([keypress.py]) *)

Definition LEFT : string := "Left".
Definition RIGHT : string := "Right".
Definition UP : string := "Up".
Definition DOWN : string := "Down".
Definition UNMAPPED : string := "Unmapped".

(** The dictionary [KEY_BINDINGS]: the arrow keys as Tk names them, the
    left hand keys, the keys of vi, and the numeric keypad. *)
Definition KEY_BINDINGS : gmap string string :=
  list_to_map
    [("Left"%string, LEFT); ("Right"%string, RIGHT);
     ("Up"%string, UP); ("Down"%string, DOWN);
     ("a"%string, LEFT); ("w"%string, UP); ("s"%string, RIGHT); ("z"%string, DOWN);
     ("h"%string, LEFT); ("j"%string, DOWN); ("k"%string, UP); ("l"%string, RIGHT);
     ("4"%string, LEFT); ("6"%string, RIGHT); ("8"%string, UP); ("2"%string, DOWN)].

(** [Command.next], for the key that [game_view.get_key()] returns. *)
Definition next (key : string) : string :=
  match KEY_BINDINGS !! key with
  | None => UNMAPPED
  | Some cmd => cmd
  end.

(** * The controller ([game_manager.py]) *)

(** What one turn of the loop of [main] reads: the draw of the
    [find_empty] of the loop condition, the two draws of [place_tile],
    and the key pressed. *)
Record Turn := mkTurn {
  turn_probe : nat;
  turn_spot : nat;
  turn_draw : nat;
  turn_key : string
}.

(** The [if cmd == ... elif ... else: assert cmd == keypress.UNMAPPED]
    of the loop body. *)
Definition dispatch (fuel : nat) (cmd : string) : M unit :=
  if String.eqb cmd LEFT then left fuel
  else if String.eqb cmd RIGHT then right fuel
  else if String.eqb cmd UP then up fuel
  else if String.eqb cmd DOWN then down fuel
  else if String.eqb cmd UNMAPPED then ret tt
  else raise AssertionError.

(** The loop of [main] and the call of [game_view.lose] that follows it:
    the result is the score passed to [lose].  The game is still running
    when the turns given are used up. *)
Fixpoint main_loop (fuel : nat) (turns : list Turn) : M Z :=
  match turns with
  | [] => fun _ => OutOfFuel
  | t :: turns' =>
      spot <- find_empty (turn_probe t) ;;
      match spot with
      | None => gets score
      | Some _ =>
          place_tile (turn_spot t) (turn_draw t) ;;;
          dispatch fuel (next (turn_key t)) ;;;
          main_loop fuel turns'
      end
  end.

(** [main()], on a new grid; [spot0] and [draw0] are the draws of the
    first [place_tile].  The views that [main] creates are the listeners
    of the events; they draw, and are not part of the model. *)
Definition main (fuel : nat) (spot0 draw0 : nat) (turns : list Turn) : Outcome Z :=
  (place_tile spot0 draw0 ;;; main_loop fuel turns) Grid_init.

(** * Specification vocabulary *)

(** ** Outcomes of calls *)

(** [wp m Q s]: from [s] the call [m] returns normally, with a result and a
    state that satisfy [Q]. *)
Definition wp {A} (m : M A) (Q : A -> State -> Prop) (s : State) : Prop :=
  match m s with
  | Ok a s' => Q a s'
  | _ => False
  end.

(** [wlp m Q E s]: if the call returns, [Q] holds; if it raises, [E] holds
    of the state it leaves behind. *)
Definition wlp {A} (m : M A) (Q : A -> State -> Prop) (E : State -> Prop)
    (s : State) : Prop :=
  match m s with
  | Ok a s' => Q a s'
  | Raise _ s' => E s'
  | OutOfFuel => True
  end.

(** The call needs no fuel: it returns or raises. *)
Definition finishes {A} (m : M A) : Prop := forall s, m s <> OutOfFuel.

(** The state a call leaves behind, [s] itself when the call is cut short
    by the lack of fuel. *)
Definition after {A} (m : M A) (s : State) : State :=
  match m s with
  | Ok _ s' => s'
  | Raise _ s' => s'
  | OutOfFuel => s
  end.

(** ** Cells and their values *)

(** The content of cell [(i, j)], when the cell array has such a cell. *)
Definition cell_at (ts : list (list (option ref))) (i j : nat) : option (option ref) :=
  match ts !! i with
  | Some rw => rw !! j
  | None => None
  end.

(** The cell array after [tiles[i][j] = x]. *)
Definition put (i j : nat) (x : option ref) (ts : list (list (option ref))) :
    list (list (option ref)) :=
  match ts !! i with
  | Some rw => <[i := <[j := x]> rw]> ts
  | None => ts
  end.

Definition sumZ (l : list Z) : Z := foldr Z.add 0 l.

(** The values of the tiles on the grid, added up. *)
Definition grid_total (s : State) : Z := sumZ (map sumZ (as_list s)).

(** The same sum, over a cell array and a store. *)
Definition total_of (h : list Tile) (ts : list (list (option ref))) : Z :=
  sumZ (map (fun rw => sumZ (map (cell_value h) rw)) ts).

(** The tile [t] is held by a cell. *)
Definition on_grid (s : State) (t : ref) : Prop :=
  exists i j, cell_at (tiles s) i j = Some (Some t).

(** ** Well-formed states *)

(** Well-formed states: the grid is [GRID_SIZE] by [GRID_SIZE], and a tile
    held by a cell is an object of the store whose [row] and [col] are that
    cell's. *)
Record WF (s : State) : Prop := mkWF {
  wf_rows : rows s = GRID_SIZE;
  wf_cols : cols s = GRID_SIZE;
  wf_height : Z.of_nat (length (tiles s)) = GRID_SIZE;
  wf_width : forall i rw, tiles s !! i = Some rw -> Z.of_nat (length rw) = GRID_SIZE;
  wf_refs : forall i j t, cell_at (tiles s) i j = Some (Some t) ->
    (t < length (heap s))%nat /\
    row (heap s !!! t) = Z.of_nat i /\ col (heap s !!! t) = Z.of_nat j
}.

(** The row and column numbers of the grid. *)
Definition span : list nat := seq 0 (Z.to_nat GRID_SIZE).

(** [WF], as a test that can be run on a given state. *)
Definition wf_cell_check (s : State) (i j : nat) : bool :=
  match cell_at (tiles s) i j with
  | Some (Some t) =>
      (t <? length (heap s))%nat
      && (row (heap s !!! t) =? Z.of_nat i) && (col (heap s !!! t) =? Z.of_nat j)
  | _ => true
  end.

Definition wf_check (s : State) : bool :=
  (rows s =? GRID_SIZE) && (cols s =? GRID_SIZE)
  && (Z.of_nat (length (tiles s)) =? GRID_SIZE)
  && forallb (fun rw => Z.of_nat (length rw) =? GRID_SIZE) (tiles s)
  && forallb (fun i => forallb (wf_cell_check s i) span) span.

(** ** Merges, the score and a slide *)

(** [Tile.remove] is called by [Tile.merge] only, so the [tile_removed]
    events are the merges, each carrying the tile that was absorbed. *)
Definition is_removed (e : GameEvent * Tile) : bool :=
  match kind (fst e) with
  | tile_removed => true
  | _ => false
  end.

(** How many merges have happened. *)
Definition merges (s : State) : nat :=
  length (List.filter is_removed (notified s)).

(** The values of the absorbed tiles, added up. *)
Definition absorbed (s : State) : Z :=
  sumZ (map (fun e => if is_removed e then value (snd e) else 0) (notified s)).

(** The balance between the score and the merges: what the score is beyond
    twice the values of the tiles absorbed so far. *)
Definition balance (s : State) : Z := sum s - 2 * absorbed s.

(** The score is [a], the absorbed tiles add up to [b], and there have been
    [n] merges. *)
Definition scored (a b : Z) (n : nat) (s : State) : Prop :=
  sum s = a /\ absorbed s = b /\ merges s = n.

(** The state after the tile [self] of cell [(i, j)] has taken cell
    [(i', j')] with value [v']. *)
Definition relocated (self : ref) (i j i' j' : nat) (v' : Z) (s s' : State) : Prop :=
  rows s' = rows s /\ cols s' = cols s /\
  tiles s' = put i' j' (Some self) (put i j None (tiles s)) /\
  heap s' = <[self := mkTile (Z.of_nat i') (Z.of_nat j') v']> (heap s).

(** The four vectors the moves use. *)
Definition unit_vector (v : Z * Z) : Prop :=
  v = (-1, 0) \/ v = (1, 0) \/ v = (0, -1) \/ v = (0, 1).

(** The number of cells between cell [(i, j)] and the edge of the grid in
    the direction of [v]. *)
Definition room (v : Z * Z) (i j : nat) : nat :=
  let '(dx, dy) := v in
  Z.to_nat (if dx =? -1 then Z.of_nat j
            else if dx =? 1 then GRID_SIZE - 1 - Z.of_nat j
            else if dy =? -1 then Z.of_nat i
            else GRID_SIZE - 1 - Z.of_nat i).

Arguments room : simpl never.

(** The tile [self] cannot go further along [v]: the next cell is outside
    the grid, or holds a tile of another value. *)
Definition blocked (self : ref) (v : Z * Z) (s : State) : Prop :=
  let me := heap s !!! self in
  let r := row me + snd v in
  let c := col me + fst v in
  ~ (0 <= r < rows s /\ 0 <= c < cols s) \/
  exists other,
    cell_at (tiles s) (Z.to_nat r) (Z.to_nat c) = Some (Some other) /\
    value (heap s !!! other) <> value me.

(** What a slide keeps, and where it ends. *)
Record slid (self : ref) (v : Z * Z) (T K : Z) (N : nat) (s' : State) : Prop := mkSlid {
  slid_WF : WF s';
  slid_total : grid_total s' = T;
  slid_score : sum s' - 2 * absorbed s' = K;
  slid_merges : (merges s' <= N)%nat;
  slid_on_grid : exists i j, cell_at (tiles s') i j = Some (Some self);
  slid_blocked : blocked self v s'
}.

(** What a move keeps: the state stays well formed, with the same tiles
    total and the same balance between the score and the merges. *)
Definition kept (T K : Z) (s : State) : Prop :=
  WF s /\ grid_total s = T /\ sum s - 2 * absorbed s = K.

(** ** Empty cells and new tiles *)

(** The empty cells among the cells [(i, j)], [j] in [js], in that order. *)
Definition empties_row (ts : list (list (option ref))) (i : nat) (js : list nat) :
    list (Z * Z) :=
  (fun j => (Z.of_nat i, Z.of_nat j)) <$> filter (fun j => cell_at ts i j = Some None) js.

(** The empty cells of the grid, row by row. *)
Definition empty_cells (s : State) : list (Z * Z) :=
  span ≫= (fun i => empties_row (tiles s) i span).

(** The state after [place_tile] has put a new tile of value [v] in the
    cell [(i, j)]. *)
Definition placed (i j : nat) (v : Z) (s : State) : State :=
  let t := length (heap s) in
  let new := mkTile (Z.of_nat i) (Z.of_nat j) v in
  mkState (rows s) (cols s) (sum s)
    (put i j (Some t) (tiles s))
    (heap s ++ [new])
    (notified s ++ [(mkGameEvent tile_created t, new)])
    (printed s).

(** ** Saved configurations *)

(** [rep[i][j]], when the matrix has it. *)
Definition entry (rep : list (list Z)) (i j : nat) : option Z :=
  match rep !! i with
  | Some rw => rw !! j
  | None => None
  end.

(** The matrix has the rows and columns [set_tiles] reads. *)
Definition row_fits (rep : list (list Z)) (i : nat) : Prop :=
  Forall (fun j => is_Some (entry rep i j)) span.

Definition fits (rep : list (list Z)) : bool :=
  bool_decide (Forall (row_fits rep) span).

(** The part of the matrix that [set_tiles] reads. *)
Definition block (rep : list (list Z)) : list (list Z) :=
  map (take (Z.to_nat GRID_SIZE)) (take (Z.to_nat GRID_SIZE) rep).

(** The cell [c] made by [set_tiles] for the entry [x] of cell [(i, j)]:
    empty for 0, a tile of value [x] otherwise. *)
Definition loaded (h : list Tile) (i j : nat) (x : Z) (c : option ref) : Prop :=
  match c with
  | None => x = 0
  | Some t => x <> 0 /\ h !! t = Some (mkTile (Z.of_nat i) (Z.of_nat j) x)
  end.

(** The cells made for the entries [j] in [js] of row [i]. *)
Definition row_loaded (rep : list (list Z)) (h : list Tile) (i : nat)
    (js : list nat) (cells : list (option ref)) : Prop :=
  Forall2 (fun j c => exists x, entry rep i j = Some x /\ loaded h i j x c) js cells.

(** What [set_tiles] and [place_tile] leave alone: the size, the score,
    and the tiles that exist already. *)
Definition grows (s s' : State) : Prop :=
  rows s' = rows s /\ cols s' = cols s /\ sum s' = sum s /\
  printed s' = printed s /\ exists new, heap s' = heap s ++ new.

(** A new grid in which a saved configuration has been loaded. *)
Definition grid_of (rep : list (list Z)) : State := after (set_tiles rep) Grid_init.

(** ** Tiles that have left the grid *)

(** The tile [t] has been created and is held by no cell. *)
Definition retired (t : ref) (s : State) : Prop :=
  (t < length (heap s))%nat /\ ~ on_grid s t.

(** The calls a driver can make. *)
Inductive Call :=
| CallFindEmpty (pick : nat)
| CallPlaceTile (pick draw : nat)
| CallSetTiles (rep : list (list Z))
| CallLeft
| CallRight
| CallUp
| CallDown.

(** One call; [fuel] is the fuel given to each slide of a move. *)
Definition run_call (fuel : nat) (c : Call) : M unit :=
  match c with
  | CallFindEmpty pick => find_empty pick ;;; ret tt
  | CallPlaceTile pick draw => place_tile pick draw
  | CallSetTiles rep => set_tiles rep
  | CallLeft => left fuel
  | CallRight => right fuel
  | CallUp => up fuel
  | CallDown => down fuel
  end.

(** The state a sequence of calls leaves, a caller going on after an
    exception with the state the failed call left behind; [None] when a
    call is given too little fuel to return. *)
Fixpoint run_calls (fuel : nat) (cs : list Call) (s : State) : option State :=
  match cs with
  | [] => Some s
  | c :: cs' =>
      match run_call fuel c s with
      | Ok _ s' => run_calls fuel cs' s'
      | Raise _ s' => run_calls fuel cs' s'
      | OutOfFuel => None
      end
  end.

(** ** Configurations used as examples *)

Definition empty_row : list Z := [0; 0; 0; 0].

(** A row of empty cells. *)
Definition no_tiles : list (option ref) := [None; None; None; None].

(** Two tiles of value 2 side by side (the scenario of the game's tests). *)
Definition pair_grid : State :=
  grid_of [[2; 2; 0; 0]; empty_row; empty_row; empty_row].

(** A 4 followed by two 2s. *)
Definition chain_grid : State :=
  grid_of [[4; 2; 2; 0]; empty_row; empty_row; empty_row].

(** A full grid. *)
Definition full_grid : State :=
  grid_of [[2; 4; 2; 4]; [4; 2; 4; 2]; [2; 4; 2; 4]; [4; 2; 4; 2]].

(** ** The steps of a move *)

(** One step of a slide: the tile [self] of cell [(i, j)] goes to the cell
    [(i', j')], which was empty, or whose tile of the same value it
    absorbs.  The state [s1] is the one the step leaves. *)
Inductive slide_step (self : ref) (i j i' j' : nat) (s s1 : State) : Prop :=
| step_move :
    cell_at (tiles s) i' j' = Some None ->
    relocated self i j i' j' (value (heap s !!! self)) s s1 ->
    sum s1 = sum s ->
    notified s1
    = notified s ++ [(mkGameEvent tile_updated self, heap s1 !!! self)] ->
    printed s1 = printed s ->
    slide_step self i j i' j' s s1
| step_merge (other : ref) :
    cell_at (tiles s) i' j' = Some (Some other) ->
    value (heap s !!! other) = value (heap s !!! self) ->
    relocated self i j i' j'
      (value (heap s !!! self) + value (heap s !!! other)) s s1 ->
    sum s1 = sum s + (value (heap s !!! self) + value (heap s !!! other)) ->
    notified s1
    = notified s ++
      [(mkGameEvent tile_removed other, heap s !!! other);
       (mkGameEvent tile_updated self,
        mkTile (Z.of_nat i) (Z.of_nat j)
          (value (heap s !!! self) + value (heap s !!! other)));
       (mkGameEvent tile_updated self,
        mkTile (Z.of_nat i') (Z.of_nat j')
          (value (heap s !!! self) + value (heap s !!! other)))] ->
    printed s1
    = printed s ++ [sum s + (value (heap s !!! self) + value (heap s !!! other))] ->
    slide_step self i j i' j' s s1.

(** A step of some tile of a well-formed grid along [v]. *)
Definition stepped (v : Z * Z) (s s1 : State) : Prop :=
  exists self i j i' j',
    WF s /\ cell_at (tiles s) i j = Some (Some self) /\
    Z.of_nat i' = Z.of_nat i + snd v /\ Z.of_nat j' = Z.of_nat j + fst v /\
    slide_step self i j i' j' s s1.

(** The slide of [self] from cell [(i, j)] of [s]: it ends in cell
    [(i2, j2)] of [s2]. *)
Inductive slides (v : Z * Z) (self : ref) :
    nat -> nat -> State -> nat -> nat -> State -> Prop :=
| slides_stop i j s :
    WF s -> cell_at (tiles s) i j = Some (Some self) -> blocked self v s ->
    slides v self i j s i j s
| slides_go i j s i' j' s1 i2 j2 s2 :
    WF s -> cell_at (tiles s) i j = Some (Some self) ->
    Z.of_nat i' = Z.of_nat i + snd v -> Z.of_nat j' = Z.of_nat j + fst v ->
    slide_step self i j i' j' s s1 ->
    slides v self i' j' s1 i2 j2 s2 ->
    slides v self i j s i2 j2 s2.

(** The tile of cell [(a, b)], if any, cannot go further along [v]. *)
Definition settled (v : Z * Z) (s : State) (a b : nat) : Prop :=
  forall t, cell_at (tiles s) a b = Some (Some t) -> blocked t v s.

(** The vector of a move and the order in which it visits the cells. *)
Inductive direction : Z * Z -> bool -> bool -> Prop :=
| dir_left : direction (-1, 0) false false
| dir_right : direction (1, 0) false true
| dir_up : direction (0, -1) false false
| dir_down : direction (0, 1) true false.

(** ** What the steps of a move add up to *)

(** The weight of a cell in the count of the tiles. *)
Definition cell_count (c : option ref) : Z := if c is Some _ then 1 else 0.

(** The number of tiles on the grid. *)
Definition occupied (s : State) : Z :=
  sumZ (map (fun rw => sumZ (map cell_count rw)) (tiles s)).

(** What has happened between [s] and [s'] when only tiles have slid: no
    tile was created, no tile came back to the grid, each merge took one
    tile from the grid and printed the score, and the listeners heard of
    tiles of the grid only. *)
Record advanced (s s' : State) : Prop := mkAdvanced {
  adv_heap : length (heap s') = length (heap s);
  adv_on_grid : forall t, on_grid s' t -> on_grid s t;
  adv_count : occupied s' + Z.of_nat (merges s') = occupied s + Z.of_nat (merges s);
  adv_events : exists l,
    notified s' = notified s ++ l /\
    Forall (fun e => kind (fst e) <> tile_created /\ on_grid s (tile (fst e))) l;
  adv_printed : exists p,
    printed s' = printed s ++ p /\
    merges s' = (merges s + length p)%nat /\
    last (sum s :: p) = Some (sum s')
}.

(** Every tile of the grid has a value in [P]. *)
Definition values_in (P : Z -> Prop) (s : State) : Prop :=
  forall t, on_grid s t -> P (value (heap s !!! t)).

Definition power_of_two (x : Z) : Prop := exists k, 0 < k /\ x = 2 ^ k.

(** The four moves, each with its movement vector. *)
Definition moves (fuel : nat) : list ((Z * Z) * M unit) :=
  [((-1, 0), left fuel); ((1, 0), right fuel);
   ((0, -1), up fuel); ((0, 1), down fuel)].

(** ** The order of a move *)

(** The tiles of the cells in [V] other than the cell [q] are settled, and
    the cell of [V] just behind [q], if there is one, holds no tile. *)
Definition calm (v : Z * Z) (V : nat -> nat -> Prop) (q : nat * nat) (s : State) : Prop :=
  (forall a b, V a b -> (a, b) <> q -> settled v s a b) /\
  (forall a b t,
     Z.of_nat (fst q) = Z.of_nat a + snd v -> Z.of_nat (snd q) = Z.of_nat b + fst v ->
     V a b -> cell_at (tiles s) a b <> Some (Some t)).

(** The elements of [pre] come before [x] in the order of a loop that goes
    up, or down when [rev] is set. *)
Definition before (rev : bool) (pre : list Z) (x : Z) : Prop :=
  forall y, y ∈ pre -> if rev then x < y else y < x.

(** ** Loading, as the listeners see it *)

(** What [set_tiles] has done between [s] and [s']: the tiles of the grid
    are new ones, and the listeners have been told of each tile created,
    in the order of creation, and of nothing else. *)
Definition reloaded (s s' : State) : Prop :=
  (forall t, on_grid s' t -> (length (heap s) <= t)%nat) /\
  exists l,
    notified s' = notified s ++ l /\
    Forall (fun e => kind (fst e) = tile_created) l /\
    map (fun e => tile (fst e)) l = seq (length (heap s)) (length l) /\
    length (heap s') = (length (heap s) + length l)%nat.

(** The calls of a game: all but [set_tiles]. *)
Definition plays (c : Call) : bool :=
  match c with
  | CallSetTiles _ => false
  | _ => true
  end.

(** ** The game *)

(** The commands that [Command.next] can return. *)
Definition commands : list string := [LEFT; RIGHT; UP; DOWN; UNMAPPED].

(** No cell of the grid is empty. *)
Definition full (s : State) : Prop :=
  forall i j, cell_at (tiles s) i j <> Some None.

(** What holds of the grid all along a game. *)
Definition sound (s : State) : Prop :=
  WF s /\ values_in power_of_two s /\ 0 <= sum s.

(** ** Tiles created and tiles on the grid *)

Definition is_created (e : GameEvent * Tile) : bool :=
  match kind (fst e) with
  | tile_created => true
  | _ => false
  end.

(** The values that the tiles created so far had when the listeners were
    told of them, added up. *)
Definition placed_total (s : State) : Z :=
  sumZ (map (fun e => if is_created e then value (snd e) else 0) (notified s)).

(** The tile [t] is [k] cells further along [v] in [s'] than in [s]. *)
Definition shifted (v : Z * Z) (t : ref) (k : Z) (s s' : State) : Prop :=
  row (heap s' !!! t) = row (heap s !!! t) + k * snd v /\
  col (heap s' !!! t) = col (heap s !!! t) + k * fst v.


(** * Reasoning about the model *)

(** ** Outcomes of calls *)

Lemma wp_ret {A} (a : A) Q s : Q a s -> wp (ret a) Q s.
Proof. done. Qed.

Lemma wp_bind {A B} (m : M A) (k : A -> M B) Q s :
  wp m (fun a s' => wp (k a) Q s') s -> wp (bind m k) Q s.
Proof. unfold wp, bind. by destruct (m s). Qed.

Lemma wp_gets {A} (f : State -> A) Q s : Q (f s) s -> wp (gets f) Q s.
Proof. done. Qed.

Lemma wp_modify f Q s : Q tt (f s) -> wp (modify f) Q s.
Proof. done. Qed.

Lemma wp_mono {A} (m : M A) (Q Q' : A -> State -> Prop) s :
  wp m Q s -> (forall a s', Q a s' -> Q' a s') -> wp m Q' s.
Proof. unfold wp. destruct (m s); auto. Qed.

Lemma wp_elim {A} (m : M A) Q s :
  wp m Q s -> exists a s', m s = Ok a s' /\ Q a s'.
Proof. unfold wp. destruct (m s); [eauto | done | done]. Qed.

Lemma wp_intro {A} (m : M A) (Q : A -> State -> Prop) s a s' :
  m s = Ok a s' -> Q a s' -> wp m Q s.
Proof. unfold wp. by intros ->. Qed.

Lemma wlp_ret {A} (a : A) Q E s : Q a s -> wlp (ret a) Q E s.
Proof. done. Qed.

Lemma wlp_bind {A B} (m : M A) (k : A -> M B) Q E s :
  wlp m (fun a s' => wlp (k a) Q E s') E s -> wlp (bind m k) Q E s.
Proof. unfold wlp, bind. by destruct (m s). Qed.

Lemma wlp_gets {A} (f : State -> A) Q E s : Q (f s) s -> wlp (gets f) Q E s.
Proof. done. Qed.

Lemma wlp_modify f Q E s : Q tt (f s) -> wlp (modify f) Q E s.
Proof. done. Qed.

Lemma wlp_raise {A} e (Q : A -> State -> Prop) (E : State -> Prop) s :
  E s -> wlp (raise e) Q E s.
Proof. done. Qed.

Lemma wlp_mono {A} (m : M A) (Q Q' : A -> State -> Prop) (E E' : State -> Prop) s :
  wlp m Q E s -> (forall a s', Q a s' -> Q' a s') -> (forall s', E s' -> E' s') ->
  wlp m Q' E' s.
Proof. unfold wlp. destruct (m s); auto. Qed.

Lemma wp_wlp {A} (m : M A) Q E s : wp m Q s -> wlp m Q E s.
Proof. unfold wp, wlp. by destruct (m s). Qed.

(** A loop keeps what each of its iterations keeps. *)
Lemma wp_for_each {A} (I : State -> Prop) (l : list A) (body : A -> M unit) :
  (forall x s, x ∈ l -> I s -> wp (body x) (fun _ s' => I s') s) ->
  forall s, I s -> wp (for_each l body) (fun _ s' => I s') s.
Proof.
  induction l as [|x l IH]; intros Hb s Hs; simpl.
  - by apply wp_ret.
  - apply wp_bind. eapply wp_mono.
    + apply Hb; [left | done].
    + intros a s' Hs'. apply IH; [|done].
      intros y s0 Hy. apply Hb. by right.
Qed.

Lemma wlp_for_each {A} (I : State -> Prop) (l : list A) (body : A -> M unit) :
  (forall x s, I s -> wlp (body x) (fun _ s' => I s') I s) ->
  forall s, I s -> wlp (for_each l body) (fun _ s' => I s') I s.
Proof.
  intros Hb. induction l as [|x l IH]; intros s Hs; simpl.
  - by apply wlp_ret.
  - apply wlp_bind. eapply wlp_mono; [by apply Hb | | done].
    intros a s' Hs'. by apply IH.
Qed.

Lemma wlp_for_acc {A S} (I : State -> Prop) (l : list A) (body : A -> S -> M S) :
  (forall x acc s, I s -> wlp (body x acc) (fun _ s' => I s') I s) ->
  forall acc s, I s -> wlp (for_acc l body acc) (fun _ s' => I s') I s.
Proof.
  intros Hb. induction l as [|x l IH]; intros acc s Hs; simpl.
  - by apply wlp_ret.
  - apply wlp_bind. eapply wlp_mono; [by apply Hb | | done].
    intros acc' s' Hs'. by apply IH.
Qed.

(** ** Python indexing inside the list *)

Lemma norm_index_nat (len i : nat) :
  (i < len)%nat -> norm_index len (Z.of_nat i) = Some i.
Proof.
  intros Hi. unfold norm_index.
  destruct (Z.leb_spec 0 (Z.of_nat i)); [|lia].
  destruct (Z.ltb_spec (Z.of_nat i) (Z.of_nat len)); [|lia].
  by rewrite Nat2Z.id.
Qed.

Lemma norm_index_lt len i n : norm_index len i = Some n -> (n < len)%nat.
Proof.
  unfold norm_index.
  destruct (Z.leb_spec 0 i).
  - destruct (Z.ltb_spec i (Z.of_nat len)); [|done]. intros [= <-]. lia.
  - destruct (Z.leb_spec (- Z.of_nat len) i); [|done]. intros [= <-]. lia.
Qed.

Lemma norm_index_ge len i : Z.of_nat len <= i -> norm_index len i = None.
Proof.
  intros Hi. unfold norm_index.
  destruct (Z.leb_spec 0 i); [|lia].
  by destruct (Z.ltb_spec i (Z.of_nat len)); [lia|].
Qed.

Lemma getitem_nat {A} (l : list A) (i : nat) : getitem l (Z.of_nat i) = l !! i.
Proof.
  unfold getitem. destruct (decide (i < length l)%nat) as [Hi|Hi].
  - by rewrite norm_index_nat.
  - rewrite norm_index_ge by lia. symmetry. apply lookup_ge_None. lia.
Qed.

Lemma setitem_nat {A} (l : list A) (i : nat) x :
  (i < length l)%nat -> setitem l (Z.of_nat i) x = Some (<[i := x]> l).
Proof. intros Hi. unfold setitem. by rewrite norm_index_nat. Qed.

(** ** Cells *)

Lemma cell_at_put_eq ts i j x :
  is_Some (cell_at ts i j) -> cell_at (put i j x ts) i j = Some x.
Proof.
  unfold cell_at, put. destruct (ts !! i) as [rw|] eqn:Hi; [|by intros [? ?]].
  intros Hj. rewrite list_lookup_insert_eq by (by eapply lookup_lt_Some).
  apply list_lookup_insert_eq. by apply lookup_lt_is_Some.
Qed.

Lemma cell_at_put_ne ts i j a b x :
  (a, b) <> (i, j) -> cell_at (put i j x ts) a b = cell_at ts a b.
Proof.
  intros Hne. unfold cell_at, put. destruct (ts !! i) as [rw|] eqn:Hi; [|done].
  destruct (decide (a = i)) as [->|Hai].
  - rewrite list_lookup_insert_eq by (by eapply lookup_lt_Some). rewrite Hi.
    apply list_lookup_insert_ne. congruence.
  - by rewrite list_lookup_insert_ne.
Qed.

Lemma put_length i j x ts : length (put i j x ts) = length ts.
Proof. unfold put. destruct (ts !! i); [apply length_insert | done]. Qed.

Lemma put_row_length i j x ts a rw' :
  put i j x ts !! a = Some rw' ->
  exists rw, ts !! a = Some rw /\ length rw' = length rw.
Proof.
  unfold put. destruct (ts !! i) as [rw|] eqn:Hi; [|eauto].
  destruct (decide (a = i)) as [->|Hai].
  - rewrite list_lookup_insert_eq by (by eapply lookup_lt_Some).
    intros [= <-]. exists rw. by rewrite length_insert.
  - rewrite list_lookup_insert_ne by done. eauto.
Qed.

Lemma tiles_getitem_nat s (i j : nat) x :
  cell_at (tiles s) i j = Some x ->
  tiles_getitem (Z.of_nat i) (Z.of_nat j) s = Ok x s.
Proof.
  unfold cell_at, tiles_getitem. rewrite getitem_nat.
  destruct (tiles s !! i) as [rw|]; [|done]. rewrite getitem_nat. by intros ->.
Qed.

Lemma tiles_setitem_nat s (i j : nat) x :
  is_Some (cell_at (tiles s) i j) ->
  tiles_setitem (Z.of_nat i) (Z.of_nat j) x s
  = Ok tt (with_tiles (put i j x (tiles s)) s).
Proof.
  unfold cell_at, tiles_setitem, put. rewrite getitem_nat.
  destruct (tiles s !! i) as [rw|] eqn:Hi; [|by intros [? ?]].
  intros Hj. rewrite setitem_nat by (by apply lookup_lt_is_Some).
  by rewrite setitem_nat by (by eapply lookup_lt_Some).
Qed.

(** ** The sum of the tiles on the grid *)

Lemma grid_total_of s : grid_total s = total_of (heap s) (tiles s).
Proof.
  unfold grid_total, total_of, as_list. by rewrite map_map.
Qed.

Lemma sumZ_insert {A} (f : A -> Z) (l : list A) j x y :
  l !! j = Some x ->
  sumZ (map f (<[j := y]> l)) = sumZ (map f l) - f x + f y.
Proof.
  revert j. induction l as [|a l IH]; intros [|j] Hj; simplify_eq/=.
  - lia.
  - rewrite (IH j) by done. lia.
Qed.

Lemma total_of_put h ts i j x0 x :
  cell_at ts i j = Some x0 ->
  total_of h (put i j x ts) = total_of h ts - cell_value h x0 + cell_value h x.
Proof.
  unfold cell_at, put, total_of. destruct (ts !! i) as [rw|] eqn:Hi; [|done].
  intros Hj.
  rewrite (sumZ_insert _ ts i rw) by done.
  rewrite (sumZ_insert _ rw j x0) by done. lia.
Qed.

(** Changing a tile that is in no cell does not change the sum. *)
Lemma total_of_frame h ts t v :
  (forall i j, cell_at ts i j <> Some (Some t)) ->
  total_of (<[t := v]> h) ts = total_of h ts.
Proof.
  intros Hno. unfold total_of. f_equal. apply map_ext_in.
  intros rw Hrw. f_equal. apply map_ext_in. intros [u|] Hu; [|done].
  simpl. destruct (decide (u = t)) as [->|Hne].
  - exfalso. apply list_elem_of_In, list_elem_of_lookup in Hrw as [i Hi].
    apply list_elem_of_In, list_elem_of_lookup in Hu as [j Hj].
    apply (Hno i j). unfold cell_at. by rewrite Hi.
  - by rewrite list_lookup_total_insert_ne.
Qed.

(** ** Well-formed states *)

Lemma WF_cell s i j :
  WF s -> Z.of_nat i < GRID_SIZE -> Z.of_nat j < GRID_SIZE ->
  is_Some (cell_at (tiles s) i j).
Proof.
  intros H Hi Hj. unfold cell_at.
  destruct (lookup_lt_is_Some_2 (tiles s) i) as [rw Hrw].
  { pose proof (wf_height s H). lia. }
  rewrite Hrw. apply lookup_lt_is_Some_2.
  pose proof (wf_width s H i rw Hrw). lia.
Qed.

Lemma cell_at_lt s i j x :
  WF s -> cell_at (tiles s) i j = Some x ->
  Z.of_nat i < GRID_SIZE /\ Z.of_nat j < GRID_SIZE.
Proof.
  intros H. unfold cell_at. destruct (tiles s !! i) as [rw|] eqn:Hrw; [|done].
  intros Hj. pose proof (wf_height s H). pose proof (wf_width s H i rw Hrw).
  apply lookup_lt_Some in Hrw, Hj. lia.
Qed.

(** A tile is in one cell at most. *)
Lemma WF_unique s i j a b t :
  WF s -> cell_at (tiles s) i j = Some (Some t) ->
  cell_at (tiles s) a b = Some (Some t) -> (a, b) = (i, j).
Proof.
  intros H H1 H2.
  destruct (wf_refs s H _ _ _ H1) as (_ & Hr1 & Hc1).
  destruct (wf_refs s H _ _ _ H2) as (_ & Hr2 & Hc2).
  f_equal; lia.
Qed.

Section Relocated.
Context (self : ref) (i j i' j' : nat) (v' : Z) (s s' : State) (x : option ref).
Hypothesis Hwf : WF s.
Hypothesis Hself : cell_at (tiles s) i j = Some (Some self).
Hypothesis Hdest : cell_at (tiles s) i' j' = Some x.
Hypothesis Hne : (i', j') <> (i, j).
Hypothesis Hrel : relocated self i j i' j' v' s s'.

Lemma relocated_cell_dest : cell_at (tiles s') i' j' = Some (Some self).
Proof.
  destruct Hrel as (_ & _ & -> & _).
  apply cell_at_put_eq. rewrite cell_at_put_ne by done. by rewrite Hdest.
Qed.

Lemma relocated_cell_src : cell_at (tiles s') i j = Some None.
Proof.
  destruct Hrel as (_ & _ & -> & _).
  rewrite cell_at_put_ne by congruence.
  apply cell_at_put_eq. by rewrite Hself.
Qed.

Lemma relocated_cell_other a b :
  (a, b) <> (i, j) -> (a, b) <> (i', j') ->
  cell_at (tiles s') a b = cell_at (tiles s) a b.
Proof.
  intros H1 H2. destruct Hrel as (_ & _ & -> & _).
  by rewrite !cell_at_put_ne.
Qed.

Lemma relocated_heap_self : heap s' !!! self = mkTile (Z.of_nat i') (Z.of_nat j') v'.
Proof.
  destruct Hrel as (_ & _ & _ & ->).
  apply list_lookup_total_insert_eq. by apply (wf_refs s Hwf i j).
Qed.

Lemma relocated_heap_other t : t <> self -> heap s' !!! t = heap s !!! t.
Proof.
  intros Ht. destruct Hrel as (_ & _ & _ & ->).
  by apply list_lookup_total_insert_ne.
Qed.

Lemma relocated_WF : WF s'.
Proof.
  pose proof Hrel as (Hr & Hc & Ht & Hh). split.
  - rewrite Hr. apply Hwf.
  - rewrite Hc. apply Hwf.
  - rewrite Ht, !put_length. apply Hwf.
  - intros a rw. rewrite Ht. intros Ha.
    apply put_row_length in Ha as (rw1 & Ha & ->).
    apply put_row_length in Ha as (rw2 & Ha & ->).
    by apply (wf_width s Hwf a).
  - intros a b t Hab. rewrite Hh, length_insert.
    destruct (decide ((a, b) = (i', j'))) as [[= -> ->]|Hd].
    + rewrite relocated_cell_dest in Hab. injection Hab as <-.
      rewrite <- Hh, relocated_heap_self. simpl.
      split; [by apply (wf_refs s Hwf i j) | done].
    + destruct (decide ((a, b) = (i, j))) as [[= -> ->]|Hs].
      { by rewrite relocated_cell_src in Hab. }
      rewrite relocated_cell_other in Hab by done.
      rewrite <- Hh, relocated_heap_other; [by apply (wf_refs s Hwf)|].
      intros ->. apply Hs. by eapply WF_unique.
Qed.

Lemma relocated_total :
  grid_total s'
  = grid_total s - value (heap s !!! self) - cell_value (heap s) x + v'.
Proof.
  rewrite !grid_total_of.
  pose proof Hrel as (_ & _ & Ht & Hh). rewrite Ht.
  rewrite (total_of_put _ _ i' j' x); cycle 1.
  { by rewrite cell_at_put_ne. }
  simpl. rewrite relocated_heap_self. simpl.
  assert (cell_value (heap s') x = cell_value (heap s) x) as ->.
  { destruct x as [t|]; [simpl|done]. apply f_equal, relocated_heap_other.
    intros ->. apply Hne. by eapply WF_unique. }
  rewrite Hh, total_of_frame.
  - rewrite (total_of_put _ _ i j (Some self)) by done. simpl. lia.
  - intros a b Hab. destruct (decide ((a, b) = (i, j))) as [[= -> ->]|Hs].
    + rewrite cell_at_put_eq in Hab; [done | by rewrite Hself].
    + rewrite cell_at_put_ne in Hab by done. apply Hs. by eapply WF_unique.
Qed.
End Relocated.

(** ** Merges, as the listeners see them *)

Lemma sumZ_app l1 l2 : sumZ (l1 ++ l2) = sumZ l1 + sumZ l2.
Proof. induction l1 as [|a l1 IH]; simpl; lia. Qed.

(** ** One step of a slide *)

Section Step.
Context (self : ref) (i j i' j' : nat) (s : State).
Hypothesis Hwf : WF s.
Hypothesis Hself : cell_at (tiles s) i j = Some (Some self).

Lemma Tile_move_spec :
  is_Some (cell_at (tiles s) i' j') ->
  wp (Tile_move self (Z.of_nat i') (Z.of_nat j'))
     (fun _ s' =>
        relocated self i j i' j' (value (heap s !!! self)) s s' /\
        sum s' = sum s /\
        notified s' = notified s ++ [(mkGameEvent tile_updated self, heap s' !!! self)] /\
        printed s' = printed s) s.
Proof.
  intros Hdest.
  destruct (wf_refs s Hwf i j self Hself) as (Hlt & Hr & Hc).
  unfold Tile_move. apply wp_bind, wp_gets. rewrite Hr, Hc.
  apply wp_bind. unfold wp at 1.
  rewrite tiles_setitem_nat by (by rewrite Hself).
  do 2 (apply wp_bind, wp_modify). apply wp_bind. unfold wp at 1.
  rewrite tiles_setitem_nat; cycle 1.
  { simpl. destruct (decide ((i', j') = (i, j))) as [[= -> ->]|Hne].
    - rewrite cell_at_put_eq; [done | by rewrite Hself].
    - by rewrite cell_at_put_ne. }
  apply wp_modify. unfold relocated. cbn.
  rewrite !list_lookup_total_insert_eq by (by rewrite ?length_insert).
  cbn. by rewrite list_insert_insert_eq.
Qed.

Lemma Tile_merge_spec other :
  other <> self ->
  wp (Tile_merge self other)
     (fun _ s' =>
        let v' := value (heap s !!! self) + value (heap s !!! other) in
        rows s' = rows s /\ cols s' = cols s /\ tiles s' = tiles s /\
        heap s' = <[self := mkTile (Z.of_nat i) (Z.of_nat j) v']> (heap s) /\
        sum s' = sum s /\
        notified s' = notified s ++
          [(mkGameEvent tile_removed other, heap s !!! other);
           (mkGameEvent tile_updated self, mkTile (Z.of_nat i) (Z.of_nat j) v')] /\
        printed s' = printed s) s.
Proof.
  intros Hne.
  destruct (wf_refs s Hwf i j self Hself) as (Hlt & Hr & Hc).
  unfold Tile_merge, Tile_remove. do 2 (apply wp_bind, wp_gets).
  apply wp_bind, wp_modify. apply wp_bind, wp_modify. apply wp_modify.
  cbn. rewrite Hr, Hc.
  rewrite list_lookup_total_insert_ne by done.
  rewrite list_lookup_total_insert_eq by done.
  by rewrite <- app_assoc.
Qed.
End Step.

(** Giving a tile a new value keeps the state well formed. *)
Lemma WF_revalue s s' t v :
  WF s ->
  rows s' = rows s -> cols s' = cols s -> tiles s' = tiles s ->
  heap s' = <[t := mkTile (row (heap s !!! t)) (col (heap s !!! t)) v]> (heap s) ->
  WF s'.
Proof.
  intros H Hr Hc Ht Hh. split.
  - rewrite Hr. apply H.
  - rewrite Hc. apply H.
  - rewrite Ht. apply H.
  - rewrite Ht. apply H.
  - rewrite Ht, Hh. intros a b u Hu. rewrite length_insert.
    destruct (wf_refs s H a b u Hu) as (Hlt & Hrow & Hcol).
    split; [done|]. destruct (decide (u = t)) as [->|Hne].
    + by rewrite list_lookup_total_insert_eq.
    + by rewrite list_lookup_total_insert_ne.
Qed.

Lemma slide_merge_spec self other i j i' j' s :
  WF s ->
  cell_at (tiles s) i j = Some (Some self) ->
  cell_at (tiles s) i' j' = Some (Some other) ->
  (i', j') <> (i, j) ->
  wp (slide_merge self other (Z.of_nat i') (Z.of_nat j'))
     (fun _ s' =>
        let v' := value (heap s !!! self) + value (heap s !!! other) in
        relocated self i j i' j' v' s s' /\
        sum s' = sum s + v' /\
        notified s' = notified s ++
          [(mkGameEvent tile_removed other, heap s !!! other);
           (mkGameEvent tile_updated self, mkTile (Z.of_nat i) (Z.of_nat j) v');
           (mkGameEvent tile_updated self, mkTile (Z.of_nat i') (Z.of_nat j') v')] /\
        printed s' = printed s ++ [sum s + v']) s.
Proof.
  intros Hwf Hself Hother Hne.
  assert (other <> self) as Hos.
  { intros ->. apply Hne. by eapply WF_unique. }
  destruct (wf_refs s Hwf i j self Hself) as (Hlt & Hr & Hc).
  unfold slide_merge. apply wp_bind.
  eapply wp_mono; [by eapply Tile_merge_spec|].
  intros _ s1 (Hr1 & Hc1 & Ht1 & Hh1 & Hs1 & Hd1 & Hp1).
  assert (WF s1) as Hwf1.
  { apply (WF_revalue s s1 self (value (heap s !!! self) + value (heap s !!! other)));
      try done. by rewrite Hr, Hc. }
  assert (heap s1 !!! self
          = mkTile (Z.of_nat i) (Z.of_nat j)
              (value (heap s !!! self) + value (heap s !!! other))) as Hme1.
  { rewrite Hh1. by apply list_lookup_total_insert_eq. }
  apply wp_bind.
  eapply wp_mono.
  { apply (Tile_move_spec self i j i' j' s1 Hwf1).
    - by rewrite Ht1.
    - by rewrite Ht1, Hother. }
  intros _ s2 ((Hr2 & Hc2 & Ht2 & Hh2) & Hs2 & Hd2 & Hp2).
  assert (heap s2 !!! self
          = mkTile (Z.of_nat i') (Z.of_nat j')
              (value (heap s !!! self) + value (heap s !!! other))) as Hme2.
  { rewrite Hh2, Hme1. apply list_lookup_total_insert_eq.
    by rewrite Hh1, length_insert. }
  apply wp_bind, wp_gets. apply wp_bind, wp_modify. apply wp_modify. cbn.
  rewrite Hme2. unfold relocated. simpl. repeat split.
  - congruence.
  - congruence.
  - by rewrite Ht2, Ht1.
  - rewrite Hh2, Hme1, Hh1. cbn. apply list_insert_insert_eq.
  - congruence.
  - rewrite Hd2, Hd1, Hme2, <- app_assoc. done.
  - congruence.
Qed.

Lemma absorbed_app s s' l :
  notified s' = notified s ++ l ->
  absorbed s'
  = absorbed s + sumZ (map (fun e => if is_removed e then value (snd e) else 0) l).
Proof. unfold absorbed. intros ->. by rewrite map_app, sumZ_app. Qed.

Lemma merges_app s s' l :
  notified s' = notified s ++ l ->
  merges s' = (merges s + length (List.filter is_removed l))%nat.
Proof. unfold merges. intros ->. by rewrite List.filter_app, length_app. Qed.

(** ** A whole slide *)

Lemma in_bounds_true s r c :
  WF s ->
  within s r c = true ->
  r = Z.of_nat (Z.to_nat r) /\ c = Z.of_nat (Z.to_nat c) /\
  Z.of_nat (Z.to_nat r) < GRID_SIZE /\ Z.of_nat (Z.to_nat c) < GRID_SIZE.
Proof.
  intros H. unfold within. rewrite (wf_rows s H), (wf_cols s H).
  rewrite !andb_true_iff, !Z.leb_le, !Z.ltb_lt. lia.
Qed.

Lemma in_bounds_false s r c :
  within s r c = false ->
  ~ (0 <= r < rows s /\ 0 <= c < cols s).
Proof.
  intros Hb Hin. rewrite <- not_true_iff_false in Hb. apply Hb. unfold within.
  rewrite !andb_true_iff, !Z.leb_le, !Z.ltb_lt. lia.
Qed.

(** The four ways through the loop body. *)
Section LoopBody.
Context (fuel : nat) (self : ref) (dx dy r c : Z) (s : State).

Lemma slide_loop_edge :
  within s (r + dy) (c + dx) = false -> slide_loop (S fuel) self dx dy r c s = Ok tt s.
Proof.
  intros Hin. cbn [slide_loop].
  unfold bind at 1, in_bounds, gets. by rewrite Hin.
Qed.

Lemma slide_loop_empty :
  within s (r + dy) (c + dx) = true ->
  tiles_getitem (r + dy) (c + dx) s = Ok None s ->
  slide_loop (S fuel) self dx dy r c s
  = (Tile_move self (r + dy) (c + dx) ;;;
     slide_loop fuel self dx dy (r + dy) (c + dx)) s.
Proof.
  intros Hin Hget. cbn [slide_loop].
  unfold bind at 1, in_bounds, gets. rewrite Hin. cbn [negb].
  unfold bind at 1. by rewrite Hget.
Qed.

Lemma slide_loop_match other :
  within s (r + dy) (c + dx) = true ->
  tiles_getitem (r + dy) (c + dx) s = Ok (Some other) s ->
  value (heap s !!! other) = value (heap s !!! self) ->
  slide_loop (S fuel) self dx dy r c s
  = (slide_merge self other (r + dy) (c + dx) ;;;
     slide_loop fuel self dx dy (r + dy) (c + dx)) s.
Proof.
  intros Hin Hget Heq. cbn [slide_loop].
  unfold bind at 1, in_bounds, gets. rewrite Hin. cbn [negb].
  unfold bind at 1. rewrite Hget.
  unfold bind at 1, Tile_get at 1, gets. unfold bind at 1, Tile_get at 1, gets.
  by rewrite Heq, Z.eqb_refl.
Qed.

Lemma slide_loop_differ other :
  within s (r + dy) (c + dx) = true ->
  tiles_getitem (r + dy) (c + dx) s = Ok (Some other) s ->
  value (heap s !!! other) <> value (heap s !!! self) ->
  slide_loop (S fuel) self dx dy r c s = Ok tt s.
Proof.
  intros Hin Hget Hne. cbn [slide_loop].
  unfold bind at 1, in_bounds, gets. rewrite Hin. cbn [negb].
  unfold bind at 1. rewrite Hget.
  unfold bind at 1, Tile_get at 1, gets. unfold bind at 1, Tile_get at 1, gets.
  apply Z.eqb_neq in Hne. by rewrite Hne.
Qed.
End LoopBody.

(** One execution of the loop body: the tile is blocked and the loop is
    left, or the tile goes one cell further, to a cell with one cell less
    of room, and the loop goes on from there. *)
Lemma slide_loop_step self dx dy s i j :
  unit_vector (dx, dy) ->
  WF s ->
  cell_at (tiles s) i j = Some (Some self) ->
  ((forall fuel,
      slide_loop (S fuel) self dx dy (Z.of_nat i) (Z.of_nat j) s = Ok tt s) /\
   blocked self (dx, dy) s) \/
  exists s1 i' j',
    (forall fuel,
       slide_loop (S fuel) self dx dy (Z.of_nat i) (Z.of_nat j) s
       = slide_loop fuel self dx dy (Z.of_nat i') (Z.of_nat j') s1) /\
    room (dx, dy) i j = S (room (dx, dy) i' j') /\
    WF s1 /\
    cell_at (tiles s1) i' j' = Some (Some self) /\
    grid_total s1 = grid_total s /\
    sum s1 - 2 * absorbed s1 = sum s - 2 * absorbed s /\
    (merges s1 <= S (merges s))%nat.
Proof.
  intros Hv Hwf Hself.
  destruct (wf_refs s Hwf i j self Hself) as (Hlt & Hr & Hc).
  destruct (cell_at_lt s i j _ Hwf Hself) as (Hi & Hj).
  destruct (within s (Z.of_nat i + dy) (Z.of_nat j + dx)) eqn:Hin.
  2:{ left. split; [intros fuel; by apply slide_loop_edge|].
      left. simpl. rewrite Hr, Hc. by apply in_bounds_false. }
  pose proof Hin as Hin'.
  apply in_bounds_true in Hin' as (Hr' & Hc' & Hi' & Hj'); [|done].
  set (i' := Z.to_nat (Z.of_nat i + dy)) in *.
  set (j' := Z.to_nat (Z.of_nat j + dx)) in *.
  assert ((i', j') <> (i, j)) as Hne.
  { intros [= Ei Ej]. unfold unit_vector in Hv.
    destruct Hv as [[= -> ->]|[[= -> ->]|[[= -> ->]|[= -> ->]]]]; lia. }
  assert (room (dx, dy) i j = S (room (dx, dy) i' j')) as Hroom.
  { unfold room, GRID_SIZE in *. unfold unit_vector in Hv.
    destruct Hv as [[= -> ->]|[[= -> ->]|[[= -> ->]|[= -> ->]]]]; simpl; lia. }
  destruct (WF_cell s i' j' Hwf Hi' Hj') as [x Hx].
  pose proof (tiles_getitem_nat s i' j' x Hx) as Hget. rewrite <- Hr', <- Hc' in Hget.
  destruct x as [other|].
  - destruct (decide (value (heap s !!! other) = value (heap s !!! self))) as [Heq|Heq].
    + destruct (wp_elim _ _ _ (slide_merge_spec self other i j i' j' s Hwf Hself Hx Hne))
        as ([] & s1 & Hrun & Hrel & Hs1 & Hd1 & Hp1).
      right. exists s1, i', j'. split.
      { intros fuel. rewrite (slide_loop_match fuel self dx dy _ _ s other Hin Hget Heq).
        unfold bind. by rewrite Hr', Hc', Hrun. }
      split; [done|]. split.
      { eapply relocated_WF; [exact Hwf | exact Hself | exact Hx | exact Hne | exact Hrel]. }
      split.
      { eapply relocated_cell_dest; [exact Hx | exact Hne | exact Hrel]. }
      rewrite (relocated_total self i j i' j' _ s s1 (Some other) Hwf Hself Hx Hne Hrel).
      rewrite (absorbed_app s s1 _ Hd1), (merges_app s s1 _ Hd1). simpl. lia.
    + left. split.
      { intros fuel. by apply (slide_loop_differ fuel self dx dy _ _ s other). }
      right. exists other. simpl. rewrite Hr, Hc. fold i' j'. done.
  - assert (is_Some (cell_at (tiles s) i' j')) as Hsome by (by rewrite Hx).
    destruct (wp_elim _ _ _ (Tile_move_spec self i j i' j' s Hwf Hself Hsome))
      as ([] & s1 & Hrun & Hrel & Hs1 & Hd1 & Hp1).
    right. exists s1, i', j'. split.
    { intros fuel. rewrite (slide_loop_empty fuel self dx dy _ _ s Hin Hget).
      unfold bind. by rewrite Hr', Hc', Hrun. }
    split; [done|]. split.
    { eapply relocated_WF; [exact Hwf | exact Hself | exact Hx | exact Hne | exact Hrel]. }
    split.
    { eapply relocated_cell_dest; [exact Hx | exact Hne | exact Hrel]. }
    rewrite (relocated_total self i j i' j' _ s s1 None Hwf Hself Hx Hne Hrel).
    rewrite (absorbed_app s s1 _ Hd1), (merges_app s s1 _ Hd1). simpl. lia.
Qed.

Lemma slide_loop_spec self dx dy :
  unit_vector (dx, dy) ->
  forall fuel s i j T K N,
    WF s ->
    cell_at (tiles s) i j = Some (Some self) ->
    (room (dx, dy) i j < fuel)%nat ->
    grid_total s = T ->
    sum s - 2 * absorbed s = K ->
    (merges s + room (dx, dy) i j <= N)%nat ->
    wp (slide_loop fuel self dx dy (Z.of_nat i) (Z.of_nat j))
       (fun _ s' => slid self (dx, dy) T K N s') s.
Proof.
  intros Hv. induction fuel as [|fuel IH]; intros s i j T K N Hwf Hself Hfuel HT HK HN.
  { lia. }
  destruct (slide_loop_step self dx dy s i j Hv Hwf Hself)
    as [[Hrun Hb]|(s1 & i' & j' & Hrun & Hroom & Hwf1 & Hself1 & HT1 & HK1 & HN1)].
  - eapply wp_intro; [apply Hrun|]. split; try done; [lia | by eauto].
  - unfold wp. rewrite Hrun. apply IH; try done; lia.
Qed.

Lemma room_lt v i j :
  unit_vector v -> Z.of_nat i < GRID_SIZE -> Z.of_nat j < GRID_SIZE ->
  (room v i j < Z.to_nat GRID_SIZE)%nat.
Proof.
  unfold unit_vector, room, GRID_SIZE.
  intros [ -> | [ -> | [ -> | -> ]]] Hi Hj; simpl; lia.
Qed.

Lemma slide_spec self v fuel s i j T K N :
  unit_vector v ->
  WF s ->
  cell_at (tiles s) i j = Some (Some self) ->
  (room v i j < fuel)%nat ->
  grid_total s = T ->
  sum s - 2 * absorbed s = K ->
  (merges s + room v i j <= N)%nat ->
  wp (slide fuel self v) (fun _ s' => slid self v T K N s') s.
Proof.
  intros Hv Hwf Hself Hfuel HT HK HN. destruct v as [dx dy].
  destruct (wf_refs s Hwf i j self Hself) as (Hlt & Hr & Hc).
  unfold slide. apply wp_bind, wp_gets. rewrite Hr, Hc.
  by apply slide_loop_spec.
Qed.

(** ** A whole move *)

Lemma elem_of_indices {A} (l : list A) (x : Z) :
  x ∈ indices l -> exists i, x = Z.of_nat i /\ (i < length l)%nat.
Proof.
  unfold indices. intros Hx. apply list_elem_of_fmap in Hx as (i & -> & Hi).
  exists i. split; [done|]. apply elem_of_seq in Hi. lia.
Qed.

Lemma elem_of_indices_rev {A} (l : list A) (b : bool) (x : Z) :
  x ∈ (if b then rev (indices l) else indices l) ->
  exists i, x = Z.of_nat i /\ (i < length l)%nat.
Proof.
  destruct b; [|apply elem_of_indices].
  rewrite list_elem_of_In, <- in_rev, <- list_elem_of_In. apply elem_of_indices.
Qed.

Lemma visit_spec fuel v T K s i j :
  unit_vector v -> (Z.to_nat GRID_SIZE <= fuel)%nat ->
  kept T K s -> Z.of_nat i < GRID_SIZE -> Z.of_nat j < GRID_SIZE ->
  wp (visit fuel v (Z.of_nat i) (Z.of_nat j)) (fun _ s' => kept T K s') s.
Proof.
  intros Hv Hfuel (Hwf & HT & HK) Hi Hj.
  destruct (WF_cell s i j Hwf Hi Hj) as [x Hx].
  unfold visit. apply wp_bind. eapply wp_intro; [by apply tiles_getitem_nat|].
  destruct x as [t|]; [|by apply wp_ret].
  eapply wp_mono.
  - apply (slide_spec t v fuel s i j T K (merges s + room v i j)); try done.
    pose proof (room_lt v i j Hv Hi Hj). lia.
  - intros a s' H. split; [|split]; apply H.
Qed.

(** The inner loop of a move, on row [i]. *)
Lemma sweep_row_spec fuel v (rev_cols : bool) T K s i :
  unit_vector v -> (Z.to_nat GRID_SIZE <= fuel)%nat ->
  kept T K s -> Z.of_nat i < GRID_SIZE ->
  wp (rw <- row_at (Z.of_nat i) ;;
      for_each (if rev_cols then rev (indices rw) else indices rw)
        (fun c => visit fuel v (Z.of_nat i) c))
     (fun _ s' => kept T K s') s.
Proof.
  intros Hv Hfuel Hk Hi.
  destruct (lookup_lt_is_Some_2 (tiles s) i) as [rw Hrw].
  { pose proof (wf_height s (proj1 Hk)). lia. }
  apply wp_bind. eapply wp_intro.
  { unfold row_at. by rewrite getitem_nat, Hrw. }
  pose proof (wf_width s (proj1 Hk) i rw Hrw) as Hw.
  apply (wp_for_each (kept T K)); [|done].
  intros c s1 Hc Hk1.
  apply elem_of_indices_rev in Hc as (j & -> & Hj).
  apply visit_spec; try done; lia.
Qed.

Lemma sweep_spec fuel v rev_rows rev_cols T K s :
  unit_vector v -> (Z.to_nat GRID_SIZE <= fuel)%nat ->
  kept T K s ->
  wp (sweep fuel v rev_rows rev_cols) (fun _ s' => kept T K s') s.
Proof.
  intros Hv Hfuel Hk. unfold sweep. apply wp_bind, wp_gets.
  pose proof (wf_height s (proj1 Hk)) as Hlen.
  apply (wp_for_each (kept T K)); [|done].
  intros r s0 Hr Hk0.
  apply elem_of_indices_rev in Hr as (i & -> & Hi).
  apply sweep_row_spec; try done; lia.
Qed.

(** ** find_empty *)

Lemma range_span : range GRID_SIZE = map Z.of_nat span.
Proof. done. Qed.

Lemma elem_of_span i : i ∈ span <-> Z.of_nat i < GRID_SIZE.
Proof. unfold span. rewrite elem_of_seq. unfold GRID_SIZE. lia. Qed.

Lemma find_empty_row_loop s i js cand :
  WF s -> Z.of_nat i < GRID_SIZE ->
  (forall j, j ∈ js -> Z.of_nat j < GRID_SIZE) ->
  for_acc (map Z.of_nat js)
    (fun c cand =>
       x <- tiles_getitem (Z.of_nat i) c ;;
       match x with
       | None => ret (cand ++ [(Z.of_nat i, c)])
       | Some _ => ret cand
       end) cand s
  = Ok (cand ++ empties_row (tiles s) i js) s.
Proof.
  intros Hwf Hi. revert cand. unfold empties_row.
  induction js as [|j js IH]; intros cand Hjs; simpl.
  { by rewrite app_nil_r. }
  destruct (WF_cell s i j Hwf Hi) as [x Hx]; [apply Hjs; left|].
  unfold bind at 1. unfold bind at 1. rewrite (tiles_getitem_nat s i j x Hx).
  assert (forall j0, j0 ∈ js -> Z.of_nat j0 < GRID_SIZE) as Hjs'.
  { intros j0 Hj0. apply Hjs. by right. }
  destruct x as [t|]; unfold ret.
  - rewrite IH by done. rewrite filter_cons_False; [done|]. by rewrite Hx.
  - rewrite IH by done. rewrite filter_cons_True by done.
    by rewrite fmap_cons, <- app_assoc.
Qed.

Lemma find_empty_rows_loop s is_ cand :
  WF s ->
  (forall i, i ∈ is_ -> Z.of_nat i < GRID_SIZE) ->
  for_acc (map Z.of_nat is_) find_empty_row cand s
  = Ok (cand ++ (is_ ≫= fun i => empties_row (tiles s) i span)) s.
Proof.
  intros Hwf. revert cand.
  induction is_ as [|i is_ IH]; intros cand His; simpl.
  { by rewrite app_nil_r. }
  unfold bind at 1. unfold find_empty_row at 1. unfold bind at 1, gets.
  rewrite (wf_cols s Hwf), range_span.
  rewrite find_empty_row_loop; [|done|apply His; left|intros j; apply elem_of_span].
  rewrite IH; [by rewrite <- app_assoc|].
  intros i0 Hi0. apply His. by right.
Qed.

Lemma find_empty_candidates pick s :
  WF s ->
  find_empty pick s
  = match empty_cells s with
    | [] => Ok None s
    | _ => (p <- random_choice pick (empty_cells s) ;; ret (Some p)) s
    end.
Proof.
  intros Hwf. unfold find_empty. unfold bind at 1, gets.
  rewrite (wf_rows s Hwf), range_span. unfold bind at 1.
  rewrite find_empty_rows_loop; [|done|intros i; apply elem_of_span].
  rewrite app_nil_l. fold (empty_cells s). by destruct (empty_cells s).
Qed.

Lemma elem_of_empties_row ts i js p :
  p ∈ empties_row ts i js <->
  exists j, p = (Z.of_nat i, Z.of_nat j) /\ j ∈ js /\ cell_at ts i j = Some None.
Proof.
  unfold empties_row. rewrite list_elem_of_fmap.
  split.
  - intros (j & -> & Hj). apply list_elem_of_filter in Hj as [Hc Hj]. eauto.
  - intros (j & -> & Hj & Hc). exists j. split; [done|].
    by apply list_elem_of_filter.
Qed.

Lemma elem_of_empty_cells s p :
  p ∈ empty_cells s <->
  exists i j, p = (Z.of_nat i, Z.of_nat j) /\
              Z.of_nat i < GRID_SIZE /\ Z.of_nat j < GRID_SIZE /\
              cell_at (tiles s) i j = Some None.
Proof.
  unfold empty_cells. rewrite list_elem_of_bind. split.
  - intros (i & Hp & Hi). apply elem_of_empties_row in Hp as (j & -> & Hj & Hc).
    exists i, j. by rewrite <- !elem_of_span.
  - intros (i & j & -> & Hi & Hj & Hc). exists i.
    rewrite elem_of_span, elem_of_empties_row. split; [|done].
    exists j. by rewrite elem_of_span.
Qed.

Lemma NoDup_empty_cells s : NoDup (empty_cells s).
Proof.
  unfold empty_cells. apply NoDup_bind.
  - intros i1 i2 p _ _ H1 H2.
    apply elem_of_empties_row in H1 as (j1 & -> & _).
    apply elem_of_empties_row in H2 as (j2 & [= E _] & _). lia.
  - intros i _. unfold empties_row. apply NoDup_fmap_2.
    + intros j1 j2 [= E]. lia.
    + apply NoDup_filter, NoDup_seq.
  - apply NoDup_seq.
Qed.

Lemma find_empty_result pick s :
  WF s ->
  find_empty pick s
  = Ok (empty_cells s !! (pick mod length (empty_cells s))%nat) s.
Proof.
  intros Hwf. rewrite find_empty_candidates by done.
  destruct (empty_cells s) as [|p l] eqn:El; [done|].
  unfold bind, random_choice.
  destruct (lookup_lt_is_Some_2 (p :: l) (pick mod length (p :: l))%nat) as [q Hq].
  { apply Nat.mod_upper_bound. done. }
  by rewrite Hq.
Qed.

Lemma empty_cells_nil s :
  WF s -> empty_cells s = [] <-> forall i j, cell_at (tiles s) i j <> Some None.
Proof.
  intros Hwf. split.
  - intros El i j Hc.
    destruct (cell_at_lt s i j _ Hwf Hc) as (Hi & Hj).
    assert ((Z.of_nat i, Z.of_nat j) ∈ empty_cells s) as Hin.
    { apply elem_of_empty_cells. by exists i, j. }
    rewrite El in Hin. by apply elem_of_nil in Hin.
  - intros Hno. destruct (empty_cells s) as [|p l] eqn:El; [done|].
    assert (p ∈ empty_cells s) as Hin by (rewrite El; left).
    apply elem_of_empty_cells in Hin as (i & j & _ & _ & _ & Hc).
    by destruct (Hno i j).
Qed.

(** ** Checking that a state is well formed *)

Lemma wf_check_sound s : wf_check s = true -> WF s.
Proof.
  unfold wf_check. rewrite !andb_true_iff, !Z.eqb_eq, !forallb_forall.
  intros ((((Hr & Hc) & Hh) & Hw) & Hcells).
  assert (forall i rw, tiles s !! i = Some rw -> Z.of_nat (length rw) = GRID_SIZE) as Hw'.
  { intros i rw Hrw. apply Z.eqb_eq, Hw, list_elem_of_In, list_elem_of_lookup. eauto. }
  split; try done.
  intros i j t Hc'.
  assert (Z.of_nat i < GRID_SIZE /\ Z.of_nat j < GRID_SIZE) as (Hi & Hj).
  { unfold cell_at in Hc'. destruct (tiles s !! i) as [rw|] eqn:Hrw; [|done].
    pose proof (Hw' i rw Hrw). apply lookup_lt_Some in Hrw, Hc'. lia. }
  assert (wf_cell_check s i j = true) as Hck.
  { pose proof (Hcells i) as H1. rewrite forallb_forall in H1.
    apply H1; apply list_elem_of_In, elem_of_span; done. }
  unfold wf_cell_check in Hck. rewrite Hc' in Hck.
  rewrite !andb_true_iff, !Z.eqb_eq, Nat.ltb_lt in Hck. tauto.
Qed.

Lemma WF_Grid_init : WF Grid_init.
Proof. by apply wf_check_sound. Qed.

(** ** place_tile *)

Lemma placed_WF i j v s :
  WF s -> is_Some (cell_at (tiles s) i j) -> WF (placed i j v s).
Proof.
  intros Hwf Hc. split; simpl; try apply Hwf.
  - rewrite put_length. apply Hwf.
  - intros a rw Ha. apply put_row_length in Ha as (rw0 & Ha & ->).
    by apply (wf_width s Hwf a).
  - intros a b t Hab. rewrite length_app. simpl.
    destruct (decide ((a, b) = (i, j))) as [[= -> ->]|Hne].
    + rewrite cell_at_put_eq in Hab by done. injection Hab as <-.
      rewrite list_lookup_total_middle by done. simpl. split; [lia|done].
    + rewrite cell_at_put_ne in Hab by done.
      destruct (wf_refs s Hwf a b t Hab) as (Hlt & Hrow & Hcol).
      rewrite lookup_total_app_l by done. split; [lia|done].
Qed.

Lemma place_tile_empty pick draw s r c :
  WF s ->
  empty_cells s !! (pick mod length (empty_cells s))%nat = Some (r, c) ->
  exists i j v,
    r = Z.of_nat i /\ c = Z.of_nat j /\
    cell_at (tiles s) i j = Some None /\
    (v = 2 \/ v = 4) /\
    place_tile pick draw s = Ok tt (placed i j v s).
Proof.
  intros Hwf Hpick.
  assert ((r, c) ∈ empty_cells s) as Hin by (apply list_elem_of_lookup; eauto).
  apply elem_of_empty_cells in Hin as (i & j & [= -> ->] & Hi & Hj & Hc).
  assert (is_Some (cell_at (tiles s) i j)) as Hsome by (by rewrite Hc).
  assert (forall v, (t <- Tile_new (Z.of_nat i) (Z.of_nat j) v ;;
                     tiles_setitem (Z.of_nat i) (Z.of_nat j) (Some t) ;;;
                     notify_all tile_created t) s
                    = Ok tt (placed i j v s)) as Hnew.
  { intros v. unfold bind at 1, Tile_new. unfold bind at 1.
    rewrite tiles_setitem_nat by done. unfold notify_all, modify, placed. simpl.
    by rewrite list_lookup_total_middle. }
  unfold place_tile. unfold bind at 1. rewrite find_empty_result, Hpick by done.
  destruct (random_randint 1 10 draw =? 4).
  - exists i, j, 4. rewrite <- Hnew. auto 10.
  - exists i, j, 2. rewrite <- Hnew. auto 10.
Qed.

Lemma place_tile_full pick draw s :
  WF s -> empty_cells s = [] ->
  place_tile pick draw s = Raise AssertionError s.
Proof.
  intros Hwf El. unfold place_tile. unfold bind at 1.
  rewrite find_empty_result by done. by rewrite El.
Qed.

(** ** set_tiles *)

Lemma grows_refl s : grows s s.
Proof. repeat split. exists []. by rewrite app_nil_r. Qed.

Lemma grows_trans s1 s2 s3 : grows s1 s2 -> grows s2 s3 -> grows s1 s3.
Proof.
  intros (Hr & Hc & Hs & Hp & n1 & Hh) (Hr' & Hc' & Hs' & Hp' & n2 & Hh').
  repeat split; try congruence. exists (n1 ++ n2). by rewrite Hh', Hh, app_assoc.
Qed.

Lemma loaded_grows h new i j x c : loaded h i j x c -> loaded (h ++ new) i j x c.
Proof.
  destruct c as [t|]; [|done]. intros [Hx Ht]. split; [done|].
  by apply lookup_app_l_Some.
Qed.

Lemma row_loaded_grows rep h new i js cells :
  row_loaded rep h i js cells -> row_loaded rep (h ++ new) i js cells.
Proof.
  intros H. eapply Forall2_impl; [exact H|].
  intros j c (x & Hx & Hl). exists x. eauto using loaded_grows.
Qed.

Lemma rep_getitem_nat rep i j x s :
  entry rep i j = Some x -> rep_getitem rep (Z.of_nat i) (Z.of_nat j) s = Ok x s.
Proof.
  unfold entry, rep_getitem. rewrite getitem_nat.
  destruct (rep !! i) as [rw|]; [|done]. rewrite getitem_nat. by intros ->.
Qed.

Lemma rep_getitem_none rep i j s :
  entry rep i j = None ->
  rep_getitem rep (Z.of_nat i) (Z.of_nat j) s = Raise IndexError s.
Proof.
  unfold entry, rep_getitem. rewrite getitem_nat.
  destruct (rep !! i) as [rw|]; [|done]. rewrite getitem_nat. by intros ->.
Qed.

(** One cell of [set_tiles]. *)
Lemma set_tiles_cell_spec rep i j x acc s :
  entry rep i j = Some x ->
  wp (set_tiles_cell rep (Z.of_nat i) (Z.of_nat j) acc)
     (fun res s' => exists c, res = acc ++ [c] /\ loaded (heap s') i j x c /\
                              grows s s' /\ tiles s' = tiles s) s.
Proof.
  intros Hx. unfold set_tiles_cell.
  apply wp_bind. eapply wp_intro; [by apply rep_getitem_nat|].
  destruct (Z.eqb_spec x 0) as [->|Hne].
  - apply wp_ret. exists None. repeat split; apply grows_refl.
  - apply wp_bind. eapply wp_intro; [by apply rep_getitem_nat|].
    apply wp_bind. unfold wp at 1, Tile_new.
    apply wp_bind, wp_modify, wp_ret. simpl.
    exists (Some (length (heap s))). split; [done|]. split; [|split; [|done]].
    + split; [done|]. by apply list_lookup_middle.
    + repeat split; simpl. by eexists.
Qed.

Lemma set_tiles_row_loop rep i js :
  (forall j, j ∈ js -> is_Some (entry rep i j)) ->
  forall acc s,
    wp (for_acc (map Z.of_nat js) (set_tiles_cell rep (Z.of_nat i)) acc)
       (fun res s' => exists cells, res = acc ++ cells /\
                                    row_loaded rep (heap s') i js cells /\
                                    grows s s' /\ tiles s' = tiles s) s.
Proof.
  induction js as [|j js IH]; intros Hjs acc s; simpl.
  { apply wp_ret. exists []. rewrite app_nil_r.
    split; [done|]. split; [constructor|]. auto using grows_refl. }
  destruct (Hjs j) as [x Hx]; [left|].
  apply wp_bind. eapply wp_mono; [by apply (set_tiles_cell_spec rep i j x)|].
  intros res s1 (c & -> & Hl & Hg & Ht).
  eapply wp_mono.
  { apply IH. intros j0 Hj0. apply Hjs. by right. }
  intros res s2 (cells & -> & Hrow & Hg2 & Ht2). exists (c :: cells).
  split; [by rewrite <- app_assoc|]. split; [|split].
  - destruct Hg2 as (_ & _ & _ & _ & new & Hh2). apply Forall2_cons. split; [|done].
    exists x. rewrite Hh2. eauto using loaded_grows.
  - by eapply grows_trans.
  - congruence.
Qed.

Lemma set_tiles_row_spec rep i s :
  cols s = GRID_SIZE -> row_fits rep i ->
  wp (set_tiles_row rep (Z.of_nat i))
     (fun cells s' => row_loaded rep (heap s') i span cells /\
                      grows s s' /\ tiles s' = tiles s) s.
Proof.
  intros Hc Hfit. unfold set_tiles_row. apply wp_bind, wp_gets.
  rewrite Hc, range_span. eapply wp_mono.
  - apply set_tiles_row_loop. intros j Hj.
    unfold row_fits in Hfit. rewrite Forall_forall in Hfit. by apply Hfit.
  - intros res s' (cells & -> & H). exact H.
Qed.

Lemma set_tiles_rows_loop rep is_ :
  Forall (row_fits rep) is_ ->
  forall s, cols s = GRID_SIZE ->
    wp (for_each (map Z.of_nat is_) (set_tiles_append rep))
       (fun _ s' => exists rws, tiles s' = tiles s ++ rws /\
          Forall2 (fun i cells => row_loaded rep (heap s') i span cells) is_ rws /\
          grows s s') s.
Proof.
  induction is_ as [|i is_ IH]; intros Hfit s Hc; simpl.
  { apply wp_ret. exists []. rewrite app_nil_r.
    split; [done|]. split; [constructor | apply grows_refl]. }
  apply Forall_cons in Hfit as [Hi Hfit].
  apply wp_bind. unfold set_tiles_append at 1. apply wp_bind.
  eapply wp_mono; [by apply set_tiles_row_spec|].
  intros cells s1 (Hrow & Hg1 & Ht1). apply wp_modify, wp_ret.
  eapply wp_mono.
  { apply (IH Hfit). simpl. destruct Hg1 as (_ & -> & _). done. }
  intros a s2 (rws & Ht2 & Hrws & Hg2). simpl in *.
  exists (cells :: rws). split; [|split].
  - by rewrite Ht2, Ht1, <- app_assoc.
  - apply Forall2_cons. split; [|done].
    destruct Hg2 as (_ & _ & _ & _ & new & Hh2). simpl in Hh2. rewrite Hh2.
    by apply row_loaded_grows.
  - eapply grows_trans; [exact Hg1|]. exact Hg2.
Qed.

(** What the loaded cells look like. *)
Lemma loaded_grid rep h rws :
  Forall2 (fun i cells => row_loaded rep h i span cells) span rws ->
  length rws = Z.to_nat GRID_SIZE /\
  (forall i rw, rws !! i = Some rw -> length rw = Z.to_nat GRID_SIZE) /\
  (forall i j c, cell_at rws i j = Some c ->
                 exists x, entry rep i j = Some x /\ loaded h i j x c).
Proof.
  intros H. assert (length span = Z.to_nat GRID_SIZE) as Hspan by done.
  split; [|split].
  - apply Forall2_length in H. congruence.
  - intros i rw Hrw.
    destruct (lookup_lt_is_Some_2 span i) as [i' Hi'].
    { apply Forall2_length in H. apply lookup_lt_Some in Hrw. lia. }
    pose proof (Forall2_lookup_lr _ _ _ _ _ _ H Hi' Hrw) as Hrow.
    apply Forall2_length in Hrow. congruence.
  - intros i j c. unfold cell_at. destruct (rws !! i) as [rw|] eqn:Hrw; [|done].
    intros Hc.
    assert (span !! i = Some i) as Hi.
    { apply lookup_seq. split; [done|].
      apply Forall2_length in H. apply lookup_lt_Some in Hrw. rewrite Hspan in H. lia. }
    pose proof (Forall2_lookup_lr _ _ _ _ _ _ H Hi Hrw) as Hrow.
    assert (span !! j = Some j) as Hj.
    { apply lookup_seq. split; [done|].
      apply Forall2_length in Hrow. apply lookup_lt_Some in Hc. rewrite Hspan in Hrow. lia. }
    exact (Forall2_lookup_lr _ _ _ _ _ _ Hrow Hj Hc).
Qed.

Lemma loaded_value h i j x c : loaded h i j x c -> cell_value h c = x.
Proof.
  destruct c as [t|]; simpl; [|done]. intros [_ Ht].
  by rewrite (list_lookup_total_correct _ _ _ Ht).
Qed.

Lemma entry_block rep i j :
  (i < Z.to_nat GRID_SIZE)%nat -> (j < Z.to_nat GRID_SIZE)%nat ->
  entry (block rep) i j = entry rep i j.
Proof.
  intros Hi Hj. unfold entry, block.
  rewrite list_lookup_fmap, lookup_take_lt by done.
  destruct (rep !! i) as [rw|]; [simpl|done]. by apply lookup_take_lt.
Qed.

(** Two matrices of the same shape with the same entries are equal. *)
Lemma matrix_eq (a b : list (list Z)) (n m : nat) :
  length a = n -> length b = n ->
  (forall i rw, a !! i = Some rw -> length rw = m) ->
  (forall i rw, b !! i = Some rw -> length rw = m) ->
  (forall i j, (i < n)%nat -> (j < m)%nat -> entry a i j = entry b i j) ->
  a = b.
Proof.
  intros Ha Hb Hra Hrb Hent. apply list_eq. intros i.
  destruct (decide (i < n)%nat) as [Hi|Hi]; cycle 1.
  { rewrite !(proj2 (lookup_ge_None _ _)); [done|lia|lia]. }
  destruct (lookup_lt_is_Some_2 a i) as [ra Hia]; [lia|].
  destruct (lookup_lt_is_Some_2 b i) as [rb Hib]; [lia|].
  rewrite Hia, Hib. f_equal. apply list_eq. intros j.
  destruct (decide (j < m)%nat) as [Hj|Hj].
  - specialize (Hent i j Hi Hj). unfold entry in Hent. by rewrite Hia, Hib in Hent.
  - pose proof (Hra i ra Hia). pose proof (Hrb i rb Hib).
    rewrite !(proj2 (lookup_ge_None _ _)); [done|lia|lia].
Qed.

Lemma entry_as_list s i j :
  entry (as_list s) i j = cell_value (heap s) <$> cell_at (tiles s) i j.
Proof.
  unfold entry, as_list, cell_at. rewrite list_lookup_fmap.
  destruct (tiles s !! i) as [rw|]; [simpl|done]. apply list_lookup_fmap.
Qed.

Lemma fits_true rep i j :
  fits rep = true -> i ∈ span -> j ∈ span -> is_Some (entry rep i j).
Proof.
  unfold fits. rewrite bool_decide_eq_true, Forall_forall. intros H Hi Hj.
  specialize (H i Hi). unfold row_fits in H. rewrite Forall_forall in H. auto.
Qed.

Lemma set_tiles_ok rep s :
  rows s = GRID_SIZE -> cols s = GRID_SIZE -> fits rep = true ->
  wp (set_tiles rep)
     (fun _ s' => WF s' /\ as_list s' = block rep /\ grows s s' /\
                  forall i j c, cell_at (tiles s') i j = Some c ->
                    exists x, entry rep i j = Some x /\ loaded (heap s') i j x c) s.
Proof.
  intros Hr Hc Hfit. unfold set_tiles.
  apply wp_bind, wp_modify. apply wp_bind, wp_gets. simpl.
  rewrite Hr, range_span. eapply wp_mono.
  { apply set_tiles_rows_loop; [|done].
    unfold fits in Hfit. by apply bool_decide_eq_true in Hfit. }
  intros a s' (rws & Ht & Hrws & Hg). simpl in Ht.
  destruct (loaded_grid rep (heap s') rws Hrws) as (Hlen & Hwid & Hcells).
  destruct Hg as (Hr' & Hc' & Hs' & Hp' & new & Hh'). simpl in *.
  assert (WF s') as Hwf.
  { split.
    - congruence.
    - congruence.
    - rewrite Ht, Hlen. done.
    - intros i rw. rewrite Ht. intros Hrw. by rewrite (Hwid i rw Hrw).
    - intros i j t. rewrite Ht. intros Hcell.
      destruct (Hcells i j _ Hcell) as (x & _ & _ & Hx).
      rewrite (list_lookup_total_correct _ _ _ Hx). simpl.
      split; [by eapply lookup_lt_Some | done]. }
  split; [done|]. split; [|split].
  - apply (matrix_eq _ _ (Z.to_nat GRID_SIZE) (Z.to_nat GRID_SIZE)).
    + unfold as_list. by rewrite length_map, Ht.
    + unfold block. rewrite length_map, length_take_le; [done|].
      destruct (fits_true rep 3 0 Hfit) as [x Hx]; [by apply elem_of_span..|].
      unfold entry in Hx. destruct (rep !! 3%nat) as [rw|] eqn:Hrw; [|done].
      apply lookup_lt_Some in Hrw. unfold GRID_SIZE. lia.
    + intros i rw. unfold as_list. rewrite list_lookup_fmap, Ht.
      destruct (rws !! i) as [rw0|] eqn:Hrw0; [|done]. intros [= <-].
      rewrite length_map. by apply (Hwid i).
    + intros i rw. unfold block. rewrite list_lookup_fmap.
      destruct (take (Z.to_nat GRID_SIZE) rep !! i) as [rw0|] eqn:Hrw0; [|done].
      intros [= <-]. apply lookup_take_Some in Hrw0 as [Hrw0 Hi].
      apply length_take_le.
      destruct (fits_true rep i 3 Hfit) as [x Hx];
        [apply elem_of_span; unfold GRID_SIZE in *; lia..|].
      unfold entry in Hx. rewrite Hrw0 in Hx.
      apply lookup_lt_Some in Hx. unfold GRID_SIZE. lia.
    + intros i j Hi Hj. rewrite entry_as_list, entry_block, Ht by done.
      destruct (lookup_lt_is_Some_2 rws i) as [rw Hrw]; [lia|].
      destruct (lookup_lt_is_Some_2 rw j) as [c Hcj]; [rewrite (Hwid i rw Hrw); lia|].
      assert (cell_at rws i j = Some c) as Hcell.
      { unfold cell_at. by rewrite Hrw. }
      rewrite Hcell. simpl.
      destruct (Hcells i j c Hcell) as (x & -> & Hl).
      by rewrite (loaded_value _ _ _ _ _ Hl).
  - unfold grows. rewrite Hr. eauto 10.
  - by rewrite Ht.
Qed.

(** A missing entry stops the loading with an [IndexError]. *)
Lemma set_tiles_row_fail rep i js :
  Exists (fun j => entry rep i j = None) js ->
  forall acc s,
    exists s',
      for_acc (map Z.of_nat js) (set_tiles_cell rep (Z.of_nat i)) acc s
      = Raise IndexError s' /\ grows s s' /\ tiles s' = tiles s.
Proof.
  induction js as [|j js IH]; intros Hex acc s.
  { by apply Exists_nil in Hex. }
  simpl. unfold bind at 1.
  destruct (entry rep i j) as [x|] eqn:Hx.
  - destruct (wp_elim _ _ _ (set_tiles_cell_spec rep i j x acc s Hx))
      as (res & s1 & -> & c & -> & _ & Hg1 & Ht1).
    apply Exists_cons in Hex as [Hex|Hex]; [congruence|].
    destruct (IH Hex (acc ++ [c]) s1) as (s' & -> & Hg & Ht).
    exists s'. split; [done|]. split; [by eapply grows_trans | congruence].
  - exists s. unfold set_tiles_cell, bind. rewrite rep_getitem_none by done.
    split; [done|]. split; [apply grows_refl | done].
Qed.

Lemma set_tiles_rows_fail rep is_ :
  Exists (fun i => ~ row_fits rep i) is_ ->
  forall s, cols s = GRID_SIZE ->
    exists s',
      for_each (map Z.of_nat is_) (set_tiles_append rep) s = Raise IndexError s' /\
      grows s s'.
Proof.
  induction is_ as [|i is_ IH]; intros Hex s Hc.
  { by apply Exists_nil in Hex. }
  simpl. unfold bind at 1. unfold set_tiles_append at 1. unfold bind at 1.
  destruct (decide (row_fits rep i)) as [Hfit|Hfit].
  - destruct (wp_elim _ _ _ (set_tiles_row_spec rep i s Hc Hfit))
      as (cells & s1 & -> & _ & Hg1 & Ht1).
    apply Exists_cons in Hex as [Hex|Hex]; [done|]. unfold modify.
    destruct (IH Hex (with_tiles (tiles s1 ++ [cells]) s1)) as (s' & -> & Hg).
    { simpl. destruct Hg1 as (_ & -> & _). done. }
    exists s'. split; [done|]. eapply grows_trans; [exact Hg1|]. exact Hg.
  - unfold row_fits in Hfit. apply not_Forall_Exists in Hfit; [|apply _].
    unfold set_tiles_row. unfold bind at 1, gets. rewrite Hc, range_span.
    destruct (set_tiles_row_fail rep i span) with (acc := @nil (option ref)) (s := s)
      as (s' & -> & Hg & _).
    { eapply Exists_impl; [exact Hfit|]. intros j Hj. simpl in Hj.
      destruct (entry rep i j); [|done]. by destruct Hj. }
    by exists s'.
Qed.

Lemma set_tiles_fail rep s :
  rows s = GRID_SIZE -> cols s = GRID_SIZE -> fits rep = false ->
  exists s', set_tiles rep s = Raise IndexError s' /\ sum s' = sum s.
Proof.
  intros Hr Hc Hfit. unfold set_tiles. unfold bind at 1, modify.
  unfold bind at 1, gets. change (rows (with_tiles [] s)) with (rows s).
  rewrite Hr, range_span.
  unfold fits in Hfit. apply bool_decide_eq_false in Hfit.
  apply not_Forall_Exists in Hfit; [|apply _].
  destruct (set_tiles_rows_fail rep span Hfit (with_tiles [] s) Hc)
    as (s' & Hrun & (_ & _ & Hs & _)).
  exists s'. split; [exact Hrun | exact Hs].
Qed.

(** ** A tile that has left the grid stays off it *)

Lemma wlp_for_acc_inv {A S} (I : State -> Prop) (J : S -> Prop) (l : list A)
    (body : A -> S -> M S) :
  (forall x acc s, I s -> J acc ->
     wlp (body x acc) (fun acc' s' => I s' /\ J acc') I s) ->
  forall acc s, I s -> J acc ->
    wlp (for_acc l body acc) (fun acc' s' => I s' /\ J acc') I s.
Proof.
  intros Hb. induction l as [|x l IH]; intros acc s Hs Hacc; simpl.
  - by apply wlp_ret.
  - apply wlp_bind. eapply wlp_mono; [by apply Hb | | done].
    intros acc' s' [Hs' Hacc']. by apply IH.
Qed.

Lemma getitem_lookup {A} (l : list A) i x :
  getitem l i = Some x -> exists n, l !! n = Some x.
Proof. unfold getitem. destruct (norm_index (length l) i); [eauto | done]. Qed.

Lemma setitem_insert {A} (l : list A) i x l' :
  setitem l i x = Some l' -> exists n, (n < length l)%nat /\ l' = <[n := x]> l.
Proof.
  unfold setitem. destruct (norm_index (length l) i) as [n|] eqn:Hn; [|done].
  intros [= <-]. exists n. split; [by eapply norm_index_lt | done].
Qed.

Lemma cell_at_put_inv ts n m x a b y :
  cell_at (put n m x ts) a b = Some y -> y = x \/ cell_at ts a b = Some y.
Proof.
  destruct (decide ((a, b) = (n, m))) as [[= -> ->]|Hne].
  - intros Hy. left.
    assert (is_Some (cell_at ts n m)) as Hsome.
    { unfold cell_at in *. destruct (put n m x ts !! n) as [rw'|] eqn:Hrw'; [|done].
      apply put_row_length in Hrw' as (rw & -> & Hlen).
      apply lookup_lt_is_Some. apply lookup_lt_Some in Hy. lia. }
    rewrite cell_at_put_eq in Hy by done. congruence.
  - rewrite cell_at_put_ne by done. auto.
Qed.

Lemma tiles_setitem_put r c x s :
  match tiles_setitem r c x s with
  | Ok _ s' => exists n m, s' = with_tiles (put n m x (tiles s)) s
  | Raise _ s' => s' = s
  | OutOfFuel => False
  end.
Proof.
  unfold tiles_setitem, getitem, setitem.
  destruct (norm_index (length (tiles s)) r) as [n|] eqn:Hn; [|done].
  destruct (tiles s !! n) as [rw|] eqn:Hrw; [|done].
  destruct (norm_index (length rw) c) as [m|]; [|done].
  exists n, m. unfold put. by rewrite Hrw.
Qed.

Section Retired.
Context (t : ref).

Lemma retired_tiles_getitem r c s :
  wlp (tiles_getitem r c)
      (fun x s' => s' = s /\ forall u, x = Some u -> on_grid s u)
      (fun s' => s' = s) s.
Proof.
  unfold wlp, tiles_getitem.
  destruct (getitem (tiles s) r) as [rw|] eqn:Hr; [|done].
  destruct (getitem rw c) as [x|] eqn:Hc; [|done].
  split; [done|]. intros u ->.
  apply getitem_lookup in Hr as [i Hi]. apply getitem_lookup in Hc as [j Hj].
  exists i, j. unfold cell_at. by rewrite Hi.
Qed.

Lemma retired_tiles_setitem r c x s :
  x <> Some t -> retired t s ->
  wlp (tiles_setitem r c x) (fun _ s' => retired t s') (retired t) s.
Proof.
  intros Hx [Hlt Hoff]. unfold wlp.
  pose proof (tiles_setitem_put r c x s) as H.
  destruct (tiles_setitem r c x s) as [a s'|e s'|]; [|by subst|done].
  destruct H as (n & m & ->). split; [done|].
  intros (i & j & Hij). simpl in Hij.
  apply cell_at_put_inv in Hij as [Hij|Hij]; [congruence|].
  apply Hoff. by exists i, j.
Qed.

Lemma retired_Tile_set u f s :
  retired t s -> wlp (Tile_set u f) (fun _ s' => retired t s') (retired t) s.
Proof.
  intros [Hlt Hoff]. apply wlp_modify. split; simpl; [by rewrite length_insert|done].
Qed.

Lemma retired_notify_all k u s :
  retired t s -> wlp (notify_all k u) (fun _ s' => retired t s') (retired t) s.
Proof. intros H. by apply wlp_modify. Qed.

Lemma retired_Tile_new r c v s :
  retired t s ->
  wlp (Tile_new r c v) (fun u s' => retired t s' /\ u <> t) (retired t) s.
Proof.
  intros [Hlt Hoff]. unfold wlp, Tile_new. split; [split|]; simpl.
  - rewrite length_app. lia.
  - done.
  - lia.
Qed.

Lemma retired_Tile_move self r c s :
  self <> t -> retired t s ->
  wlp (Tile_move self r c) (fun _ s' => retired t s') (retired t) s.
Proof.
  intros Hne Hs. unfold Tile_move. apply wlp_bind, wlp_gets.
  apply wlp_bind. eapply wlp_mono; [by apply retired_tiles_setitem| |done].
  intros ? s1 Hs1.
  apply wlp_bind. eapply wlp_mono; [by apply retired_Tile_set| |done].
  intros ? s2 Hs2.
  apply wlp_bind. eapply wlp_mono; [by apply retired_Tile_set| |done].
  intros ? s3 Hs3.
  apply wlp_bind. eapply wlp_mono; [apply retired_tiles_setitem; [congruence|done]| |done].
  intros ? s4 Hs4. by apply retired_notify_all.
Qed.

Lemma retired_Tile_merge self other s :
  retired t s ->
  wlp (Tile_merge self other) (fun _ s' => retired t s') (retired t) s.
Proof.
  intros Hs. unfold Tile_merge, Tile_remove. do 2 apply wlp_bind, wlp_gets.
  apply wlp_bind. eapply wlp_mono; [by apply retired_Tile_set| |done].
  intros ? s1 Hs1.
  apply wlp_bind. eapply wlp_mono; [by apply retired_notify_all| |done].
  intros ? s2 Hs2. by apply retired_notify_all.
Qed.

Lemma retired_slide_merge self other r c s :
  self <> t -> retired t s ->
  wlp (slide_merge self other r c) (fun _ s' => retired t s') (retired t) s.
Proof.
  intros Hne Hs. unfold slide_merge.
  apply wlp_bind. eapply wlp_mono; [by apply retired_Tile_merge| |done].
  intros ? s1 Hs1.
  apply wlp_bind. eapply wlp_mono; [by apply retired_Tile_move| |done].
  intros ? s2 Hs2.
  apply wlp_bind, wlp_gets. apply wlp_bind, wlp_modify. by apply wlp_modify.
Qed.

Lemma retired_slide_loop self dx dy fuel :
  self <> t ->
  forall r c s, retired t s ->
    wlp (slide_loop fuel self dx dy r c) (fun _ s' => retired t s') (retired t) s.
Proof.
  intros Hne. induction fuel as [|fuel IH]; intros r c s Hs; [done|].
  cbn [slide_loop]. apply wlp_bind, wlp_gets.
  destruct (within s (r + dy) (c + dx)); cbn [negb]; [|by apply wlp_ret].
  apply wlp_bind. eapply wlp_mono; [apply retired_tiles_getitem| |by intros s' ->].
  intros x s' [-> _]. destruct x as [other|].
  - do 2 apply wlp_bind, wlp_gets.
    destruct (_ =? _); [|by apply wlp_ret].
    apply wlp_bind. eapply wlp_mono; [by apply retired_slide_merge| |done].
    intros ? s1 Hs1. by apply IH.
  - apply wlp_bind. eapply wlp_mono; [by apply retired_Tile_move| |done].
    intros ? s1 Hs1. by apply IH.
Qed.

Lemma retired_sweep fuel v rev_rows rev_cols s :
  retired t s ->
  wlp (sweep fuel v rev_rows rev_cols) (fun _ s' => retired t s') (retired t) s.
Proof.
  intros Hs. unfold sweep. apply wlp_bind, wlp_gets.
  apply wlp_for_each; [|done]. intros r s0 Hs0.
  apply wlp_bind. unfold wlp at 1, row_at.
  destruct (getitem (tiles s0) r) as [rw|]; [|done].
  apply wlp_for_each; [|done]. intros c s1 Hs1.
  unfold visit. apply wlp_bind.
  eapply wlp_mono; [apply retired_tiles_getitem| |by intros s' ->].
  intros x s' [-> Hx]. destruct x as [u|]; [|by apply wlp_ret].
  destruct v as [dx dy]. unfold slide. apply wlp_bind, wlp_gets.
  apply retired_slide_loop; [|done].
  intros ->. destruct Hs1 as [_ Hoff]. apply Hoff. by apply Hx.
Qed.
End Retired.

Lemma find_empty_unchanged pick s :
  wlp (find_empty pick) (fun _ s' => s' = s) (fun s' => s' = s) s.
Proof.
  unfold find_empty. apply wlp_bind, wlp_gets. apply wlp_bind.
  eapply wlp_mono; [apply (wlp_for_acc (fun s' => s' = s)); [|done]| |done].
  - intros r cand s0 ->. unfold find_empty_row. apply wlp_bind, wlp_gets.
    apply (wlp_for_acc (fun s' => s' = s)); [|done].
    intros c cand' s0 ->. apply wlp_bind.
    eapply wlp_mono; [apply retired_tiles_getitem| |done].
    intros x s' [-> _]. by destruct x.
  - intros cand s' ->. destruct cand as [|p l]; [done|].
    unfold random_choice. apply wlp_bind.
    by destruct ((p :: l) !! _).
Qed.

Section RetiredCalls.
Context (t : ref).

Lemma retired_place_tile pick draw s :
  retired t s ->
  wlp (place_tile pick draw) (fun _ s' => retired t s') (retired t) s.
Proof.
  intros Hs. unfold place_tile. apply wlp_bind.
  eapply wlp_mono; [apply find_empty_unchanged| |by intros s' ->].
  intros spot s' ->. destruct spot as [[r c]|]; [|done].
  apply wlp_bind.
  eapply wlp_mono with (Q := fun u s' => retired t s' /\ u <> t); [| |done].
  { destruct (_ =? _); by apply retired_Tile_new. }
  intros u s1 [Hs1 Hu].
  apply wlp_bind.
  eapply wlp_mono; [apply (retired_tiles_setitem t); [congruence|done]| |done].
  intros ? s2 Hs2. by apply retired_notify_all.
Qed.

Lemma retired_set_tiles_cell rep r c acc s :
  retired t s -> Forall (fun x => x <> Some t) acc ->
  wlp (set_tiles_cell rep r c acc)
      (fun acc' s' => retired t s' /\ Forall (fun x => x <> Some t) acc')
      (retired t) s.
Proof.
  intros Hs Hacc. unfold set_tiles_cell.
  assert (forall Q : Z -> State -> Prop,
            (forall x, Q x s) -> wlp (rep_getitem rep r c) Q (retired t) s) as Hget.
  { intros Q HQ. unfold wlp, rep_getitem.
    destruct (getitem rep r) as [rw|]; [|done]. by destruct (getitem rw c). }
  apply wlp_bind, Hget. intros x.
  destruct (x =? 0).
  { apply wlp_ret. split; [done|]. apply Forall_app. split; [done|].
    by apply Forall_singleton. }
  apply wlp_bind, Hget. intros val.
  apply wlp_bind. eapply wlp_mono; [by apply retired_Tile_new| |done].
  intros u s1 [Hs1 Hu].
  apply wlp_bind. eapply wlp_mono; [by apply retired_notify_all| |done].
  intros ? s2 Hs2. apply wlp_ret. split; [done|].
  apply Forall_app. split; [done|]. apply Forall_singleton. congruence.
Qed.

Lemma retired_set_tiles rep s :
  retired t s ->
  wlp (set_tiles rep) (fun _ s' => retired t s') (retired t) s.
Proof.
  intros [Hlt Hoff]. unfold set_tiles. apply wlp_bind, wlp_modify.
  apply wlp_bind, wlp_gets. apply wlp_for_each.
  2:{ split; [done|]. intros (i & j & H). simpl in H. unfold cell_at in H.
      by rewrite lookup_nil in H. }
  intros r s0 Hs0. unfold set_tiles_append. apply wlp_bind.
  unfold set_tiles_row. apply wlp_bind, wlp_gets.
  eapply wlp_mono;
    [apply (wlp_for_acc_inv (retired t) (Forall (fun x => x <> Some t)));
       [|done|constructor]| |done].
  { intros c acc s1 Hs1 Hacc. by apply retired_set_tiles_cell. }
  intros row s1 [[Hlt1 Hoff1] Hrow]. apply wlp_modify.
  split; [done|]. intros (i & j & H). simpl in H. unfold cell_at in H.
  destruct (decide (i < length (tiles s1))%nat) as [Hi|Hi].
  - rewrite lookup_app_l in H by done. apply Hoff1. by exists i, j.
  - rewrite lookup_app_r in H by lia.
    destruct (i - length (tiles s1))%nat as [|k]; simpl in H; [|by destruct k].
    rewrite Forall_forall in Hrow. apply (Hrow (Some t)); [|done].
    apply list_elem_of_lookup. eauto.
Qed.

Lemma retired_run_call fuel c s :
  retired t s ->
  wlp (run_call fuel c) (fun _ s' => retired t s') (retired t) s.
Proof.
  intros Hs. destruct c; simpl.
  - apply wlp_bind.
    eapply wlp_mono; [apply find_empty_unchanged| |by intros s' ->].
    by intros a s' ->.
  - by apply retired_place_tile.
  - by apply retired_set_tiles.
  - by apply retired_sweep.
  - by apply retired_sweep.
  - by apply retired_sweep.
  - by apply retired_sweep.
Qed.

Lemma retired_run_calls fuel cs :
  forall s s', retired t s -> run_calls fuel cs s = Some s' -> retired t s'.
Proof.
  induction cs as [|c cs IH]; intros s s' Hs; simpl.
  - by intros [= <-].
  - pose proof (retired_run_call fuel c s Hs) as Hc. unfold wlp in Hc.
    destruct (run_call fuel c s) as [a s1|e s1|]; [by apply IH..|done].
Qed.
End RetiredCalls.

(** ** Calls that do not touch the score *)

Section Quiet.
Context (a b : Z) (n : nat).

Local Abbreviation quiet := (scored a b n).

Lemma quiet_created t s :
  quiet s -> wlp (notify_all tile_created t) (fun _ s' => quiet s') quiet s.
Proof.
  intros (Hs & Ha & Hm). apply wlp_modify. unfold scored, absorbed, merges in *.
  simpl. rewrite map_app, sumZ_app, List.filter_app, length_app. simpl.
  repeat split; lia.
Qed.

Lemma quiet_Tile_new r c v s :
  quiet s -> wlp (Tile_new r c v) (fun _ s' => quiet s') quiet s.
Proof. done. Qed.

Lemma quiet_tiles_setitem r c x s :
  quiet s -> wlp (tiles_setitem r c x) (fun _ s' => quiet s') quiet s.
Proof.
  intros H. unfold wlp. pose proof (tiles_setitem_put r c x s) as Hp.
  destruct (tiles_setitem r c x s) as [u s'|e s'|]; [|by subst|done].
  by destruct Hp as (i & j & ->).
Qed.

Lemma quiet_place_tile pick draw s :
  quiet s -> wlp (place_tile pick draw) (fun _ s' => quiet s') quiet s.
Proof.
  intros Hs. unfold place_tile. apply wlp_bind.
  eapply wlp_mono; [apply find_empty_unchanged| |by intros s' ->].
  intros spot s' ->. destruct spot as [[r c]|]; [|done].
  apply wlp_bind.
  eapply wlp_mono with (Q := fun _ s' => quiet s'); [| |done].
  { destruct (_ =? _); by apply quiet_Tile_new. }
  intros t s1 Hs1.
  apply wlp_bind. eapply wlp_mono; [by apply quiet_tiles_setitem| |done].
  intros ? s2 Hs2. by apply quiet_created.
Qed.

Lemma quiet_set_tiles rep s :
  quiet s -> wlp (set_tiles rep) (fun _ s' => quiet s') quiet s.
Proof.
  intros Hs. unfold set_tiles. apply wlp_bind, wlp_modify.
  apply wlp_bind, wlp_gets. apply wlp_for_each; [|done].
  intros r s0 Hs0. unfold set_tiles_append. apply wlp_bind.
  unfold set_tiles_row. apply wlp_bind, wlp_gets.
  eapply wlp_mono; [apply (wlp_for_acc quiet); [|done]| |done].
  2:{ intros row s1 Hs1. by apply wlp_modify. }
  intros c acc s1 Hs1. unfold set_tiles_cell.
  assert (forall Q : Z -> State -> Prop,
            (forall x, Q x s1) -> wlp (rep_getitem rep r c) Q quiet s1) as Hget.
  { intros Q HQ. unfold wlp, rep_getitem.
    destruct (getitem rep r) as [rw|]; [|done]. by destruct (getitem rw c). }
  apply wlp_bind, Hget. intros x. destruct (x =? 0); [by apply wlp_ret|].
  apply wlp_bind, Hget. intros val.
  apply wlp_bind. eapply wlp_mono; [by apply quiet_Tile_new| |done].
  intros t s2 Hs2.
  apply wlp_bind. eapply wlp_mono; [by apply quiet_created| |done].
  intros ? s3 Hs3. by apply wlp_ret.
Qed.
End Quiet.

(** ** Calls without a loop of their own *)

Lemma finishes_bind {A B} (m : M A) (k : A -> M B) :
  finishes m -> (forall a, finishes (k a)) -> finishes (bind m k).
Proof.
  intros Hm Hk s. unfold bind. specialize (Hm s).
  destruct (m s) as [a s'|e s'|]; [apply Hk | done | done].
Qed.

Lemma finishes_for_each {A} (l : list A) (body : A -> M unit) :
  (forall x, finishes (body x)) -> finishes (for_each l body).
Proof.
  intros Hb. induction l as [|x l IH]; simpl; [done|].
  by apply finishes_bind.
Qed.

Lemma finishes_for_acc {A S} (l : list A) (body : A -> S -> M S) acc :
  (forall x a, finishes (body x a)) -> finishes (for_acc l body acc).
Proof.
  intros Hb. revert acc. induction l as [|x l IH]; intros acc; simpl; [done|].
  by apply finishes_bind.
Qed.

Lemma finishes_tiles_getitem r c : finishes (tiles_getitem r c).
Proof.
  intros s. unfold tiles_getitem.
  destruct (getitem (tiles s) r) as [rw|]; [|done]. by destruct (getitem rw c).
Qed.

Lemma finishes_tiles_setitem r c x : finishes (tiles_setitem r c x).
Proof.
  intros s. pose proof (tiles_setitem_put r c x s).
  by destruct (tiles_setitem r c x s).
Qed.

Lemma finishes_rep_getitem rep r c : finishes (rep_getitem rep r c).
Proof.
  intros s. unfold rep_getitem.
  destruct (getitem rep r) as [rw|]; [|done]. by destruct (getitem rw c).
Qed.

Lemma finishes_find_empty pick : finishes (find_empty pick).
Proof.
  unfold find_empty. apply finishes_bind; [done|]. intros rs.
  apply finishes_bind.
  - apply finishes_for_acc. intros r cand. unfold find_empty_row.
    apply finishes_bind; [done|]. intros cs. apply finishes_for_acc.
    intros c cand'. apply finishes_bind; [apply finishes_tiles_getitem|].
    by intros [t|].
  - intros [|p l]; [done|]. apply finishes_bind; [|done].
    unfold random_choice. by destruct (_ !! _).
Qed.

Lemma finishes_place_tile pick draw : finishes (place_tile pick draw).
Proof.
  unfold place_tile. apply finishes_bind; [apply finishes_find_empty|].
  intros [[r c]|]; [|done].
  apply finishes_bind; [by destruct (_ =? _)|]. intros t.
  apply finishes_bind; [apply finishes_tiles_setitem | done].
Qed.

Lemma finishes_set_tiles rep : finishes (set_tiles rep).
Proof.
  unfold set_tiles. apply finishes_bind; [done|]. intros _.
  apply finishes_bind; [done|]. intros rs.
  apply finishes_for_each. intros r. unfold set_tiles_append.
  apply finishes_bind; [|done]. unfold set_tiles_row.
  apply finishes_bind; [done|]. intros cs. apply finishes_for_acc.
  intros c acc. unfold set_tiles_cell.
  apply finishes_bind; [apply finishes_rep_getitem|]. intros x.
  destruct (x =? 0); [done|].
  apply finishes_bind; [apply finishes_rep_getitem|]. intros val.
  apply finishes_bind; [done|]. intros t. by apply finishes_bind.
Qed.

(** ** Fuel *)

(** Once the loop has the fuel to reach the edge, more fuel changes
    nothing. *)
Lemma slide_loop_fuel self dx dy :
  unit_vector (dx, dy) ->
  forall fuel fuel' s i j,
    WF s -> cell_at (tiles s) i j = Some (Some self) ->
    (room (dx, dy) i j < fuel)%nat -> (room (dx, dy) i j < fuel')%nat ->
    slide_loop fuel self dx dy (Z.of_nat i) (Z.of_nat j) s
    = slide_loop fuel' self dx dy (Z.of_nat i) (Z.of_nat j) s.
Proof.
  intros Hv. induction fuel as [|fuel IH]; intros fuel' s i j Hwf Hself Hf Hf'; [lia|].
  destruct fuel' as [|fuel']; [lia|].
  destruct (slide_loop_step self dx dy s i j Hv Hwf Hself)
    as [[Hrun _]|(s1 & i' & j' & Hrun & Hroom & Hwf1 & Hself1 & _)].
  - by rewrite !Hrun.
  - rewrite !Hrun. apply IH; try done; lia.
Qed.

Lemma slide_fuel self v fuel fuel' s i j :
  unit_vector v ->
  WF s -> cell_at (tiles s) i j = Some (Some self) ->
  (room v i j < fuel)%nat -> (room v i j < fuel')%nat ->
  slide fuel self v s = slide fuel' self v s.
Proof.
  intros Hv Hwf Hself Hf Hf'. destruct v as [dx dy].
  destruct (wf_refs s Hwf i j self Hself) as (Hlt & Hr & Hc).
  unfold slide, bind, Tile_get, gets. rewrite Hr, Hc.
  by apply slide_loop_fuel.
Qed.

(** Two loops whose bodies agree wherever an invariant of the first holds
    agree. *)
Lemma for_each_agree {A} (I : State -> Prop) (l : list A) (f g : A -> M unit) :
  (forall x s, x ∈ l -> I s -> f x s = g x s /\ wp (f x) (fun _ s' => I s') s) ->
  forall s, I s -> for_each l f s = for_each l g s.
Proof.
  induction l as [|x l IH]; intros Hfg s Hs; simpl; [done|].
  destruct (Hfg x s) as [Heq Hwp]; [left | done |].
  unfold bind. rewrite <- Heq. unfold wp in Hwp.
  destruct (f x s) as [u s'|e s'|]; [|done..].
  apply IH; [|done]. intros y s0 Hy. apply Hfg. by right.
Qed.

Lemma visit_fuel fuel fuel' v s i j :
  unit_vector v -> WF s ->
  Z.of_nat i < GRID_SIZE -> Z.of_nat j < GRID_SIZE ->
  (Z.to_nat GRID_SIZE <= fuel)%nat -> (Z.to_nat GRID_SIZE <= fuel')%nat ->
  visit fuel v (Z.of_nat i) (Z.of_nat j) s = visit fuel' v (Z.of_nat i) (Z.of_nat j) s.
Proof.
  intros Hv Hwf Hi Hj Hf Hf'.
  destruct (WF_cell s i j Hwf Hi Hj) as [x Hx].
  unfold visit, bind. rewrite (tiles_getitem_nat s i j x Hx).
  destruct x as [t|]; [|done].
  pose proof (room_lt v i j Hv Hi Hj).
  apply (slide_fuel t v fuel fuel' s i j); try done; lia.
Qed.

(** A move does the same with any fuel that is enough for one slide. *)
Lemma sweep_fuel fuel fuel' v rev_rows rev_cols s :
  unit_vector v -> WF s ->
  (Z.to_nat GRID_SIZE <= fuel)%nat -> (Z.to_nat GRID_SIZE <= fuel')%nat ->
  sweep fuel v rev_rows rev_cols s = sweep fuel' v rev_rows rev_cols s.
Proof.
  intros Hv Hwf Hf Hf'. unfold sweep, bind at 1 3, gets.
  pose proof (wf_height s Hwf) as Hlen.
  apply (for_each_agree (kept (grid_total s) (balance s))); [|done].
  intros r s0 Hr Hk0.
  apply elem_of_indices_rev in Hr as (i & -> & Hi).
  split; [|apply sweep_row_spec; try done; lia].
  unfold bind, row_at. rewrite getitem_nat.
  destruct (tiles s0 !! i) as [rw|] eqn:Hrw; [|done].
  pose proof (wf_width s0 (proj1 Hk0) i rw Hrw) as Hw.
  apply (for_each_agree (kept (grid_total s) (balance s))); [|done].
  intros c s1 Hc Hk1.
  apply elem_of_indices_rev in Hc as (j & -> & Hj).
  split; [|apply visit_spec; try done; lia].
  apply visit_fuel; try done; [apply Hk1 | lia..].
Qed.

(** ** The calls of a driver *)

Lemma move_kept fuel v rev_rows rev_cols s :
  unit_vector v -> (Z.to_nat GRID_SIZE <= fuel)%nat -> WF s ->
  exists s', sweep fuel v rev_rows rev_cols s = Ok tt s' /\
             WF s' /\ grid_total s' = grid_total s /\ balance s' = balance s.
Proof.
  intros Hv Hfuel Hwf.
  destruct (wp_elim _ _ _
              (sweep_spec fuel v rev_rows rev_cols (grid_total s) (balance s) s
                 Hv Hfuel (conj Hwf (conj eq_refl eq_refl))))
    as ([] & s' & Hrun & Hk).
  exists s'. split; [done|]. exact Hk.
Qed.

Lemma place_tile_outcome pick draw s :
  WF s ->
  (empty_cells s = [] /\ place_tile pick draw s = Raise AssertionError s) \/
  (exists i j v,
     cell_at (tiles s) i j = Some None /\ (v = 2 \/ v = 4) /\
     place_tile pick draw s = Ok tt (placed i j v s)).
Proof.
  intros Hwf. destruct (empty_cells s) as [|p l] eqn:El.
  - left. split; [done|]. by apply place_tile_full.
  - right.
    destruct (lookup_lt_is_Some_2 (empty_cells s) (pick mod length (empty_cells s))%nat)
      as [[r c] Hrc].
    { apply Nat.mod_upper_bound. by rewrite El. }
    destruct (place_tile_empty pick draw s r c Hwf Hrc)
      as (i & j & v & _ & _ & Hc & Hv & Hrun).
    by exists i, j, v.
Qed.

Lemma placed_balance i j v s : balance (placed i j v s) = balance s.
Proof.
  unfold balance, absorbed, placed. simpl.
  rewrite map_app, sumZ_app. simpl. lia.
Qed.

Lemma run_call_balance fuel c s :
  WF s -> (Z.to_nat GRID_SIZE <= fuel)%nat ->
  match run_call fuel c s with
  | Ok _ s' => balance s' = balance s
  | Raise _ s' => balance s' = balance s
  | OutOfFuel => False
  end.
Proof.
  intros Hwf Hfuel.
  destruct c as [pick|pick draw|rep| | | |]; simpl; unfold left, right, up, down.
  - unfold bind. by rewrite find_empty_result.
  - destruct (place_tile_outcome pick draw s Hwf)
      as [[_ ->]|(i & j & v & _ & _ & ->)]; [done | apply placed_balance].
  - pose proof (quiet_set_tiles (sum s) (absorbed s) (merges s) rep s) as Hq.
    unfold wlp, scored, balance in *.
    destruct (fits rep) eqn:Hfit.
    + destruct (wp_elim _ _ _ (set_tiles_ok rep s (wf_rows s Hwf) (wf_cols s Hwf) Hfit))
        as ([] & s' & Hrun & _).
      rewrite Hrun in *. destruct Hq as (-> & -> & _); done.
    + destruct (set_tiles_fail rep s (wf_rows s Hwf) (wf_cols s Hwf) Hfit)
        as (s' & Hrun & _).
      rewrite Hrun in *. destruct Hq as (-> & -> & _); done.
  - destruct (move_kept fuel (-1, 0) false false s) as (s' & -> & _ & _ & Hb);
      [by left | done..].
  - destruct (move_kept fuel (1, 0) false true s) as (s' & -> & _ & _ & Hb);
      [by right; left | done..].
  - destruct (move_kept fuel (0, -1) false false s) as (s' & -> & _ & _ & Hb);
      [by right; right; left | done..].
  - destruct (move_kept fuel (0, 1) true false s) as (s' & -> & _ & _ & Hb);
      [by right; right; right | done..].
Qed.

(** Well-formedness is kept by every call that returns, and by a
    [place_tile] that fails; only a [set_tiles] that fails leaves the grid
    with the rows it had read so far. *)
Lemma run_call_WF fuel c s :
  WF s -> (Z.to_nat GRID_SIZE <= fuel)%nat ->
  match run_call fuel c s with
  | Ok _ s' => WF s'
  | Raise e s' =>
      (e = AssertionError /\ s' = s) \/
      (e = IndexError /\ exists rep, c = CallSetTiles rep /\ fits rep = false)
  | OutOfFuel => False
  end.
Proof.
  intros Hwf Hfuel.
  destruct c as [pick|pick draw|rep| | | |]; simpl; unfold left, right, up, down.
  - unfold bind. by rewrite find_empty_result.
  - destruct (place_tile_outcome pick draw s Hwf)
      as [[_ ->]|(i & j & v & Hc & _ & ->)]; [by left|].
    apply placed_WF; [done | by rewrite Hc].
  - destruct (fits rep) eqn:Hfit.
    + by destruct (wp_elim _ _ _ (set_tiles_ok rep s (wf_rows s Hwf) (wf_cols s Hwf) Hfit))
        as ([] & s' & -> & Hwf' & _).
    + destruct (set_tiles_fail rep s (wf_rows s Hwf) (wf_cols s Hwf) Hfit)
        as (s' & -> & _).
      right. split; [done|]. by exists rep.
  - by destruct (move_kept fuel (-1, 0) false false s) as (s' & -> & Hwf' & _);
      [by left | ..].
  - by destruct (move_kept fuel (1, 0) false true s) as (s' & -> & Hwf' & _);
      [by right; left | ..].
  - by destruct (move_kept fuel (0, -1) false false s) as (s' & -> & Hwf' & _);
      [by right; right; left | ..].
  - by destruct (move_kept fuel (0, 1) true false s) as (s' & -> & Hwf' & _);
      [by right; right; right | ..].
Qed.

(** ** Moves over empty cells *)

Lemma for_each_skip {A} (l : list A) (f : A -> M unit) s :
  (forall x, x ∈ l -> f x s = Ok tt s) -> for_each l f s = Ok tt s.
Proof.
  induction l as [|x l IH]; intros Hf; simpl; [done|].
  unfold bind. rewrite Hf by left. apply IH. intros y Hy. apply Hf. by right.
Qed.

Lemma visit_empty fuel v s i j :
  cell_at (tiles s) i j = Some None ->
  visit fuel v (Z.of_nat i) (Z.of_nat j) s = Ok tt s.
Proof. intros Hc. unfold visit, bind. by rewrite (tiles_getitem_nat s i j None Hc). Qed.

Lemma visit_tile fuel v s i j t :
  cell_at (tiles s) i j = Some (Some t) ->
  visit fuel v (Z.of_nat i) (Z.of_nat j) s = slide fuel t v s.
Proof. intros Hc. unfold visit, bind. by rewrite (tiles_getitem_nat s i j _ Hc). Qed.

(** A move passes over a row of empty cells. *)
Lemma sweep_empty_row fuel v (rev_cols : bool) s i rw :
  tiles s !! i = Some rw ->
  Forall (fun c => c = None) rw ->
  (rw0 <- row_at (Z.of_nat i) ;;
   for_each (if rev_cols then rev (indices rw0) else indices rw0)
     (fun c => visit fuel v (Z.of_nat i) c)) s
  = Ok tt s.
Proof.
  intros Hrw Hnone. unfold bind, row_at. rewrite getitem_nat, Hrw.
  apply for_each_skip. intros c Hc.
  apply elem_of_indices_rev in Hc as (j & -> & Hj).
  apply visit_empty. unfold cell_at. rewrite Hrw.
  destruct (lookup_lt_is_Some_2 rw j Hj) as [x Hx]. rewrite Hx.
  rewrite Forall_forall in Hnone. f_equal. apply Hnone.
  apply list_elem_of_lookup. eauto.
Qed.

(** ** The scenarios of the game, run *)

Example left_closes_a_gap :
  as_list (after (left 4) (grid_of [[2; 0; 2; 0]; empty_row; empty_row; empty_row]))
  = [[4; 0; 0; 0]; empty_row; empty_row; empty_row].
Proof. reflexivity. Qed.

Example right_closes_a_gap :
  as_list (after (right 4) (grid_of [[2; 0; 2; 0]; empty_row; empty_row; empty_row]))
  = [[0; 0; 0; 4]; empty_row; empty_row; empty_row].
Proof. reflexivity. Qed.

Example left_without_a_pair :
  as_list (after (left 4) (grid_of [[2; 4; 2; 0]; empty_row; empty_row; empty_row]))
  = [[2; 4; 2; 0]; empty_row; empty_row; empty_row].
Proof. reflexivity. Qed.

Example up_and_down_on_a_column :
  as_list (after (up 4) (grid_of [[2; 0; 0; 0]; [2; 0; 0; 0]; [4; 0; 0; 0]; [4; 0; 0; 0]]))
  = [[8; 0; 0; 0]; [4; 0; 0; 0]; empty_row; empty_row] /\
  as_list (after (down 4) (grid_of [[2; 0; 0; 0]; [2; 0; 0; 0]; [4; 0; 0; 0]; [4; 0; 0; 0]]))
  = [empty_row; empty_row; [4; 0; 0; 0]; [8; 0; 0; 0]].
Proof. split; reflexivity. Qed.

Example full_grid_does_not_move :
  as_list (after (left 4) full_grid) = as_list full_grid /\
  as_list (after (right 4) full_grid) = as_list full_grid /\
  as_list (after (up 4) full_grid) = as_list full_grid /\
  as_list (after (down 4) full_grid) = as_list full_grid /\
  find_empty 5 full_grid = Ok None full_grid /\
  place_tile 5 3 full_grid = Raise AssertionError full_grid.
Proof. repeat split; reflexivity. Qed.

Example too_little_fuel :
  left 3 (grid_of [[0; 0; 0; 2]; empty_row; empty_row; empty_row]) = OutOfFuel.
Proof. reflexivity. Qed.

(** * The properties of the game *)

(** ** Sliding and merging *)

(** C10. A slide of a tile of the grid along one of the four unit vectors
    terminates: an execution of the loop body leaves the loop or takes the
    tile one cell closer to the edge, so [GRID_SIZE] executions are
    enough, and more fuel changes nothing. *)
Theorem slide_terminates (self : ref) (v : Z * Z) (s : State) (i j : nat) :
  WF s ->
  cell_at (tiles s) i j = Some (Some self) ->
  unit_vector v ->
  (room v i j < Z.to_nat GRID_SIZE)%nat /\
  (exists s', slide (S (room v i j)) self v s = Ok tt s') /\
  (forall fuel, (room v i j < fuel)%nat ->
     slide fuel self v s = slide (Z.to_nat GRID_SIZE) self v s) /\
  (forall s0 i0 j0,
     WF s0 -> cell_at (tiles s0) i0 j0 = Some (Some self) ->
     (forall fuel,
        slide_loop (S fuel) self (fst v) (snd v) (Z.of_nat i0) (Z.of_nat j0) s0
        = Ok tt s0) \/
     exists s1 i1 j1,
       (forall fuel,
          slide_loop (S fuel) self (fst v) (snd v) (Z.of_nat i0) (Z.of_nat j0) s0
          = slide_loop fuel self (fst v) (snd v) (Z.of_nat i1) (Z.of_nat j1) s1) /\
       room v i0 j0 = S (room v i1 j1) /\
       WF s1 /\ cell_at (tiles s1) i1 j1 = Some (Some self)).
Proof.
  intros Hwf Hself Hv.
  destruct (cell_at_lt s i j _ Hwf Hself) as (Hi & Hj).
  pose proof (room_lt v i j Hv Hi Hj) as Hroom.
  split; [done|]. split; [|split].
  - destruct (wp_elim _ _ _
                (slide_spec self v (S (room v i j)) s i j _ _ _ Hv Hwf Hself
                   (Nat.lt_succ_diag_r _) eq_refl eq_refl (Nat.le_refl _)))
      as ([] & s' & Hrun & _).
    by exists s'.
  - intros fuel Hfuel. by apply (slide_fuel self v fuel _ s i j).
  - intros s0 i0 j0 Hwf0 Hself0. destruct v as [dx dy]. simpl.
    destruct (slide_loop_step self dx dy s0 i0 j0 Hv Hwf0 Hself0)
      as [[Hrun _]|(s1 & i1 & j1 & Hrun & Hr & Hwf1 & Hself1 & _)].
    + by left.
    + right. by exists s1, i1, j1.
Qed.

Lemma slide_terminates_witness :
  WF pair_grid /\
  cell_at (tiles pair_grid) 0 1 = Some (Some 1%nat) /\
  unit_vector (-1, 0) /\
  exists s', slide (S (room (-1, 0)%Z 0 1)) 1%nat (-1, 0) pair_grid = Ok tt s'.
Proof.
  assert (WF pair_grid) as Hwf by (apply wf_check_sound; vm_compute; reflexivity).
  assert (unit_vector (-1, 0)) as Hv by (left; reflexivity).
  split; [exact Hwf|]. split; [reflexivity|]. split; [exact Hv|].
  exact (proj1 (proj2 (slide_terminates 1%nat (-1, 0) pair_grid 0 1 Hwf eq_refl Hv))).
Defined.

(** C1, as the code has it.  A tile can merge more than once in a move:
    after it has absorbed a neighbour its slide goes on from the cell of
    the merge, and it ends only where the next cell is outside the grid or
    holds a tile of another value.  In one slide a tile merges at most as
    many times as there are cells between it and the edge. *)
Theorem slide_ends_blocked (fuel : nat) (self : ref) (v : Z * Z) (s : State)
    (i j : nat) :
  WF s ->
  cell_at (tiles s) i j = Some (Some self) ->
  unit_vector v ->
  (Z.to_nat GRID_SIZE <= fuel)%nat ->
  exists s',
    slide fuel self v s = Ok tt s' /\
    on_grid s' self /\
    blocked self v s' /\
    (merges s' <= merges s + room v i j)%nat /\
    (room v i j < Z.to_nat GRID_SIZE)%nat.
Proof.
  intros Hwf Hself Hv Hfuel.
  destruct (cell_at_lt s i j _ Hwf Hself) as (Hi & Hj).
  pose proof (room_lt v i j Hv Hi Hj) as Hroom.
  destruct (wp_elim _ _ _
              (slide_spec self v fuel s i j _ _ (merges s + room v i j) Hv Hwf Hself
                 (Nat.lt_le_trans _ _ _ Hroom Hfuel) eq_refl eq_refl (Nat.le_refl _)))
    as ([] & s' & Hrun & Hslid).
  exists s'. split; [done|]. split; [apply Hslid|]. split; [apply Hslid|].
  split; [apply Hslid | done].
Qed.

Lemma slide_ends_blocked_witness :
  WF chain_grid /\
  cell_at (tiles chain_grid) 0 2 = Some (Some 2%nat) /\
  unit_vector (-1, 0) /\
  (Z.to_nat GRID_SIZE <= 4)%nat /\
  exists s',
    slide 4 2%nat (-1, 0) chain_grid = Ok tt s' /\
    on_grid s' 2%nat /\
    blocked 2%nat (-1, 0) s' /\
    (merges s' <= merges chain_grid + room (-1, 0)%Z 0 2)%nat /\
    (room (-1, 0)%Z 0 2 < Z.to_nat GRID_SIZE)%nat.
Proof.
  assert (WF chain_grid) as Hwf by (apply wf_check_sound; vm_compute; reflexivity).
  assert (unit_vector (-1, 0)) as Hv by (left; reflexivity).
  assert (Z.to_nat GRID_SIZE <= 4)%nat as Hfuel by (vm_compute; lia).
  split; [exact Hwf|]. split; [reflexivity|]. split; [exact Hv|]. split; [exact Hfuel|].
  exact (slide_ends_blocked 4 2%nat (-1, 0) chain_grid 0 2 Hwf eq_refl Hv Hfuel).
Defined.

(** C1, as the specification states it, fails: in a left move of
    [[4; 2; 2; 0]] the third tile absorbs the second, goes on, and absorbs
    the first. *)
Lemma tile_merges_twice :
  exists s',
    left 4 chain_grid = Ok tt s' /\
    slide 4 2%nat (-1, 0) chain_grid = Ok tt s' /\
    merges chain_grid = 0%nat /\ merges s' = 2%nat /\
    as_list s' = [[8; 0; 0; 0]; empty_row; empty_row; empty_row].
Proof. exists (after (left 4) chain_grid). vm_compute. auto. Qed.

(** C5. Each of the four moves returns, and the values of the tiles on the
    grid add up after it to what they added up to before it. *)
Theorem move_keeps_total (fuel : nat) (s : State) :
  WF s ->
  (Z.to_nat GRID_SIZE <= fuel)%nat ->
  (exists s', left fuel s = Ok tt s' /\ grid_total s' = grid_total s) /\
  (exists s', right fuel s = Ok tt s' /\ grid_total s' = grid_total s) /\
  (exists s', up fuel s = Ok tt s' /\ grid_total s' = grid_total s) /\
  (exists s', down fuel s = Ok tt s' /\ grid_total s' = grid_total s).
Proof.
  intros Hwf Hfuel. unfold left, right, up, down.
  assert (forall v rr rc, unit_vector v ->
            exists s', sweep fuel v rr rc s = Ok tt s' /\ grid_total s' = grid_total s)
    as Hmove.
  { intros v rr rc Hv.
    destruct (move_kept fuel v rr rc s Hv Hfuel Hwf) as (s' & Hrun & _ & HT & _).
    by exists s'. }
  unfold unit_vector in Hmove. repeat split; apply Hmove; tauto.
Qed.

Lemma move_keeps_total_witness :
  WF chain_grid /\
  (Z.to_nat GRID_SIZE <= 4)%nat /\
  (exists s', left 4 chain_grid = Ok tt s' /\ grid_total s' = grid_total chain_grid).
Proof.
  assert (WF chain_grid) as Hwf by (apply wf_check_sound; vm_compute; reflexivity).
  assert (Z.to_nat GRID_SIZE <= 4)%nat as Hfuel by (vm_compute; lia).
  split; [exact Hwf|]. split; [exact Hfuel|].
  exact (proj1 (move_keeps_total 4 chain_grid Hwf Hfuel)).
Defined.

(** ** The score *)

(** C2, as the code has it.  A merge adds to the score the value the
    absorbing tile has after the merge, the sum of the pair, that is twice
    the value the two tiles shared (merging two 2-tiles adds 4); it does
    so once, and nothing else changes the score: over any call, the score
    grows by twice the values of the tiles absorbed during the call. *)
Theorem score_counts_merges (fuel : nat) (s : State) :
  WF s ->
  (Z.to_nat GRID_SIZE <= fuel)%nat ->
  (forall c,
     match run_call fuel c s with
     | Ok _ s' => score s' = score s + 2 * (absorbed s' - absorbed s)
     | Raise _ s' => score s' = score s + 2 * (absorbed s' - absorbed s)
     | OutOfFuel => False
     end) /\
  (forall self other i j i' j',
     cell_at (tiles s) i j = Some (Some self) ->
     cell_at (tiles s) i' j' = Some (Some other) ->
     (i', j') <> (i, j) ->
     value (heap s !!! other) = value (heap s !!! self) ->
     exists s1,
       slide_merge self other (Z.of_nat i') (Z.of_nat j') s = Ok tt s1 /\
       score s1 = score s + 2 * value (heap s !!! self) /\
       value (heap s1 !!! self) = 2 * value (heap s !!! self) /\
       absorbed s1 = absorbed s + value (heap s !!! self) /\
       merges s1 = S (merges s)).
Proof.
  intros Hwf Hfuel. split.
  - intros c. pose proof (run_call_balance fuel c s Hwf Hfuel) as H.
    unfold balance, score in *. destruct (run_call fuel c s); [lia..|done].
  - intros self other i j i' j' Hself Hother Hne Heq.
    destruct (wp_elim _ _ _ (slide_merge_spec self other i j i' j' s Hwf Hself Hother Hne))
      as ([] & s1 & Hrun & Hrel & Hs1 & Hd1 & _).
    exists s1. split; [done|]. unfold score.
    rewrite (relocated_heap_self self i j i' j' _ s s1 Hwf Hself Hrel).
    rewrite (absorbed_app s s1 _ Hd1), (merges_app s s1 _ Hd1). simpl.
    repeat split; lia.
Qed.

Lemma score_counts_merges_witness :
  WF pair_grid /\
  (Z.to_nat GRID_SIZE <= 4)%nat /\
  match run_call 4 CallLeft pair_grid with
  | Ok _ s' => score s' = score pair_grid + 2 * (absorbed s' - absorbed pair_grid)
  | Raise _ s' => score s' = score pair_grid + 2 * (absorbed s' - absorbed pair_grid)
  | OutOfFuel => False
  end.
Proof.
  assert (WF pair_grid) as Hwf by (apply wf_check_sound; vm_compute; reflexivity).
  assert (Z.to_nat GRID_SIZE <= 4)%nat as Hfuel by (vm_compute; lia).
  split; [exact Hwf|]. split; [exact Hfuel|].
  exact (proj1 (score_counts_merges 4 pair_grid Hwf Hfuel) CallLeft).
Defined.

(** C2, as the specification states it, fails: the one merge of a left
    move of [[2; 2; 0; 0]] adds 4 to the score, not the 2 the two tiles
    shared. *)
Lemma merge_adds_the_sum :
  exists s',
    left 4 pair_grid = Ok tt s' /\
    merges s' = S (merges pair_grid) /\
    absorbed s' = absorbed pair_grid + 2 /\
    score s' = score pair_grid + 4 /\
    score s' <> score pair_grid + 2.
Proof. exists (after (left 4) pair_grid). vm_compute. repeat split; discriminate. Qed.

(** C3. From a grid whose first row holds two tiles of value 2 followed by
    two empty cells, above three empty rows (the grid [[2; 2; 0; 0]; ...]),
    a left move leaves [[4; 0; 0; 0]] and three empty rows, and the score
    is 4 higher. *)
Theorem left_on_pair (fuel : nat) (s : State) (a b : ref) :
  WF s ->
  tiles s = [[Some a; Some b; None; None]; no_tiles; no_tiles; no_tiles] ->
  value (heap s !!! a) = 2 ->
  value (heap s !!! b) = 2 ->
  (Z.to_nat GRID_SIZE <= fuel)%nat ->
  as_list s = [[2; 2; 0; 0]; empty_row; empty_row; empty_row] /\
  exists s',
    left fuel s = Ok tt s' /\
    as_list s' = [[4; 0; 0; 0]; empty_row; empty_row; empty_row] /\
    score s' = score s + 4.
Proof.
  intros Hwf Ht Ha Hb Hfuel.
  assert (cell_at (tiles s) 0 0 = Some (Some a)) as Hca by (by rewrite Ht).
  assert (cell_at (tiles s) 0 1 = Some (Some b)) as Hcb by (by rewrite Ht).
  destruct (wf_refs s Hwf 0 0 a Hca) as (Hla & Hra & Hcola).
  destruct (wf_refs s Hwf 0 1 b Hcb) as (Hlb & Hrb & Hcolb).
  split.
  { unfold as_list. rewrite Ht. simpl. by rewrite Ha, Hb. }
  destruct fuel as [|[|fuel]]; [vm_compute in Hfuel; lia..|]. clear Hfuel.
  (* the first tile is at the edge *)
  assert (slide (S (S fuel)) a (-1, 0) s = Ok tt s) as Hslide_a.
  { unfold slide, bind, Tile_get, gets. rewrite Hra, Hcola.
    apply slide_loop_edge. unfold within. by rewrite (wf_rows s Hwf). }
  (* the second tile absorbs it, and is at the edge in its turn *)
  destruct (wp_elim _ _ _
              (slide_merge_spec b a 0 1 0 0 s Hwf Hcb Hca ltac:(discriminate)))
    as ([] & s1 & Hmerge & Hrel & Hs1 & _).
  rewrite Ha, Hb in Hrel, Hs1.
  pose proof Hrel as (Hr1 & Hc1 & Ht1 & Hh1). rewrite Ht in Ht1.
  assert (slide (S (S fuel)) b (-1, 0) s = Ok tt s1) as Hslide_b.
  { unfold slide, bind, Tile_get, gets. rewrite Hrb, Hcolb.
    rewrite (slide_loop_match _ _ _ _ _ _ s a).
    - unfold bind. change (Z.of_nat 0 + 0) with (Z.of_nat 0).
      change (Z.of_nat 1 + -1) with (Z.of_nat 0). rewrite Hmerge.
      apply slide_loop_edge. unfold within. by rewrite Hr1, (wf_rows s Hwf).
    - unfold within. by rewrite (wf_rows s Hwf), (wf_cols s Hwf).
    - by apply (tiles_getitem_nat s 0 0).
    - by rewrite Ha, Hb. }
  assert (heap s1 !!! b = mkTile 0 0 4) as Hb1.
  { rewrite Hh1. by apply list_lookup_total_insert_eq. }
  exists s1. split; [|split].
  - unfold left, sweep. unfold bind at 1, gets. rewrite Ht.
    change (indices [[Some a; Some b; None; None]; no_tiles; no_tiles; no_tiles])
      with (map Z.of_nat [0; 1; 2; 3]%nat).
    cbn [for_each map].
    (* the first row *)
    unfold bind at 1. unfold bind at 1, row_at at 1.
    rewrite getitem_nat, Ht. cbn [lookup list_lookup].
    change (indices [Some a; Some b; None; None])
      with (map Z.of_nat [0; 1; 2; 3]%nat).
    cbn [for_each map].
    unfold bind at 1. rewrite (visit_tile _ _ s 0 0 a Hca), Hslide_a.
    unfold bind at 1. rewrite (visit_tile _ _ s 0 1 b Hcb), Hslide_b.
    unfold bind at 1. rewrite (visit_empty _ _ s1 0 2) by (by rewrite Ht1).
    unfold bind at 1. rewrite (visit_empty _ _ s1 0 3) by (by rewrite Ht1).
    unfold ret at 1.
    (* the three empty rows *)
    unfold bind at 1.
    rewrite (sweep_empty_row _ _ false s1 1 no_tiles)
      by (by rewrite Ht1 || by repeat constructor).
    unfold bind at 1.
    rewrite (sweep_empty_row _ _ false s1 2 no_tiles)
      by (by rewrite Ht1 || by repeat constructor).
    unfold bind at 1.
    rewrite (sweep_empty_row _ _ false s1 3 no_tiles)
      by (by rewrite Ht1 || by repeat constructor).
    done.
  - unfold as_list. rewrite Ht1. simpl. by rewrite Hb1.
  - unfold score. lia.
Qed.

Lemma left_on_pair_witness :
  WF pair_grid /\
  tiles pair_grid
  = [[Some 0%nat; Some 1%nat; None; None]; no_tiles; no_tiles; no_tiles] /\
  value (heap pair_grid !!! 0%nat) = 2 /\
  value (heap pair_grid !!! 1%nat) = 2 /\
  (Z.to_nat GRID_SIZE <= 4)%nat /\
  exists s',
    left 4 pair_grid = Ok tt s' /\
    as_list s' = [[4; 0; 0; 0]; empty_row; empty_row; empty_row] /\
    score s' = score pair_grid + 4.
Proof.
  assert (WF pair_grid) as Hwf by (apply wf_check_sound; vm_compute; reflexivity).
  assert (Z.to_nat GRID_SIZE <= 4)%nat as Hfuel by (vm_compute; lia).
  split; [exact Hwf|]. split; [reflexivity|]. split; [reflexivity|].
  split; [reflexivity|]. split; [exact Hfuel|].
  exact (proj2 (left_on_pair 4 pair_grid 0%nat 1%nat Hwf eq_refl eq_refl eq_refl Hfuel)).
Defined.

(** ** The tiles of a merge *)

(** C8, as the code has it.  When two tiles of equal value merge during a
    slide, the absorbing tile is the sliding one: its value becomes the sum
    of the two (it grows when the values are positive) and it takes the
    cell of the absorbed tile, leaving its own cell empty; the absorbed
    tile is in no cell any more, and no later call puts it in one. *)
Theorem merge_moves_absorber (self other : ref) (i j i' j' : nat) (s : State) :
  WF s ->
  cell_at (tiles s) i j = Some (Some self) ->
  cell_at (tiles s) i' j' = Some (Some other) ->
  (i', j') <> (i, j) ->
  value (heap s !!! other) = value (heap s !!! self) ->
  exists s1,
    slide_merge self other (Z.of_nat i') (Z.of_nat j') s = Ok tt s1 /\
    (forall fuel dx dy,
       Z.of_nat i + dy = Z.of_nat i' -> Z.of_nat j + dx = Z.of_nat j' ->
       slide_loop (S fuel) self dx dy (Z.of_nat i) (Z.of_nat j) s
       = slide_loop fuel self dx dy (Z.of_nat i') (Z.of_nat j') s1) /\
    heap s !!! self = mkTile (Z.of_nat i) (Z.of_nat j) (value (heap s !!! self)) /\
    heap s1 !!! self
    = mkTile (Z.of_nat i') (Z.of_nat j') (value (heap s !!! self) + value (heap s !!! other)) /\
    (0 < value (heap s !!! self) -> value (heap s !!! self) < value (heap s1 !!! self)) /\
    cell_at (tiles s1) i' j' = Some (Some self) /\
    cell_at (tiles s1) i j = Some None /\
    In (mkGameEvent tile_removed other, heap s !!! other) (notified s1) /\
    retired other s1 /\
    (forall fuel cs s2, run_calls fuel cs s1 = Some s2 -> retired other s2).
Proof.
  intros Hwf Hself Hother Hne Heq.
  destruct (wp_elim _ _ _ (slide_merge_spec self other i j i' j' s Hwf Hself Hother Hne))
    as ([] & s1 & Hrun & Hrel & Hs1 & Hd1 & _).
  destruct (wf_refs s Hwf i j self Hself) as (Hlt & Hr & Hc).
  destruct (wf_refs s Hwf i' j' other Hother) as (Hlt' & _).
  pose proof (relocated_heap_self self i j i' j' _ s s1 Hwf Hself Hrel) as Hme.
  pose proof (relocated_WF self i j i' j' _ s s1 _ Hwf Hself Hother Hne Hrel) as Hwf1.
  pose proof (relocated_cell_dest self i j i' j' _ s s1 _ Hother Hne Hrel) as Hdest.
  assert (retired other s1) as Hret.
  { split.
    - destruct Hrel as (_ & _ & _ & ->). by rewrite length_insert.
    - intros (a & b & Hab).
      destruct (wf_refs s1 Hwf1 a b other Hab) as (_ & Hra & Hca).
      assert (other <> self) as Hos.
      { intros E. apply Hne. rewrite E in Hother.
        exact (WF_unique s i j i' j' self Hwf Hself Hother). }
      rewrite (relocated_heap_other self i j i' j' _ s s1 Hrel other Hos) in Hra, Hca.
      destruct (wf_refs s Hwf i' j' other Hother) as (_ & Hro & Hco).
      assert ((a, b) = (i', j')) as [= -> ->] by (f_equal; lia).
      rewrite Hdest in Hab. congruence. }
  exists s1. split; [done|]. split; [|split; [|split; [|split]]].
  - intros fuel dx dy Hi' Hj'.
    destruct (cell_at_lt s i' j' _ Hwf Hother) as (Hi'4 & Hj'4).
    rewrite (slide_loop_match fuel self dx dy _ _ s other).
    + unfold bind. by rewrite Hi', Hj', Hrun.
    + rewrite Hi', Hj'. unfold within. rewrite (wf_rows s Hwf), (wf_cols s Hwf).
      rewrite !andb_true_iff, !Z.leb_le, !Z.ltb_lt. lia.
    + rewrite Hi', Hj'. by apply tiles_getitem_nat.
    + done.
  - rewrite <- Hr, <- Hc. by destruct (heap s !!! self).
  - done.
  - rewrite Hme. simpl. lia.
  - split; [done|]. split.
    { eapply relocated_cell_src; [exact Hself | exact Hne | exact Hrel]. }
    split; [rewrite Hd1; apply in_or_app; right; by left|].
    split; [done|]. intros fuel cs s2. by apply retired_run_calls.
Qed.

Lemma merge_moves_absorber_witness :
  WF pair_grid /\
  cell_at (tiles pair_grid) 0 1 = Some (Some 1%nat) /\
  cell_at (tiles pair_grid) 0 0 = Some (Some 0%nat) /\
  (0%nat, 0%nat) <> (0%nat, 1%nat) /\
  value (heap pair_grid !!! 0%nat) = value (heap pair_grid !!! 1%nat) /\
  exists s1,
    slide_merge 1%nat 0%nat 0 0 pair_grid = Ok tt s1 /\
    heap s1 !!! 1%nat = mkTile 0 0 4 /\
    retired 0%nat s1.
Proof.
  assert (WF pair_grid) as Hwf by (apply wf_check_sound; vm_compute; reflexivity).
  assert ((0%nat, 0%nat) <> (0%nat, 1%nat)) as Hne by discriminate.
  split; [exact Hwf|]. split; [reflexivity|]. split; [reflexivity|].
  split; [exact Hne|]. split; [reflexivity|].
  destruct (merge_moves_absorber 1%nat 0%nat 0 1 0 0 pair_grid Hwf eq_refl eq_refl Hne eq_refl)
    as (s1 & Hrun & _ & _ & Hme & _ & _ & _ & _ & Hret & _).
  exists s1. split; [exact Hrun|]. split; [exact Hme | exact Hret].
Defined.

(** C8, as the specification states it, fails: in a left move of
    [[2; 2; 0; 0]] the second tile absorbs the first (the one the
    [tile_removed] event names) and goes from cell (0, 1) to cell (0, 0). *)
Lemma absorber_changes_cell :
  exists s',
    slide 4 1%nat (-1, 0) pair_grid = Ok tt s' /\
    left 4 pair_grid = Ok tt s' /\
    heap pair_grid !!! 1%nat = mkTile 0 1 2 /\
    heap s' !!! 1%nat = mkTile 0 0 4 /\
    In (mkGameEvent tile_removed 0%nat, mkTile 0 0 2) (notified s') /\
    (row (heap s' !!! 1%nat), col (heap s' !!! 1%nat))
    <> (row (heap pair_grid !!! 1%nat), col (heap pair_grid !!! 1%nat)).
Proof.
  exists (after (left 4) pair_grid). vm_compute.
  repeat split; try discriminate. right. right. left. reflexivity.
Qed.

(** ** Loading a saved configuration *)

Lemma fits_shape rep :
  fits rep = true <->
  (Z.to_nat GRID_SIZE <= length rep)%nat /\
  Forall (fun rw : list Z => (Z.to_nat GRID_SIZE <= length rw)%nat)
         (take (Z.to_nat GRID_SIZE) rep).
Proof.
  split.
  - intros Hfit. split.
    + destruct (fits_true rep 3 0 Hfit) as [x Hx]; [by apply elem_of_span..|].
      unfold entry in Hx. destruct (rep !! 3%nat) as [rw|] eqn:Hrw; [|done].
      apply lookup_lt_Some in Hrw. unfold GRID_SIZE. lia.
    + apply Forall_forall. intros rw Hrw.
      apply list_elem_of_lookup in Hrw as [i Hi].
      apply lookup_take_Some in Hi as [Hi Hlt].
      destruct (fits_true rep i 3 Hfit) as [x Hx];
        [apply elem_of_span; unfold GRID_SIZE in *; lia | by apply elem_of_span |].
      unfold entry in Hx. rewrite Hi in Hx.
      apply lookup_lt_Some in Hx. unfold GRID_SIZE. lia.
  - intros [Hlen Hrows]. unfold fits. apply bool_decide_eq_true.
    apply Forall_forall. intros i Hi. apply Forall_forall. intros j Hj.
    apply elem_of_span in Hi, Hj. unfold GRID_SIZE in *.
    destruct (lookup_lt_is_Some_2 rep i) as [rw Hrw]; [lia|].
    unfold entry. rewrite Hrw. apply lookup_lt_is_Some_2.
    rewrite Forall_forall in Hrows.
    assert (rw ∈ take (Z.to_nat 4) rep) as Hin.
    { apply list_elem_of_lookup. exists i. apply lookup_take_Some. split; [done|lia]. }
    specialize (Hrows rw Hin). lia.
Qed.

(** C4, as the code has it.  [set_tiles] checks nothing: it fails, with an
    [IndexError], exactly when the matrix lacks one of the [GRID_SIZE] rows
    or one of their first [GRID_SIZE] entries; otherwise it returns, and
    the grid holds the entries it has read as they are, whatever their
    sign and whether or not they are powers of two, extra rows and columns
    being ignored. *)
Theorem set_tiles_checks_nothing (rep : list (list Z)) (s : State) :
  rows s = GRID_SIZE ->
  cols s = GRID_SIZE ->
  (fits rep = true <->
   (Z.to_nat GRID_SIZE <= length rep)%nat /\
   Forall (fun rw : list Z => (Z.to_nat GRID_SIZE <= length rw)%nat)
          (take (Z.to_nat GRID_SIZE) rep)) /\
  if fits rep
  then exists s', set_tiles rep s = Ok tt s' /\ WF s' /\ as_list s' = block rep
  else exists s', set_tiles rep s = Raise IndexError s'.
Proof.
  intros Hr Hc. split; [apply fits_shape|].
  destruct (fits rep) eqn:Hfit.
  - destruct (wp_elim _ _ _ (set_tiles_ok rep s Hr Hc Hfit))
      as ([] & s' & Hrun & Hwf & Has & _).
    by exists s'.
  - destruct (set_tiles_fail rep s Hr Hc Hfit) as (s' & Hrun & _).
    by exists s'.
Qed.

Lemma set_tiles_checks_nothing_witness :
  rows Grid_init = GRID_SIZE /\
  cols Grid_init = GRID_SIZE /\
  exists s',
    set_tiles [[2; 2; 0; 0]; empty_row; empty_row; empty_row] Grid_init = Ok tt s' /\
    WF s' /\
    as_list s' = block [[2; 2; 0; 0]; empty_row; empty_row; empty_row].
Proof.
  split; [reflexivity|]. split; [reflexivity|].
  exact (proj2 (set_tiles_checks_nothing
                  [[2; 2; 0; 0]; empty_row; empty_row; empty_row] Grid_init
                  eq_refl eq_refl)).
Defined.

(** C4, as the specification states it, fails: a negative entry, an entry
    that is not a power of two, and a matrix of five rows and five columns
    are all loaded without an error. *)
Lemma malformed_matrix_is_loaded :
  (exists s',
     set_tiles [[-2; 3; 0; 0]; empty_row; empty_row; empty_row] Grid_init = Ok tt s' /\
     as_list s' = [[-2; 3; 0; 0]; empty_row; empty_row; empty_row]) /\
  (exists s',
     set_tiles [[2; 0; 0; 0; 6]; [0; 0; 0; 0; 0]; [0; 0; 0; 0; 0];
                [0; 0; 0; 0; 0]; [0; 0; 0; 0; 8]] Grid_init = Ok tt s' /\
     as_list s' = [[2; 0; 0; 0]; empty_row; empty_row; empty_row]).
Proof.
  split.
  - exists (grid_of [[-2; 3; 0; 0]; empty_row; empty_row; empty_row]).
    vm_compute. auto.
  - exists (grid_of [[2; 0; 0; 0; 6]; [0; 0; 0; 0; 0]; [0; 0; 0; 0; 0];
                     [0; 0; 0; 0; 0]; [0; 0; 0; 0; 8]]).
    vm_compute. auto.
Qed.

(** C9. [set_tiles] leaves the score as it is, in every state and whether
    it returns or fails: it neither resets it nor restores one.  When it
    returns, the cells are those of the matrix, and the size of the grid is
    as before. *)
Theorem set_tiles_keeps_score (rep : list (list Z)) (s : State) :
  match set_tiles rep s with
  | Ok _ s' => score s' = score s
  | Raise _ s' => score s' = score s
  | OutOfFuel => False
  end /\
  (rows s = GRID_SIZE -> cols s = GRID_SIZE -> fits rep = true ->
   exists s',
     set_tiles rep s = Ok tt s' /\
     as_list s' = block rep /\
     rows s' = rows s /\ cols s' = cols s /\ score s' = score s).
Proof.
  split.
  - pose proof (quiet_set_tiles (sum s) (absorbed s) (merges s) rep s) as Hq.
    pose proof (finishes_set_tiles rep s) as Hfin.
    unfold wlp, scored, score in *.
    destruct (set_tiles rep s) as [u s'|e s'|]; [by apply Hq.. | done].
  - intros Hr Hc Hfit.
    destruct (wp_elim _ _ _ (set_tiles_ok rep s Hr Hc Hfit))
      as ([] & s' & Hrun & Hwf & Has & (Hr' & Hc' & Hs' & _) & _).
    by exists s'.
Qed.

Lemma set_tiles_keeps_score_witness :
  rows (with_sum 12 chain_grid) = GRID_SIZE /\
  cols (with_sum 12 chain_grid) = GRID_SIZE /\
  fits [[2; 2; 0; 0]; empty_row; empty_row; empty_row] = true /\
  exists s',
    set_tiles [[2; 2; 0; 0]; empty_row; empty_row; empty_row]
      (with_sum 12 chain_grid) = Ok tt s' /\
    as_list s' = block [[2; 2; 0; 0]; empty_row; empty_row; empty_row] /\
    rows s' = rows (with_sum 12 chain_grid) /\
    cols s' = cols (with_sum 12 chain_grid) /\
    score s' = score (with_sum 12 chain_grid).
Proof.
  split; [reflexivity|]. split; [reflexivity|]. split; [reflexivity|].
  exact (proj2 (set_tiles_keeps_score
                  [[2; 2; 0; 0]; empty_row; empty_row; empty_row]
                  (with_sum 12 chain_grid)) eq_refl eq_refl eq_refl).
Defined.

(** ** Empty cells and new tiles *)

(** C7. [find_empty] leaves the state as it was, in every case.  On a
    grid its result is [None] exactly when no cell is empty; otherwise it
    is the cell that the drawn index selects in the list of all empty
    cells, a list without repetition, so that each empty cell is the result
    for exactly one of the equally likely indices. *)
Theorem find_empty_spec (s : State) :
  (forall pick,
     match find_empty pick s with
     | Ok _ s' => s' = s
     | Raise _ s' => s' = s
     | OutOfFuel => False
     end) /\
  (WF s ->
   let n := length (empty_cells s) in
   NoDup (empty_cells s) /\
   (forall p, p ∈ empty_cells s <->
      exists i j, p = (Z.of_nat i, Z.of_nat j) /\ cell_at (tiles s) i j = Some None) /\
   (forall pick,
      find_empty pick s = Ok (empty_cells s !! (pick mod n)%nat) s) /\
   (forall pick,
      find_empty pick s = Ok None s <-> forall i j, cell_at (tiles s) i j <> Some None) /\
   (forall i j,
      cell_at (tiles s) i j = Some None ->
      exists k, (k < n)%nat /\
        forall pick,
          find_empty pick s = Ok (Some (Z.of_nat i, Z.of_nat j)) s <->
          (pick mod n)%nat = k)).
Proof.
  split.
  { intros pick. pose proof (find_empty_unchanged pick s) as Hsame.
    pose proof (finishes_find_empty pick s) as Hfin. unfold wlp in Hsame.
    by destruct (find_empty pick s). }
  intros Hwf n. subst n.
  split; [apply NoDup_empty_cells|]. split; [|split; [|split]].
  - intros p. rewrite elem_of_empty_cells. split.
    + intros (i & j & -> & _ & _ & Hc). eauto.
    + intros (i & j & -> & Hc).
      destruct (cell_at_lt s i j _ Hwf Hc) as (Hi & Hj). by exists i, j.
  - intros pick. by apply find_empty_result.
  - intros pick. rewrite find_empty_result by done.
    rewrite <- (empty_cells_nil s Hwf). split.
    + intros [= Hnone]. destruct (empty_cells s) as [|p l] eqn:El; [done|].
      apply lookup_ge_None in Hnone.
      pose proof (Nat.mod_upper_bound pick (length (p :: l))) as Hlt.
      simpl in *. lia.
    + by intros ->.
  - intros i j Hc.
    destruct (cell_at_lt s i j _ Hwf Hc) as (Hi & Hj).
    assert ((Z.of_nat i, Z.of_nat j) ∈ empty_cells s) as Hin.
    { apply elem_of_empty_cells. by exists i, j. }
    apply list_elem_of_lookup in Hin as [k Hk]. exists k.
    split; [by eapply lookup_lt_Some|].
    intros pick. rewrite find_empty_result by done. split.
    + intros [= Hp]. by eapply NoDup_lookup; [apply NoDup_empty_cells|..].
    + by intros ->; rewrite Hk.
Qed.

Lemma find_empty_spec_witness :
  WF chain_grid /\
  find_empty 5 chain_grid = Ok (empty_cells chain_grid !! (5 mod 13)%nat) chain_grid /\
  find_empty 5 chain_grid = Ok (Some (2, 0)) chain_grid.
Proof.
  assert (WF chain_grid) as Hwf by (apply wf_check_sound; vm_compute; reflexivity).
  split; [exact Hwf|]. split.
  - exact (proj1 (proj2 (proj2 (proj2 (find_empty_spec chain_grid) Hwf))) 5%nat).
  - reflexivity.
Defined.

(** C6. On a grid with an empty cell, [place_tile] returns: an empty cell
    now holds a tile that did not exist before, of value 2 or 4, and every
    other cell, every other tile and the score are as they were.  On a
    full grid it fails with an [AssertionError]. *)
Theorem place_tile_spec (pick draw : nat) (s : State) :
  WF s ->
  ((exists i j, cell_at (tiles s) i j = Some None) ->
   exists i j v s',
     place_tile pick draw s = Ok tt s' /\
     cell_at (tiles s) i j = Some None /\
     (v = 2 \/ v = 4) /\
     cell_at (tiles s') i j = Some (Some (length (heap s))) /\
     heap s' = heap s ++ [mkTile (Z.of_nat i) (Z.of_nat j) v] /\
     (forall a b, (a, b) <> (i, j) -> cell_at (tiles s') a b = cell_at (tiles s) a b) /\
     score s' = score s /\
     WF s') /\
  ((forall i j, cell_at (tiles s) i j <> Some None) ->
   place_tile pick draw s = Raise AssertionError s).
Proof.
  intros Hwf. split.
  - intros (i0 & j0 & Hc0).
    destruct (place_tile_outcome pick draw s Hwf)
      as [[El _]|(i & j & v & Hc & Hv & Hrun)].
    { pose proof (proj1 (empty_cells_nil s Hwf) El) as Hno. by destruct (Hno i0 j0). }
    assert (is_Some (cell_at (tiles s) i j)) as Hsome by (by rewrite Hc).
    exists i, j, v, (placed i j v s). split; [done|]. split; [done|]. split; [done|].
    split; [by apply cell_at_put_eq|]. split; [done|].
    split; [intros a b Hab; by apply cell_at_put_ne|].
    split; [done|]. by apply placed_WF.
  - intros Hfull. apply place_tile_full; [done|]. by apply empty_cells_nil.
Qed.

Lemma place_tile_spec_witness :
  WF chain_grid /\
  (exists i j, cell_at (tiles chain_grid) i j = Some None) /\
  exists i j v s',
    place_tile 5 3 chain_grid = Ok tt s' /\
    cell_at (tiles chain_grid) i j = Some None /\
    (v = 2 \/ v = 4) /\
    cell_at (tiles s') i j = Some (Some (length (heap chain_grid))).
Proof.
  assert (WF chain_grid) as Hwf by (apply wf_check_sound; vm_compute; reflexivity).
  assert (exists i j, cell_at (tiles chain_grid) i j = Some None) as Hempty.
  { exists 0%nat, 3%nat. reflexivity. }
  split; [exact Hwf|]. split; [exact Hempty|].
  destruct (proj1 (place_tile_spec 5 3 chain_grid Hwf) Hempty)
    as (i & j & v & s' & Hrun & Hc & Hv & Hnew & _).
  exists i, j, v, s'. auto.
Defined.

(** * Moves, step by step *)

(** ** What a step changes *)

Lemma slide_step_relocated self i j i' j' s s1 :
  slide_step self i j i' j' s s1 ->
  exists x v', cell_at (tiles s) i' j' = Some x /\
               relocated self i j i' j' v' s s1.
Proof. intros [Hx Hrel _ _ _|other Hx _ Hrel _ _ _]; eauto. Qed.

Lemma adjacent_ne (v : Z * Z) (i j i' j' : nat) :
  unit_vector v ->
  Z.of_nat i' = Z.of_nat i + snd v -> Z.of_nat j' = Z.of_nat j + fst v ->
  (i', j') <> (i, j).
Proof.
  unfold unit_vector. intros Hv Hi Hj [= -> ->].
  destruct Hv as [ -> | [ -> | [ -> | -> ]]]; simpl in *; lia.
Qed.

Section OneStep.
Context (v : Z * Z) (self : ref) (i j i' j' : nat) (s s1 : State).
Hypothesis Hv : unit_vector v.
Hypothesis Hwf : WF s.
Hypothesis Hself : cell_at (tiles s) i j = Some (Some self).
Hypothesis Hi : Z.of_nat i' = Z.of_nat i + snd v.
Hypothesis Hj : Z.of_nat j' = Z.of_nat j + fst v.
Hypothesis Hstep : slide_step self i j i' j' s s1.

Lemma step_ne : (i', j') <> (i, j).
Proof. by apply (adjacent_ne v). Qed.

Lemma step_WF : WF s1.
Proof.
  destruct (slide_step_relocated _ _ _ _ _ _ _ Hstep) as (x & v' & Hx & Hrel).
  eapply relocated_WF; [exact Hwf | exact Hself | exact Hx | exact step_ne | exact Hrel].
Qed.

Lemma step_dest : cell_at (tiles s1) i' j' = Some (Some self).
Proof.
  destruct (slide_step_relocated _ _ _ _ _ _ _ Hstep) as (x & v' & Hx & Hrel).
  eapply relocated_cell_dest; [exact Hx | exact step_ne | exact Hrel].
Qed.

Lemma step_src : cell_at (tiles s1) i j = Some None.
Proof.
  destruct (slide_step_relocated _ _ _ _ _ _ _ Hstep) as (x & v' & Hx & Hrel).
  eapply relocated_cell_src; [exact Hself | exact step_ne | exact Hrel].
Qed.

Lemma step_other a b :
  (a, b) <> (i, j) -> (a, b) <> (i', j') ->
  cell_at (tiles s1) a b = cell_at (tiles s) a b.
Proof.
  destruct (slide_step_relocated _ _ _ _ _ _ _ Hstep) as (x & v' & Hx & Hrel).
  intros. by eapply relocated_cell_other.
Qed.

Lemma step_heap t : t <> self -> heap s1 !!! t = heap s !!! t.
Proof.
  destruct (slide_step_relocated _ _ _ _ _ _ _ Hstep) as (x & v' & Hx & Hrel).
  intros. by eapply relocated_heap_other.
Qed.

Lemma step_heap_length : length (heap s1) = length (heap s).
Proof.
  destruct (slide_step_relocated _ _ _ _ _ _ _ Hstep) as (x & v' & Hx & Hrel).
  destruct Hrel as (_ & _ & _ & ->). apply length_insert.
Qed.

Lemma step_size : rows s1 = rows s /\ cols s1 = cols s.
Proof.
  destruct (slide_step_relocated _ _ _ _ _ _ _ Hstep) as (x & v' & Hx & Hrel).
  split; apply Hrel.
Qed.

Lemma step_room : room v i j = S (room v i' j').
Proof.
  destruct (cell_at_lt s i j _ Hwf Hself) as (Hi0 & Hj0).
  destruct (slide_step_relocated _ _ _ _ _ _ _ Hstep) as (x & v' & Hx & Hrel).
  destruct (cell_at_lt s i' j' _ Hwf Hx) as (Hi1 & Hj1).
  unfold room, GRID_SIZE in *. unfold unit_vector in Hv.
  destruct Hv as [ -> | [ -> | [ -> | -> ]]]; simpl in *; lia.
Qed.

(** A tile held by a cell after the step was held by the same cell, the
    sliding tile apart. *)
Lemma step_on_grid a b t :
  cell_at (tiles s1) a b = Some (Some t) ->
  (t = self /\ (a, b) = (i', j')) \/
  (t <> self /\ (a, b) <> (i, j) /\ (a, b) <> (i', j') /\
   cell_at (tiles s) a b = Some (Some t)).
Proof.
  intros Hab. destruct (decide ((a, b) = (i', j'))) as [[= -> ->]|Hd].
  { rewrite step_dest in Hab. left. by injection Hab as <-. }
  destruct (decide ((a, b) = (i, j))) as [[= -> ->]|Hs].
  { by rewrite step_src in Hab. }
  rewrite step_other in Hab by done. right. repeat split; try done.
  intros ->. apply Hs. by eapply WF_unique.
Qed.
End OneStep.

(** ** The loop body, as a step *)

Lemma slide_loop_next self dx dy s i j :
  unit_vector (dx, dy) ->
  WF s ->
  cell_at (tiles s) i j = Some (Some self) ->
  ((forall fuel,
      slide_loop (S fuel) self dx dy (Z.of_nat i) (Z.of_nat j) s = Ok tt s) /\
   blocked self (dx, dy) s) \/
  exists s1 i' j',
    (forall fuel,
       slide_loop (S fuel) self dx dy (Z.of_nat i) (Z.of_nat j) s
       = slide_loop fuel self dx dy (Z.of_nat i') (Z.of_nat j') s1) /\
    Z.of_nat i' = Z.of_nat i + dy /\ Z.of_nat j' = Z.of_nat j + dx /\
    slide_step self i j i' j' s s1.
Proof.
  intros Hv Hwf Hself.
  destruct (wf_refs s Hwf i j self Hself) as (Hlt & Hr & Hc).
  destruct (cell_at_lt s i j _ Hwf Hself) as (Hi & Hj).
  destruct (within s (Z.of_nat i + dy) (Z.of_nat j + dx)) eqn:Hin.
  2:{ left. split; [intros fuel; by apply slide_loop_edge|].
      left. simpl. rewrite Hr, Hc. by apply in_bounds_false. }
  pose proof Hin as Hin'.
  apply in_bounds_true in Hin' as (Hr' & Hc' & Hi' & Hj'); [|done].
  set (i' := Z.to_nat (Z.of_nat i + dy)) in *.
  set (j' := Z.to_nat (Z.of_nat j + dx)) in *.
  assert ((i', j') <> (i, j)) as Hne.
  { intros [= Ei Ej]. unfold unit_vector in Hv.
    destruct Hv as [[= -> ->]|[[= -> ->]|[[= -> ->]|[= -> ->]]]]; lia. }
  destruct (WF_cell s i' j' Hwf Hi' Hj') as [x Hx].
  pose proof (tiles_getitem_nat s i' j' x Hx) as Hget. rewrite <- Hr', <- Hc' in Hget.
  destruct x as [other|].
  - destruct (decide (value (heap s !!! other) = value (heap s !!! self))) as [Heq|Heq].
    + destruct (wp_elim _ _ _ (slide_merge_spec self other i j i' j' s Hwf Hself Hx Hne))
        as ([] & s1 & Hrun & Hrel & Hs1 & Hd1 & Hp1).
      right. exists s1, i', j'. split.
      { intros fuel. rewrite (slide_loop_match fuel self dx dy _ _ s other Hin Hget Heq).
        unfold bind. by rewrite Hr', Hc', Hrun. }
      split; [lia|]. split; [lia|]. by eapply step_merge.
    + left. split.
      { intros fuel. by apply (slide_loop_differ fuel self dx dy _ _ s other). }
      right. exists other. simpl. rewrite Hr, Hc. fold i' j'. done.
  - assert (is_Some (cell_at (tiles s) i' j')) as Hsome by (by rewrite Hx).
    destruct (wp_elim _ _ _ (Tile_move_spec self i j i' j' s Hwf Hself Hsome))
      as ([] & s1 & Hrun & Hrel & Hs1 & Hd1 & Hp1).
    right. exists s1, i', j'. split.
    { intros fuel. rewrite (slide_loop_empty fuel self dx dy _ _ s Hin Hget).
      unfold bind. by rewrite Hr', Hc', Hrun. }
    split; [lia|]. split; [lia|]. by eapply step_move.
Qed.

(** A slide with enough fuel returns, and is a sequence of steps that
    ends where the tile is blocked. *)
Lemma slide_loop_slides self dx dy :
  unit_vector (dx, dy) ->
  forall fuel s i j,
    WF s ->
    cell_at (tiles s) i j = Some (Some self) ->
    (room (dx, dy) i j < fuel)%nat ->
    exists i2 j2 s2,
      slide_loop fuel self dx dy (Z.of_nat i) (Z.of_nat j) s = Ok tt s2 /\
      slides (dx, dy) self i j s i2 j2 s2.
Proof.
  intros Hv. induction fuel as [|fuel IH]; intros s i j Hwf Hself Hfuel; [lia|].
  destruct (slide_loop_next self dx dy s i j Hv Hwf Hself)
    as [[Hrun Hb]|(s1 & i' & j' & Hrun & Hi & Hj & Hstep)].
  - exists i, j, s. split; [apply Hrun | by constructor].
  - pose proof (step_room (dx, dy) self i j i' j' s s1 Hv Hwf Hself Hi Hj Hstep) as Hroom.
    destruct (IH s1 i' j') as (i2 & j2 & s2 & Hrun2 & Hsl).
    + eapply (step_WF (dx, dy)); eauto.
    + eapply (step_dest (dx, dy)); eauto.
    + lia.
    + exists i2, j2, s2. split; [by rewrite Hrun|].
      by eapply slides_go.
Qed.

Lemma slide_slides self v fuel s i j :
  unit_vector v ->
  WF s ->
  cell_at (tiles s) i j = Some (Some self) ->
  (Z.to_nat GRID_SIZE <= fuel)%nat ->
  exists i2 j2 s2,
    slide fuel self v s = Ok tt s2 /\ slides v self i j s i2 j2 s2.
Proof.
  intros Hv Hwf Hself Hfuel. destruct v as [dx dy].
  destruct (wf_refs s Hwf i j self Hself) as (Hlt & Hr & Hc).
  destruct (cell_at_lt s i j _ Hwf Hself) as (Hi & Hj).
  pose proof (room_lt (dx, dy) i j Hv Hi Hj).
  unfold slide, bind, Tile_get, gets. rewrite Hr, Hc.
  apply slide_loop_slides; try done. lia.
Qed.

(** Where a slide ends. *)
Lemma slides_end v self i j s i2 j2 s2 :
  unit_vector v ->
  slides v self i j s i2 j2 s2 ->
  WF s2 /\ cell_at (tiles s2) i2 j2 = Some (Some self) /\ blocked self v s2.
Proof. intros Hv. induction 1; auto. Qed.

(** A slide is a sequence of steps of the grid. *)
Lemma slides_steps v self i j s i2 j2 s2 :
  slides v self i j s i2 j2 s2 -> rtc (stepped v) s s2.
Proof.
  induction 1 as [|i j s i' j' s1 i2 j2 s2 Hwf Hself Hi Hj Hstep _ IH]; [done|].
  eapply rtc_l; [|exact IH]. exists self, i, j, i', j'. auto.
Qed.

Lemma stepped_WF v s s1 : unit_vector v -> stepped v s s1 -> WF s1.
Proof.
  intros Hv (self & i & j & i' & j' & Hwf & Hself & Hi & Hj & Hstep).
  by eapply (step_WF v).
Qed.

Lemma steps_WF v s s' : unit_vector v -> WF s -> rtc (stepped v) s s' -> WF s'.
Proof.
  intros Hv Hwf Hs. induction Hs as [|s s1 s2 H1 _ IH]; [done|].
  apply IH. by eapply stepped_WF.
Qed.

(** A move is a sequence of steps. *)
Lemma visit_steps fuel v s i j :
  unit_vector v -> (Z.to_nat GRID_SIZE <= fuel)%nat -> WF s ->
  Z.of_nat i < GRID_SIZE -> Z.of_nat j < GRID_SIZE ->
  wp (visit fuel v (Z.of_nat i) (Z.of_nat j))
     (fun _ s' => rtc (stepped v) s s') s.
Proof.
  intros Hv Hfuel Hwf Hi Hj.
  destruct (WF_cell s i j Hwf Hi Hj) as [x Hx].
  unfold visit. apply wp_bind. eapply wp_intro; [by apply tiles_getitem_nat|].
  destruct x as [t|]; [|by apply wp_ret].
  destruct (slide_slides t v fuel s i j Hv Hwf Hx Hfuel) as (i2 & j2 & s2 & Hrun & Hsl).
  eapply wp_intro; [exact Hrun|]. by eapply slides_steps.
Qed.

Lemma sweep_steps fuel v rev_rows rev_cols s :
  unit_vector v -> (Z.to_nat GRID_SIZE <= fuel)%nat -> WF s ->
  wp (sweep fuel v rev_rows rev_cols) (fun _ s' => rtc (stepped v) s s') s.
Proof.
  intros Hv Hfuel Hwf. unfold sweep. apply wp_bind, wp_gets.
  pose proof (wf_height s Hwf) as Hlen.
  apply (wp_for_each (fun s' => rtc (stepped v) s s')); [|done].
  intros r s0 Hr Hs0.
  apply elem_of_indices_rev in Hr as (i & -> & Hi).
  assert (WF s0) as Hwf0 by (by apply (steps_WF v s s0)).
  destruct (lookup_lt_is_Some_2 (tiles s0) i) as [rw Hrw].
  { pose proof (wf_height s0 Hwf0). lia. }
  apply wp_bind. eapply wp_intro.
  { unfold row_at. by rewrite getitem_nat, Hrw. }
  pose proof (wf_width s0 Hwf0 i rw Hrw) as Hw.
  apply (wp_for_each (fun s' => rtc (stepped v) s s')); [|done].
  intros c s1 Hc Hs1.
  apply elem_of_indices_rev in Hc as (j & -> & Hj).
  assert (WF s1) as Hwf1 by (by apply (steps_WF v s s1)).
  eapply wp_mono; [apply visit_steps; try done; lia|].
  intros ? s2 Hs2. by etrans.
Qed.

(** ** What the steps add up to *)

Lemma occupied_put ts i j x0 x :
  cell_at ts i j = Some x0 ->
  sumZ (map (fun rw => sumZ (map cell_count rw)) (put i j x ts))
  = sumZ (map (fun rw => sumZ (map cell_count rw)) ts) - cell_count x0 + cell_count x.
Proof.
  unfold cell_at, put. destruct (ts !! i) as [rw|] eqn:Hi; [|done].
  intros Hj.
  rewrite (sumZ_insert _ ts i rw) by done.
  rewrite (sumZ_insert _ rw j x0) by done. lia.
Qed.

Lemma relocated_occupied self i j i' j' v' s s' x :
  cell_at (tiles s) i j = Some (Some self) ->
  cell_at (tiles s) i' j' = Some x ->
  (i', j') <> (i, j) ->
  relocated self i j i' j' v' s s' ->
  occupied s' = occupied s - cell_count x.
Proof.
  intros Hself Hx Hne (_ & _ & Ht & _). unfold occupied. rewrite Ht.
  rewrite (occupied_put _ i' j' x) by (by rewrite cell_at_put_ne).
  rewrite (occupied_put _ i j (Some self)) by done. simpl. lia.
Qed.

Lemma advanced_refl s : advanced s s.
Proof.
  split; try done.
  - exists []. by rewrite app_nil_r.
  - exists []. by rewrite app_nil_r, Nat.add_0_r.
Qed.

Lemma advanced_trans s1 s2 s3 : advanced s1 s2 -> advanced s2 s3 -> advanced s1 s3.
Proof.
  intros [Hh1 Hg1 Hc1 (l1 & Hl1 & He1) (p1 & Hp1 & Hm1 & Hs1)]
         [Hh2 Hg2 Hc2 (l2 & Hl2 & He2) (p2 & Hp2 & Hm2 & Hs2)].
  split.
  - congruence.
  - auto.
  - lia.
  - exists (l1 ++ l2). split; [by rewrite Hl2, Hl1, app_assoc|].
    apply Forall_app. split; [done|].
    eapply Forall_impl; [exact He2|]. intros e [? ?]. auto.
  - exists (p1 ++ p2). split; [by rewrite Hp2, Hp1, app_assoc|].
    split; [rewrite length_app; lia|].
    destruct p2 as [|x p2] using rev_ind.
    + rewrite app_nil_r. simpl in Hs2. congruence.
    + rewrite app_assoc, app_comm_cons, last_snoc.
      by rewrite app_comm_cons, last_snoc in Hs2.
Qed.

Lemma stepped_advanced v s s1 : unit_vector v -> stepped v s s1 -> advanced s s1.
Proof.
  intros Hv (self & i & j & i' & j' & Hwf & Hself & Hi & Hj & Hstep).
  pose proof (adjacent_ne v i j i' j' Hv Hi Hj) as Hne.
  assert (on_grid s self) as Hon by (by exists i, j).
  split.
  - by eapply (step_heap_length).
  - intros t (a & b & Hab).
    destruct (step_on_grid v self i j i' j' s s1 Hv Hwf Hself Hi Hj Hstep a b t Hab)
      as [[-> _]|(_ & _ & _ & H)]; [done | by exists a, b].
  - destruct Hstep as [Hx Hrel Hs Hd Hp|other Hx Heq Hrel Hs Hd Hp].
    + rewrite (relocated_occupied self i j i' j' _ s s1 None Hself Hx Hne Hrel).
      rewrite (merges_app s s1 _ Hd). simpl. lia.
    + rewrite (relocated_occupied self i j i' j' _ s s1 (Some other) Hself Hx Hne Hrel).
      rewrite (merges_app s s1 _ Hd). simpl. lia.
  - destruct Hstep as [Hx Hrel Hs Hd Hp|other Hx Heq Hrel Hs Hd Hp].
    + eexists. split; [exact Hd|]. by repeat constructor.
    + eexists. split; [exact Hd|]. repeat constructor; try done.
      by exists i', j'.
  - destruct Hstep as [Hx Hrel Hs Hd Hp|other Hx Heq Hrel Hs Hd Hp].
    + exists []. rewrite app_nil_r, (merges_app s s1 _ Hd). simpl.
      split; [done|]. split; [lia | by rewrite Hs].
    + eexists. split; [exact Hp|]. rewrite (merges_app s s1 _ Hd). simpl.
      split; [lia | by rewrite Hs].
Qed.

Lemma steps_advanced v s s' : unit_vector v -> rtc (stepped v) s s' -> advanced s s'.
Proof.
  intros Hv Hs. induction Hs as [|s s1 s2 H1 _ IH]; [apply advanced_refl|].
  eapply advanced_trans; [|exact IH]. by eapply stepped_advanced.
Qed.

(** ** The values of the tiles *)

Lemma stepped_values (P : Z -> Prop) v s s1 :
  (forall x, P x -> P (x + x)) ->
  unit_vector v -> stepped v s s1 -> values_in P s -> values_in P s1.
Proof.
  intros HP Hv (self & i & j & i' & j' & Hwf & Hself & Hi & Hj & Hstep) Hs.
  pose proof (adjacent_ne v i j i' j' Hv Hi Hj) as Hne.
  intros t (a & b & Hab).
  destruct (step_on_grid v self i j i' j' s s1 Hv Hwf Hself Hi Hj Hstep a b t Hab)
    as [[-> _]|(Ht & _ & _ & H)].
  - assert (P (value (heap s !!! self))) as Hme by (apply Hs; by exists i, j).
    destruct Hstep as [Hx Hrel _ _ _|other Hx Heq Hrel _ _ _].
    + by rewrite (relocated_heap_self self i j i' j' _ s s1 Hwf Hself Hrel).
    + rewrite (relocated_heap_self self i j i' j' _ s s1 Hwf Hself Hrel). simpl.
      rewrite Heq. by apply HP.
  - rewrite (step_heap self i j i' j' s s1 Hstep t Ht). apply Hs. by exists a, b.
Qed.

Lemma steps_values (P : Z -> Prop) v s s' :
  (forall x, P x -> P (x + x)) ->
  unit_vector v -> rtc (stepped v) s s' -> values_in P s -> values_in P s'.
Proof.
  intros HP Hv Hs. induction Hs as [|s s1 s2 H1 _ IH]; [done|].
  intros H. apply IH. by eapply stepped_values.
Qed.

Lemma steps_score v s s' :
  unit_vector v -> rtc (stepped v) s s' -> values_in (fun x => 0 < x) s ->
  sum s <= sum s' /\ (sum s = sum s' <-> merges s' = merges s).
Proof.
  intros Hv Hs. induction Hs as [|s s1 s2 H1 H2 IH]; [done|].
  intros Hpos.
  assert (values_in (fun x => 0 < x) s1) as Hpos1.
  { eapply stepped_values; [|exact Hv|exact H1|exact Hpos]. simpl. lia. }
  destruct (IH Hpos1) as [Hle Hiff].
  pose proof (steps_advanced v s1 s2 Hv H2) as [_ _ _ _ (p & _ & Hm & _)].
  destruct H1 as (self & i & j & i' & j' & Hwf & Hself & Hi & Hj & Hstep).
  assert (0 < value (heap s !!! self)) as Hme by (apply Hpos; by exists i, j).
  destruct Hstep as [Hx Hrel Hsum Hd _|other Hx Heq Hrel Hsum Hd _].
  - rewrite (merges_app s s1 _ Hd) in *. simpl in *. rewrite <- Hsum.
    split; [done|]. rewrite Hiff. lia.
  - rewrite (merges_app s s1 _ Hd) in *. simpl in *. lia.
Qed.

(** ** The four moves *)

Lemma moves_direction fuel v m :
  (v, m) ∈ moves fuel ->
  exists rev_rows rev_cols,
    direction v rev_rows rev_cols /\ m = sweep fuel v rev_rows rev_cols.
Proof.
  unfold moves. rewrite !elem_of_cons, elem_of_nil.
  intros [[= -> ->]|[[= -> ->]|[[= -> ->]|[[= -> ->]|[]]]]];
    do 2 eexists; (split; [constructor | reflexivity]).
Qed.

Lemma direction_unit v rev_rows rev_cols :
  direction v rev_rows rev_cols -> unit_vector v.
Proof. unfold unit_vector. destruct 1; auto. Qed.

Lemma move_steps fuel v m s :
  (v, m) ∈ moves fuel -> (Z.to_nat GRID_SIZE <= fuel)%nat -> WF s ->
  unit_vector v /\
  exists s', m s = Ok tt s' /\ WF s' /\ rtc (stepped v) s s'.
Proof.
  intros Hm Hfuel Hwf.
  destruct (moves_direction fuel v m Hm) as (rr & rc & Hd & ->).
  pose proof (direction_unit _ _ _ Hd) as Hv. split; [done|].
  destruct (wp_elim _ _ _ (sweep_steps fuel v rr rc s Hv Hfuel Hwf)) as ([] & s' & Hrun & Hs).
  exists s'. split; [done|]. split; [by eapply steps_WF | done].
Qed.

(** ** Tiles that cannot move *)

Lemma blocked_no_step v self i j i' j' s s1 :
  WF s ->
  cell_at (tiles s) i j = Some (Some self) ->
  Z.of_nat i' = Z.of_nat i + snd v -> Z.of_nat j' = Z.of_nat j + fst v ->
  blocked self v s ->
  ~ slide_step self i j i' j' s s1.
Proof.
  intros Hwf Hself Hi Hj Hb Hstep.
  destruct (wf_refs s Hwf i j self Hself) as (_ & Hr & Hc).
  unfold blocked in Hb. simpl in Hb. rewrite Hr, Hc, <- Hi, <- Hj, !Nat2Z.id in Hb.
  destruct Hb as [Hout|(other & Ho & Hne)].
  - destruct (slide_step_relocated _ _ _ _ _ _ _ Hstep) as (x & v' & Hx & _).
    destruct (cell_at_lt s i' j' _ Hwf Hx) as (Hi' & Hj').
    rewrite (wf_rows s Hwf), (wf_cols s Hwf) in Hout. lia.
  - destruct Hstep as [Hx _ _ _ _|other' Hx Heq _ _ _ _]; congruence.
Qed.

Lemma slide_blocked fuel self v s i j :
  unit_vector v -> WF s ->
  cell_at (tiles s) i j = Some (Some self) ->
  blocked self v s ->
  slide (S fuel) self v s = Ok tt s.
Proof.
  intros Hv Hwf Hself Hb. destruct v as [dx dy].
  destruct (wf_refs s Hwf i j self Hself) as (_ & Hr & Hc).
  unfold slide, bind, Tile_get, gets. rewrite Hr, Hc.
  destruct (slide_loop_next self dx dy s i j Hv Hwf Hself)
    as [[Hrun _]|(s1 & i' & j' & _ & Hi & Hj & Hstep)]; [apply Hrun|].
  by destruct (blocked_no_step (dx, dy) self i j i' j' s s1).
Qed.

Lemma sweep_blocked fuel v rev_rows rev_cols s :
  unit_vector v -> WF s ->
  (forall t, on_grid s t -> blocked t v s) ->
  sweep (S fuel) v rev_rows rev_cols s = Ok tt s.
Proof.
  intros Hv Hwf Hb. unfold sweep, bind at 1, gets.
  apply for_each_skip. intros r Hr.
  apply elem_of_indices_rev in Hr as (i & -> & Hi).
  destruct (lookup_lt_is_Some_2 (tiles s) i Hi) as [rw Hrw].
  unfold bind, row_at. rewrite getitem_nat, Hrw.
  apply for_each_skip. intros c Hc.
  apply elem_of_indices_rev in Hc as (j & -> & Hj).
  destruct (lookup_lt_is_Some_2 rw j Hj) as [x Hx].
  assert (cell_at (tiles s) i j = Some x) as Hcell.
  { unfold cell_at. by rewrite Hrw. }
  destruct x as [t|]; [|by apply visit_empty].
  rewrite (visit_tile _ _ s i j t Hcell).
  apply (slide_blocked fuel t v s i j); try done. apply Hb. by exists i, j.
Qed.

(** ** Where the tiles are after a move *)

(** The state of a blocked tile that a step leaves alone. *)
Lemma blocked_kept v self i j i' j' s s1 a b t :
  unit_vector v -> WF s ->
  cell_at (tiles s) i j = Some (Some self) ->
  Z.of_nat i' = Z.of_nat i + snd v -> Z.of_nat j' = Z.of_nat j + fst v ->
  slide_step self i j i' j' s s1 ->
  cell_at (tiles s) a b = Some (Some t) ->
  (a, b) <> (i, j) ->
  (forall a' b', Z.of_nat a' = Z.of_nat a + snd v -> Z.of_nat b' = Z.of_nat b + fst v ->
                 (a', b') <> (i, j)) ->
  blocked t v s -> blocked t v s1.
Proof.
  intros Hv Hwf Hself Hi Hj Hstep Hab Hne Hbehind Hb.
  assert (t <> self) as Ht.
  { intros ->. apply Hne. by eapply WF_unique. }
  destruct (wf_refs s Hwf a b t Hab) as (_ & Hr & Hc).
  destruct (step_size self i j i' j' s s1 Hstep) as [Hrows Hcols].
  unfold blocked in *. simpl in *.
  rewrite (step_heap self i j i' j' s s1 Hstep t Ht), Hrows, Hcols.
  rewrite Hr, Hc in *.
  destruct Hb as [Hout|(other & Ho & Hval)]; [by left|].
  destruct (cell_at_lt s _ _ _ Hwf Ho) as (Ha' & Hb').
  destruct (cell_at_lt s _ _ _ Hwf Hab) as (Ha & Hb0).
  destruct (decide (0 <= Z.of_nat a + snd v /\ 0 <= Z.of_nat b + fst v)) as [Hin|Hout].
  2:{ left. lia. }
  set (a' := Z.to_nat (Z.of_nat a + snd v)) in *.
  set (b' := Z.to_nat (Z.of_nat b + fst v)) in *.
  assert (Z.of_nat a' = Z.of_nat a + snd v) as Ea by lia.
  assert (Z.of_nat b' = Z.of_nat b + fst v) as Eb by lia.
  assert ((a', b') <> (i, j)) as Hsrc by (by apply Hbehind).
  assert ((a', b') <> (i', j')) as Hdst.
  { intros [= E1 E2]. apply Hne. f_equal; lia. }
  assert (other <> self) as Hother.
  { intros ->. apply Hsrc. by eapply WF_unique. }
  right. exists other.
  rewrite (step_other self i j i' j' s s1 Hstep a' b' Hsrc Hdst).
  by rewrite (step_heap self i j i' j' s s1 Hstep other Hother).
Qed.

(** A slide keeps the visited cells calm, and leaves them settled. *)
Lemma slides_calm v (V : nat -> nat -> Prop) self i j s i2 j2 s2 :
  unit_vector v ->
  slides v self i j s i2 j2 s2 ->
  calm v V (i, j) s ->
  forall a b, V a b -> settled v s2 a b.
Proof.
  intros Hv Hsl. induction Hsl
    as [i j s Hwf Hself Hb|i j s i' j' s1 i2 j2 s2 Hwf Hself Hi Hj Hstep _ IH];
    intros [Hset Hbehind] a b Hab.
  - destruct (decide ((a, b) = (i, j))) as [[= -> ->]|Hne]; [|by apply Hset].
    intros t Ht. rewrite Hself in Ht. by injection Ht as <-.
  - apply IH; [|done]. clear a b Hab. split.
    + intros a b Hab Hne t Ht.
      destruct (step_on_grid v self i j i' j' s s1 Hv Hwf Hself Hi Hj Hstep a b t Ht)
        as [[_ E]|(Hts & Hsrc & _ & Ht0)]; [done|].
      apply (blocked_kept v self i j i' j' s s1 a b t); try done.
      * intros a' b' Ea Eb [= -> ->]. by apply (Hbehind a b t).
      * by apply (Hset a b).
    + simpl. intros a b t Ea Eb Hab.
      assert ((a, b) = (i, j)) as [= -> ->] by (f_equal; lia).
      by rewrite (step_src v self i j i' j' s s1 Hv Hself Hi Hj Hstep).
Qed.

Lemma visit_settles fuel v (V : nat -> nat -> Prop) s i j :
  unit_vector v -> (Z.to_nat GRID_SIZE <= fuel)%nat -> WF s ->
  Z.of_nat i < GRID_SIZE -> Z.of_nat j < GRID_SIZE ->
  (forall a b, V a b -> settled v s a b) ->
  (forall a b, Z.of_nat i = Z.of_nat a + snd v -> Z.of_nat j = Z.of_nat b + fst v ->
               ~ V a b) ->
  wp (visit fuel v (Z.of_nat i) (Z.of_nat j))
     (fun _ s' => WF s' /\
        forall a b, V a b \/ (a, b) = (i, j) -> settled v s' a b) s.
Proof.
  intros Hv Hfuel Hwf Hi Hj Hset Hbehind.
  destruct (WF_cell s i j Hwf Hi Hj) as [x Hx].
  unfold visit. apply wp_bind. eapply wp_intro; [by apply tiles_getitem_nat|].
  destruct x as [t|].
  - destruct (slide_slides t v fuel s i j Hv Hwf Hx Hfuel) as (i2 & j2 & s2 & Hrun & Hsl).
    eapply wp_intro; [exact Hrun|].
    split; [by eapply slides_end|].
    apply (slides_calm v (fun a b => V a b \/ (a, b) = (i, j)) t i j s i2 j2 s2 Hv Hsl).
    split.
    + intros a b [Hab|Hab] Hne; [by apply Hset | done].
    + simpl. intros a b u Ea Eb [Hab|[= -> ->]].
      * by destruct (Hbehind a b).
      * by destruct (adjacent_ne v i j i j Hv).
  - apply wp_ret. split; [done|].
    intros a b [Hab|[= -> ->]]; [by apply Hset|].
    intros t Ht. congruence.
Qed.

(** ** The order of the visits *)

Lemma wp_for_each_prefix {A} (I : list A -> State -> Prop) (l : list A)
    (body : A -> M unit) :
  (forall pre x post s, l = pre ++ x :: post -> I pre s ->
     wp (body x) (fun _ s' => I (pre ++ [x]) s') s) ->
  forall s, I [] s -> wp (for_each l body) (fun _ s' => I l s') s.
Proof.
  intros Hbody.
  assert (forall rest pre s, l = pre ++ rest -> I pre s ->
            wp (for_each rest body) (fun _ s' => I l s') s) as H.
  { induction rest as [|x rest IH]; intros pre s Hl HI; simpl.
    - apply wp_ret. by rewrite Hl, app_nil_r.
    - apply wp_bind. eapply wp_mono; [by eapply Hbody|].
      intros ? s' HI'. apply (IH (pre ++ [x])); [|done].
      by rewrite <- app_assoc. }
  intros s HI. by apply (H l []).
Qed.

Lemma before_indices {A} (l : list A) (rev : bool) pre x post :
  (if rev then List.rev (indices l) else indices l) = pre ++ x :: post ->
  before rev pre x.
Proof.
  intros Hl y Hy.
  apply list_elem_of_lookup in Hy as [m Hm].
  assert (pre !! m = Some y /\ (pre ++ x :: post) !! length pre = Some x) as [H1 H2].
  { split; [done|]. by rewrite list_lookup_middle. }
  pose proof (lookup_lt_Some _ _ _ Hm) as Hlt.
  apply (lookup_app_l_Some _ (x :: post)) in H1.
  rewrite <- Hl in H1, H2. unfold indices in *.
  destruct rev.
  - rewrite rev_alt in H1, H2. change (rev_append ?l []) with (reverse l) in *.
    assert (length (pre ++ x :: post) = length l) as Hlen.
    { rewrite <- Hl, length_rev, length_map, length_seq. done. }
    rewrite length_app in Hlen. simpl in Hlen.
    rewrite reverse_lookup in H1, H2 by (rewrite length_map, length_seq; lia).
    rewrite length_map, length_seq in H1, H2.
    rewrite list_lookup_fmap in H1, H2.
    rewrite lookup_seq_lt in H1, H2 by lia. simplify_eq/=. lia.
  - rewrite list_lookup_fmap in H1, H2.
    apply fmap_Some in H1 as (k1 & Hk1 & ->). apply fmap_Some in H2 as (k2 & Hk2 & ->).
    apply lookup_seq in Hk1 as [-> _]. apply lookup_seq in Hk2 as [-> _]. lia.
Qed.

Lemma indices_rev_elem {A} (l : list A) (b : bool) (i : nat) :
  (i < length l)%nat -> Z.of_nat i ∈ (if b then List.rev (indices l) else indices l).
Proof.
  intros Hi.
  assert (Z.of_nat i ∈ indices l) as H.
  { unfold indices. apply list_elem_of_fmap. exists i. split; [done|].
    apply elem_of_seq. lia. }
  destruct b; [|done].
  by rewrite list_elem_of_In, <- in_rev, <- list_elem_of_In.
Qed.

(** The cell behind the one a move has reached is not yet visited. *)
Lemma direction_order v rev_rows rev_cols pre_r pre_c (i j a b : nat) :
  direction v rev_rows rev_cols ->
  before rev_rows pre_r (Z.of_nat i) ->
  before rev_cols pre_c (Z.of_nat j) ->
  Z.of_nat i = Z.of_nat a + snd v -> Z.of_nat j = Z.of_nat b + fst v ->
  ~ (Z.of_nat a ∈ pre_r \/ (a = i /\ Z.of_nat b ∈ pre_c)).
Proof.
  intros Hd Hr Hc Ea Eb [Ha|[-> Hb]].
  - apply Hr in Ha. destruct Hd; simpl in *; lia.
  - apply Hc in Hb. destruct Hd; simpl in *; lia.
Qed.

(** ** After a move *)

Lemma sweep_settles fuel v rev_rows rev_cols s :
  direction v rev_rows rev_cols ->
  (Z.to_nat GRID_SIZE <= fuel)%nat -> WF s ->
  wp (sweep fuel v rev_rows rev_cols)
     (fun _ s' => WF s' /\ forall t, on_grid s' t -> blocked t v s') s.
Proof.
  intros Hd Hfuel Hwf. pose proof (direction_unit _ _ _ Hd) as Hv.
  unfold sweep. apply wp_bind, wp_gets.
  pose proof (wf_height s Hwf) as Hlen.
  set (rs := if rev_rows then List.rev (indices (tiles s)) else indices (tiles s)).
  eapply wp_mono.
  - apply (wp_for_each_prefix
             (fun pre s' => WF s' /\
                forall a b, Z.of_nat a ∈ pre -> settled v s' a b)).
    2:{ split; [done|]. intros a b Ha. by apply elem_of_nil in Ha. }
    intros pre_r r post_r s0 Hrs [Hwf0 Hset0].
    pose proof (before_indices (tiles s) rev_rows pre_r r post_r Hrs) as Hbr.
    assert (r ∈ rs) as Hr by (rewrite Hrs; set_solver).
    apply elem_of_indices_rev in Hr as (i & -> & Hi).
    destruct (lookup_lt_is_Some_2 (tiles s0) i) as [rw Hrw].
    { pose proof (wf_height s0 Hwf0). lia. }
    apply wp_bind. eapply wp_intro.
    { unfold row_at. by rewrite getitem_nat, Hrw. }
    pose proof (wf_width s0 Hwf0 i rw Hrw) as Hw.
    set (cs := if rev_cols then List.rev (indices rw) else indices rw).
    eapply wp_mono.
    + apply (wp_for_each_prefix
               (fun pre s' => WF s' /\
                  forall a b, Z.of_nat a ∈ pre_r \/ (a = i /\ Z.of_nat b ∈ pre) ->
                              settled v s' a b)).
      2:{ split; [done|]. intros a b [Ha|[_ Hb]]; [by apply Hset0|].
          by apply elem_of_nil in Hb. }
      intros pre_c c post_c s1 Hcs [Hwf1 Hset1].
      pose proof (before_indices rw rev_cols pre_c c post_c Hcs) as Hbc.
      assert (c ∈ cs) as Hc by (rewrite Hcs; set_solver).
      apply elem_of_indices_rev in Hc as (j & -> & Hj).
      eapply wp_mono.
      * apply (visit_settles fuel v
                 (fun a b => Z.of_nat a ∈ pre_r \/ (a = i /\ Z.of_nat b ∈ pre_c)));
          try done; try lia.
        intros a b Ea Eb. by eapply direction_order.
      * intros u2 s2 [Hwf2 Hset2]. split; [done|].
        intros a b Hab. apply Hset2.
        destruct Hab as [Ha|[-> Hb]]; [by left; left|].
        apply elem_of_app in Hb as [Hb|Hb]; [by left; right|].
        apply list_elem_of_singleton in Hb. right. f_equal. lia.
    + intros u1 s1 [Hwf1 Hset1]. split; [done|].
      intros a b Ha t Ht.
      destruct (cell_at_lt s1 a b _ Hwf1 Ht) as (Ha4 & Hb4).
      apply (Hset1 a b); [|done].
      apply elem_of_app in Ha as [Ha|Ha]; [by left|].
      apply list_elem_of_singleton in Ha. right. split; [lia|].
      apply indices_rev_elem. lia.
  - intros u0 s' [Hwf' Hset']. split; [done|].
    intros t (a & b & Ht).
    destruct (cell_at_lt s' a b _ Hwf' Ht) as (Ha4 & Hb4).
    apply (Hset' a b); [|done].
    apply indices_rev_elem. lia.
Qed.

(** * More about the other methods *)

(** ** A new tile *)

Lemma placed_occupied i j v s :
  cell_at (tiles s) i j = Some None ->
  occupied (placed i j v s) = occupied s + 1.
Proof.
  intros Hc. unfold occupied, placed. simpl.
  rewrite (occupied_put _ i j None) by done. simpl. lia.
Qed.

Lemma placed_on_grid i j v s t :
  WF s -> on_grid (placed i j v s) t ->
  (t = length (heap s) /\ heap (placed i j v s) !!! t = mkTile (Z.of_nat i) (Z.of_nat j) v) \/
  (on_grid s t /\ heap (placed i j v s) !!! t = heap s !!! t).
Proof.
  intros Hwf (a & b & Hab). simpl in *.
  apply cell_at_put_inv in Hab as [[= ->]|Hab].
  - left. split; [done|]. by rewrite lookup_total_app_r, Nat.sub_diag.
  - right. split; [by exists a, b|].
    apply lookup_total_app_l. by apply (wf_refs s Hwf a b).
Qed.

Lemma placed_values (P : Z -> Prop) i j v s :
  WF s -> P v -> values_in P s -> values_in P (placed i j v s).
Proof.
  intros Hwf Hv Hs t Ht.
  destruct (placed_on_grid i j v s t Hwf Ht) as [[_ ->]|[Hon ->]]; [done|].
  by apply Hs.
Qed.

Lemma values_in_impl (P Q : Z -> Prop) s :
  (forall x, P x -> Q x) -> values_in P s -> values_in Q s.
Proof. intros H Hs t Ht. by apply H, Hs. Qed.

Lemma power_of_two_double x : power_of_two x -> power_of_two (x + x).
Proof.
  intros (k & Hk & ->). exists (k + 1). split; [lia|].
  rewrite Z.pow_add_r by lia. lia.
Qed.

Lemma power_of_two_pos x : power_of_two x -> 0 < x.
Proof. intros (k & Hk & ->). apply Z.pow_pos_nonneg; lia. Qed.

(** ** The calls of a game *)

Lemma sweep_values fuel v rev_rows rev_cols s :
  unit_vector v -> (Z.to_nat GRID_SIZE <= fuel)%nat -> WF s ->
  values_in power_of_two s ->
  exists s', sweep fuel v rev_rows rev_cols s = Ok tt s' /\
             WF s' /\ values_in power_of_two s' /\ sum s <= sum s' /\
             advanced s s'.
Proof.
  intros Hv Hfuel Hwf Hs.
  destruct (wp_elim _ _ _ (sweep_steps fuel v rev_rows rev_cols s Hv Hfuel Hwf))
    as ([] & s' & Hrun & Hsteps).
  exists s'. split; [done|]. split; [by eapply steps_WF|]. split; [|split].
  - eapply steps_values; [exact power_of_two_double|exact Hv|exact Hsteps|exact Hs].
  - eapply steps_score; [exact Hv|exact Hsteps|].
    eapply values_in_impl; [exact power_of_two_pos|exact Hs].
  - by eapply steps_advanced.
Qed.

Lemma run_call_values fuel c s :
  plays c = true -> (Z.to_nat GRID_SIZE <= fuel)%nat ->
  WF s -> values_in power_of_two s ->
  match run_call fuel c s with
  | Ok _ s' => WF s' /\ values_in power_of_two s' /\ sum s <= sum s'
  | Raise _ s' => s' = s
  | OutOfFuel => False
  end.
Proof.
  intros Hc Hfuel Hwf Hs.
  assert (forall v rr rc, unit_vector v ->
            match sweep fuel v rr rc s with
            | Ok _ s' => WF s' /\ values_in power_of_two s' /\ sum s <= sum s'
            | Raise _ s' => s' = s
            | OutOfFuel => False
            end) as Hsweep.
  { intros v rr rc Hv.
    destruct (sweep_values fuel v rr rc s Hv Hfuel Hwf Hs) as (s' & -> & ? & ? & ? & _).
    done. }
  destruct c as [pick|pick draw|rep| | | |]; simpl; try done.
  - pose proof (find_empty_unchanged pick s) as H. unfold wlp in H. unfold bind.
    destruct (find_empty pick s) as [a s'|e s'|] eqn:E; subst; simpl; try done.
    by destruct (finishes_find_empty pick s).
  - destruct (place_tile_outcome pick draw s Hwf)
      as [[_ ->]|(i & j & v & Hcell & Hv & ->)]; [done|].
    split; [apply placed_WF; [done | by rewrite Hcell]|]. split; [|done].
    apply placed_values; try done.
    destruct Hv as [-> | ->]; [by exists 1 | by exists 2].
  - apply Hsweep. unfold unit_vector. auto.
  - apply Hsweep. unfold unit_vector. auto.
  - apply Hsweep. unfold unit_vector. auto.
  - apply Hsweep. unfold unit_vector. auto.
Qed.

Lemma values_in_Grid_init (P : Z -> Prop) : values_in P Grid_init.
Proof.
  intros t (i & j & H). exfalso. unfold cell_at in H. simpl in H.
  destruct i as [|[|[|[|i]]]]; simpl in H; try done;
    destruct j as [|[|[|[|j]]]]; simpl in H; done.
Qed.

Lemma run_calls_values fuel cs :
  (Z.to_nat GRID_SIZE <= fuel)%nat ->
  Forall (fun c => plays c = true) cs ->
  forall s s',
    WF s -> values_in power_of_two s ->
    run_calls fuel cs s = Some s' ->
    WF s' /\ values_in power_of_two s' /\ sum s <= sum s'.
Proof.
  intros Hfuel. induction 1 as [|c cs Hc _ IH]; intros s s' Hwf Hs; simpl.
  - intros [= <-]. split; [done|]. split; [done|lia].
  - pose proof (run_call_values fuel c s Hc Hfuel Hwf Hs) as H1.
    destruct (run_call fuel c s) as [a s1|e s1|]; [| |done].
    + destruct H1 as (Hwf1 & Hs1 & Hle). intros Hrun.
      destruct (IH s1 s' Hwf1 Hs1 Hrun) as (? & ? & ?).
      split; [done|]. split; [done|lia].
    + subst s1. by apply IH.
Qed.

(** ** Loading a configuration *)

Lemma as_list_fits s : WF s -> fits (as_list s) = true.
Proof.
  intros Hwf. unfold fits. apply bool_decide_eq_true.
  apply Forall_forall. intros i Hi. apply Forall_forall. intros j Hj.
  apply elem_of_span in Hi, Hj. rewrite entry_as_list.
  destruct (WF_cell s i j Hwf Hi Hj) as [x ->]. by eexists.
Qed.

Lemma as_list_block s : WF s -> block (as_list s) = as_list s.
Proof.
  intros Hwf. unfold block.
  rewrite (take_ge (as_list s)).
  2:{ unfold as_list. rewrite length_map. pose proof (wf_height s Hwf). lia. }
  rewrite <- (map_id (as_list s)) at 2. apply map_ext_in.
  intros rw Hrw. apply take_ge.
  unfold as_list in Hrw. apply in_map_iff in Hrw as (rw0 & <- & Hrw0).
  rewrite length_map.
  apply list_elem_of_In, list_elem_of_lookup in Hrw0 as [i Hi].
  pose proof (wf_width s Hwf i rw0 Hi). lia.
Qed.





(** ** What the listeners hear of a loading *)

Section Reloaded.
Context (s : State).

Local Abbreviation news := (fun s' : State =>
  exists l,
    notified s' = notified s ++ l /\
    Forall (fun e => kind (fst e) = tile_created) l /\
    map (fun e => tile (fst e)) l = seq (length (heap s)) (length l) /\
    length (heap s') = (length (heap s) + length l)%nat).

Local Abbreviation recent := (fun x : option ref =>
  forall t, x = Some t -> (length (heap s) <= t)%nat).

Lemma reloaded_set_tiles_cell rep r c acc s1 :
  news s1 -> Forall recent acc ->
  wlp (set_tiles_cell rep r c acc)
      (fun acc' s' => (news s' /\ tiles s' = tiles s1) /\ Forall recent acc')
      (fun s' => news s' /\ tiles s' = tiles s1) s1.
Proof.
  intros Hs1 Hacc. unfold set_tiles_cell.
  assert (forall Q : Z -> State -> Prop,
            (forall x, Q x s1) ->
            wlp (rep_getitem rep r c) Q (fun s' => news s' /\ tiles s' = tiles s1) s1)
    as Hget.
  { intros Q HQ. unfold wlp, rep_getitem.
    destruct (getitem rep r) as [rw|]; [|done]. by destruct (getitem rw c). }
  apply wlp_bind, Hget. intros x.
  destruct (x =? 0).
  { apply wlp_ret. split; [done|]. apply Forall_app. split; [done|].
    by apply Forall_singleton. }
  apply wlp_bind, Hget. intros val.
  destruct Hs1 as (l & Hd & Hk & Ht & Hh).
  unfold Tile_new, notify_all, modify, ret, bind, wlp. simpl.
  split; [split; [|done]|].
  - exists (l ++ [(mkGameEvent tile_created (length (heap s1)),
                   (heap s1 ++ [mkTile r c val]) !!! length (heap s1))]).
    rewrite Hd, <- app_assoc. split; [done|]. split; [|split].
    + apply Forall_app. split; [done|]. by apply Forall_singleton.
    + rewrite map_app, Ht, !length_app. simpl.
      rewrite Nat.add_1_r, seq_S. by rewrite Hh.
    + rewrite !length_app. simpl. lia.
  - apply Forall_app. split; [done|]. apply Forall_singleton.
    intros t [= <-]. lia.
Qed.

Lemma reloaded_set_tiles rep :
  wlp (set_tiles rep) (fun _ s' => reloaded s s') (reloaded s) s.
Proof.
  unfold set_tiles. apply wlp_bind, wlp_modify.
  apply wlp_bind, wlp_gets.
  assert (reloaded s (with_tiles [] s)) as H0.
  { split.
    - intros t (i & j & H). simpl in H. unfold cell_at in H.
      by rewrite lookup_nil in H.
    - exists []. simpl. by rewrite app_nil_r, Nat.add_0_r. }
  apply wlp_for_each; [|done].
  intros r s0 [Hon0 Hn0]. unfold set_tiles_append. apply wlp_bind.
  unfold set_tiles_row. apply wlp_bind, wlp_gets.
  eapply wlp_mono;
    [apply (wlp_for_acc_inv (fun s' => news s' /\ tiles s' = tiles s0) (Forall recent));
       [|done|constructor]| |].
  { intros c acc s1 [Hs1 Ht1] Hacc.
    eapply wlp_mono; [by apply reloaded_set_tiles_cell| |].
    - intros acc' s' [[? ?] ?]. repeat split; try done. congruence.
    - intros s' [? ?]. split; [done | congruence]. }
  - intros cells s1 [[Hn1 Ht1] Hcells]. apply wlp_modify.
    split; [|done]. intros t (i & j & H). simpl in H. unfold cell_at in H.
    destruct (decide (i < length (tiles s1))%nat) as [Hi|Hi].
    + rewrite lookup_app_l in H by done. apply Hon0. exists i, j.
      unfold cell_at. by rewrite <- Ht1.
    + rewrite lookup_app_r in H by lia.
      destruct (i - length (tiles s1))%nat as [|k]; simpl in H; [|by destruct k].
      rewrite Forall_forall in Hcells. apply (Hcells (Some t)); [|done].
      apply list_elem_of_lookup. eauto.
  - intros s1 [Hn1 Ht1]. split; [|done].
    intros t (i & j & H). apply Hon0. exists i, j. by rewrite <- Ht1.
Qed.
End Reloaded.

(** * The keyboard and the controller *)

Lemma next_bound key cmd :
  KEY_BINDINGS !! key = Some cmd ->
  cmd = LEFT \/ cmd = RIGHT \/ cmd = UP \/ cmd = DOWN.
Proof.
  unfold KEY_BINDINGS. intros H. apply elem_of_list_to_map_2 in H.
  repeat (apply elem_of_cons in H as [[= _ <-]|H]; [tauto|]).
  by apply elem_of_nil in H.
Qed.

Lemma next_commands key : next key ∈ commands.
Proof.
  unfold next, commands. rewrite !elem_of_cons.
  destruct (KEY_BINDINGS !! key) as [cmd|] eqn:E; [|tauto].
  apply next_bound in E. tauto.
Qed.

Lemma next_unmapped key : next key = UNMAPPED <-> KEY_BINDINGS !! key = None.
Proof.
  unfold next. destruct (KEY_BINDINGS !! key) as [cmd|] eqn:E; [|done].
  split; [|done]. intros ->. apply next_bound in E.
  by destruct E as [E|[E|[E|E]]].
Qed.

Lemma dispatch_command fuel cmd :
  cmd ∈ commands ->
  dispatch fuel cmd = ret tt \/
  exists v, (v, dispatch fuel cmd) ∈ moves fuel.
Proof.
  unfold commands, moves. rewrite !elem_of_cons, elem_of_nil.
  intros [ -> | [ -> | [ -> | [ -> | [ -> | [] ]]]]]; [right..|by left].
  - exists (-1, 0). rewrite !elem_of_cons. tauto.
  - exists (1, 0). rewrite !elem_of_cons. tauto.
  - exists (0, -1). rewrite !elem_of_cons. tauto.
  - exists (0, 1). rewrite !elem_of_cons. tauto.
Qed.

(** ** Full grids *)

Lemma sumZ_const {A} (f : A -> Z) (l : list A) c :
  (forall x, x ∈ l -> f x = c) -> sumZ (map f l) = c * Z.of_nat (length l).
Proof.
  induction l as [|a l IH]; intros H; simpl; [lia|].
  rewrite IH, (H a); [lia | by left |]. intros x Hx. apply H. by right.
Qed.

Lemma full_occupied s :
  WF s -> full s -> occupied s = GRID_SIZE * GRID_SIZE.
Proof.
  intros Hwf Hfull. unfold occupied.
  rewrite (sumZ_const _ _ GRID_SIZE).
  { by rewrite (wf_height s Hwf). }
  intros rw Hrw. apply list_elem_of_lookup in Hrw as [i Hi].
  rewrite (sumZ_const _ _ 1).
  { rewrite (wf_width s Hwf i rw Hi). lia. }
  intros [t|] Hc; [done|]. apply list_elem_of_lookup in Hc as [j Hj].
  destruct (Hfull i j). unfold cell_at. by rewrite Hi.
Qed.

(** ** One turn *)

Lemma sound_Grid_init : sound Grid_init.
Proof. split; [apply WF_Grid_init|]. split; [apply values_in_Grid_init | done]. Qed.

Lemma place_tile_sound pick draw s :
  sound s ->
  (full s /\ place_tile pick draw s = Raise AssertionError s) \/
  (exists s', place_tile pick draw s = Ok tt s' /\ sound s' /\
              occupied s' = occupied s + 1).
Proof.
  intros (Hwf & Hval & Hsum).
  destruct (place_tile_outcome pick draw s Hwf)
    as [[Hnil ->]|(i & j & v & Hcell & Hv & ->)].
  - left. split; [|done]. unfold full. by apply (empty_cells_nil s Hwf).
  - right. eexists. split; [done|]. split; [|by apply placed_occupied].
    split; [apply placed_WF; [done | by rewrite Hcell]|]. split; [|done].
    apply placed_values; try done.
    destruct Hv as [-> | ->]; [by exists 1 | by exists 2].
Qed.

Lemma dispatch_sound fuel key s :
  (Z.to_nat GRID_SIZE <= fuel)%nat -> sound s ->
  exists s', dispatch fuel (next key) s = Ok tt s' /\ sound s' /\
             occupied s' <= occupied s.
Proof.
  intros Hfuel (Hwf & Hval & Hsum).
  destruct (dispatch_command fuel (next key) (next_commands key)) as [->|[v Hm]].
  { exists s. split; [done|]. split; [done | lia]. }
  destruct (moves_direction fuel v _ Hm) as (rr & rc & Hd & ->).
  destruct (sweep_values fuel v rr rc s (direction_unit _ _ _ Hd) Hfuel Hwf Hval)
    as (s' & Hrun & Hwf' & Hval' & Hle & Hadv).
  exists s'. split; [done|]. split; [split; [done|]; split; [done | lia]|].
  pose proof (adv_count s s' Hadv) as Hc.
  destruct (adv_printed s s' Hadv) as (p & _ & Hm' & _). lia.
Qed.

(** ** The loop *)

Lemma main_loop_spec fuel turns :
  (Z.to_nat GRID_SIZE <= fuel)%nat ->
  forall s, sound s ->
    match main_loop fuel turns s with
    | Ok n s' =>
        sound s' /\ full s' /\ n = score s' /\
        GRID_SIZE * GRID_SIZE < occupied s + Z.of_nat (length turns)
    | Raise _ _ => False
    | OutOfFuel => True
    end.
Proof.
  intros Hfuel. induction turns as [|t turns IH]; intros s Hs; [done|].
  pose proof Hs as (Hwf & Hval & Hsum).
  cbn [main_loop]. unfold bind at 1.
  rewrite (find_empty_result _ s Hwf).
  destruct (empty_cells s !! _) as [p|] eqn:Hp.
  - unfold bind at 1.
    destruct (place_tile_sound (turn_spot t) (turn_draw t) s Hs)
      as [[Hfull _]|(s1 & -> & Hs1 & Hocc1)].
    { apply (empty_cells_nil s Hwf) in Hfull. by rewrite Hfull in Hp. }
    unfold bind at 1.
    destruct (dispatch_sound fuel (turn_key t) s1 Hfuel Hs1) as (s2 & -> & Hs2 & Hocc2).
    specialize (IH s2 Hs2).
    destruct (main_loop fuel turns s2) as [n s'|e s'|]; [|done..].
    destruct IH as (? & ? & ? & Hlen). do 3 (split; [done|]).
    simpl length. lia.
  - assert (empty_cells s = []) as Hnil.
    { destruct (empty_cells s) as [|q l] eqn:E; [done|].
      apply lookup_ge_None in Hp. simpl in Hp.
      pose proof (Nat.mod_upper_bound (turn_probe t) (S (length l))). lia. }
    pose proof (proj1 (empty_cells_nil s Hwf) Hnil) as Hfull.
    unfold gets. do 3 (split; [done|]).
    rewrite (full_occupied s Hwf Hfull). simpl length. lia.
Qed.

Lemma main_spec fuel spot0 draw0 turns :
  (Z.to_nat GRID_SIZE <= fuel)%nat ->
  match main fuel spot0 draw0 turns with
  | Ok n s' =>
      sound s' /\ full s' /\ n = score s' /\
      (Z.to_nat (GRID_SIZE * GRID_SIZE) <= length turns)%nat
  | Raise _ _ => False
  | OutOfFuel => True
  end.
Proof.
  intros Hfuel. unfold main, bind.
  destruct (place_tile_sound spot0 draw0 Grid_init sound_Grid_init)
    as [[Hfull _]|(s1 & -> & Hs1 & Hocc1)].
  { by destruct (Hfull 0%nat 0%nat). }
  pose proof (main_loop_spec fuel turns Hfuel s1 Hs1) as H.
  destruct (main_loop fuel turns s1) as [n s'|e s'|]; [|done..].
  destruct H as (? & ? & ? & Hlen). do 3 (split; [done|]).
  rewrite Hocc1 in Hlen. change (occupied Grid_init) with 0 in Hlen.
  unfold GRID_SIZE in *. lia.
Qed.

(** * More about moves and loading *)

(** ** How far the tiles go *)

Lemma stepped_shifted v s s1 t :
  unit_vector v -> stepped v s s1 -> on_grid s1 t ->
  exists k, 0 <= k /\ shifted v t k s s1.
Proof.
  intros Hv (self & i & j & i' & j' & Hwf & Hself & Hi & Hj & Hstep) (a & b & Hab).
  destruct (step_on_grid v self i j i' j' s s1 Hv Hwf Hself Hi Hj Hstep a b t Hab)
    as [[-> _]|(Ht & _ & _ & _)].
  - exists 1. split; [lia|].
    destruct (wf_refs s Hwf i j self Hself) as (_ & Hr & Hc).
    destruct (slide_step_relocated _ _ _ _ _ _ _ Hstep) as (x & v' & _ & Hrel).
    unfold shifted.
    rewrite (relocated_heap_self self i j i' j' v' s s1 Hwf Hself Hrel). simpl. lia.
  - exists 0. split; [lia|]. unfold shifted.
    rewrite (step_heap self i j i' j' s s1 Hstep t Ht). lia.
Qed.

Lemma steps_shifted v s s' :
  unit_vector v -> rtc (stepped v) s s' ->
  forall t, on_grid s' t -> exists k, 0 <= k /\ shifted v t k s s'.
Proof.
  intros Hv Hs. induction Hs as [s|s s1 s2 H1 H2 IH]; intros t Ht.
  { exists 0. split; [lia|]. unfold shifted. lia. }
  destruct (IH t Ht) as (k2 & Hk2 & Hr2 & Hc2).
  assert (on_grid s1 t) as Ht1.
  { by apply (adv_on_grid s1 s2 (steps_advanced v s1 s2 Hv H2)). }
  destruct (stepped_shifted v s s1 t Hv H1 Ht1) as (k1 & Hk1 & Hr1 & Hc1).
  exists (k1 + k2). split; [lia|]. unfold shifted. lia.
Qed.

(** ** What is on the grid is what was put on it *)

Lemma total_of_app h new ts :
  (forall i j t, cell_at ts i j = Some (Some t) -> (t < length h)%nat) ->
  total_of (h ++ new) ts = total_of h ts.
Proof.
  intros Hlt. unfold total_of. f_equal. apply map_ext_in.
  intros rw Hrw. f_equal. apply map_ext_in. intros [u|] Hu; [|done].
  simpl. f_equal. apply lookup_total_app_l.
  apply list_elem_of_In, list_elem_of_lookup in Hrw as [i Hi].
  apply list_elem_of_In, list_elem_of_lookup in Hu as [j Hj].
  apply (Hlt i j). unfold cell_at. by rewrite Hi.
Qed.

Lemma placed_grid_total i j v s :
  WF s -> cell_at (tiles s) i j = Some None ->
  grid_total (placed i j v s) = grid_total s + v.
Proof.
  intros Hwf Hc. rewrite !grid_total_of. simpl.
  rewrite (total_of_put _ _ i j None) by done. simpl.
  rewrite list_lookup_total_middle by done. simpl.
  rewrite total_of_app; [lia|].
  intros a b t Hab. by apply (wf_refs s Hwf a b).
Qed.

Lemma placed_total_app s s' l :
  notified s' = notified s ++ l ->
  placed_total s'
  = placed_total s + sumZ (map (fun e => if is_created e then value (snd e) else 0) l).
Proof. unfold placed_total. intros ->. by rewrite map_app, sumZ_app. Qed.

Lemma advanced_placed_total s s' : advanced s s' -> placed_total s' = placed_total s.
Proof.
  intros [_ _ _ (l & Hd & Hl) _]. rewrite (placed_total_app s s' l Hd).
  assert (sumZ (map (fun e => if is_created e then value (snd e) else 0) l) = 0) as ->;
    [|lia].
  clear Hd. induction Hl as [|e l [He _] _ IH]; [done|]. simpl. rewrite IH.
  unfold is_created. destruct (kind (fst e)); [congruence | lia | lia].
Qed.

Lemma run_call_placed_total fuel c s :
  plays c = true -> (Z.to_nat GRID_SIZE <= fuel)%nat -> WF s ->
  match run_call fuel c s with
  | Ok _ s' | Raise _ s' =>
      WF s' /\ grid_total s' - placed_total s' = grid_total s - placed_total s
  | OutOfFuel => False
  end.
Proof.
  intros Hc Hfuel Hwf.
  assert (forall v rr rc, unit_vector v ->
            match sweep fuel v rr rc s with
            | Ok _ s' | Raise _ s' =>
                WF s' /\ grid_total s' - placed_total s' = grid_total s - placed_total s
            | OutOfFuel => False
            end) as Hsweep.
  { intros v rr rc Hv.
    destruct (move_kept fuel v rr rc s Hv Hfuel Hwf) as (s' & Hrun & Hwf' & HT & _).
    pose proof (sweep_steps fuel v rr rc s Hv Hfuel Hwf) as Hs.
    unfold wp in Hs. rewrite Hrun in *. split; [done|].
    rewrite (advanced_placed_total s s' (steps_advanced v s s' Hv Hs)). lia. }
  destruct c as [pick|pick draw|rep| | | |]; simpl; try done.
  - pose proof (find_empty_unchanged pick s) as H. unfold wlp in H. unfold bind.
    destruct (find_empty pick s) as [a s'|e s'|] eqn:E; subst; simpl; try done.
    by destruct (finishes_find_empty pick s).
  - destruct (place_tile_outcome pick draw s Hwf)
      as [[_ ->]|(i & j & v & Hcell & Hv & ->)]; [done|].
    split; [apply placed_WF; [done | by rewrite Hcell]|].
    rewrite (placed_grid_total i j v s Hwf Hcell).
    rewrite (placed_total_app s (placed i j v s) _ eq_refl). simpl. lia.
  - apply Hsweep. unfold unit_vector. auto.
  - apply Hsweep. unfold unit_vector. auto.
  - apply Hsweep. unfold unit_vector. auto.
  - apply Hsweep. unfold unit_vector. auto.
Qed.

Lemma run_calls_placed_total fuel cs :
  (Z.to_nat GRID_SIZE <= fuel)%nat ->
  Forall (fun c => plays c = true) cs ->
  forall s s',
    WF s -> run_calls fuel cs s = Some s' ->
    grid_total s' - placed_total s' = grid_total s - placed_total s.
Proof.
  intros Hfuel. induction 1 as [|c cs Hc _ IH]; intros s s' Hwf; simpl.
  - by intros [= <-].
  - pose proof (run_call_placed_total fuel c s Hc Hfuel Hwf) as H1.
    destruct (run_call fuel c s) as [a s1|e s1|]; [| |done];
      destruct H1 as [Hwf1 H1]; intros Hrun; rewrite (IH s1 s' Hwf1 Hrun); lia.
Qed.

(** ** After a load that has failed *)

Section Partial.
Context (rep : list (list Z)) (r : Z) (s : State).

Local Abbreviation same := (fun s' : State =>
  tiles s' = tiles s /\ rows s' = rows s /\ cols s' = cols s).


End Partial.







(** * Further properties of the game *)

(** ** The moves *)

(** X1.  After a move, no tile of the grid can go further in the direction
    of the move: each one is at the edge, or next to a tile of another
    value.  No gap and no pair of equal neighbours is left along the
    direction of the move. *)
Theorem move_leaves_tiles_blocked (fuel : nat) (v : Z * Z) (m : M unit) (s : State) :
  (v, m) ∈ moves fuel ->
  (Z.to_nat GRID_SIZE <= fuel)%nat ->
  WF s ->
  exists s',
    m s = Ok tt s' /\ WF s' /\
    forall t, on_grid s' t -> blocked t v s'.
Proof.
  intros Hm Hfuel Hwf.
  destruct (moves_direction fuel v m Hm) as (rr & rc & Hd & ->).
  destruct (wp_elim _ _ _ (sweep_settles fuel v rr rc s Hd Hfuel Hwf))
    as ([] & s' & Hrun & Hwf' & Hb).
  by exists s'.
Qed.

Lemma move_leaves_tiles_blocked_witness :
  ((-1, 0), left 4) ∈ moves 4 /\
  (Z.to_nat GRID_SIZE <= 4)%nat /\
  WF chain_grid /\
  exists s',
    left 4 chain_grid = Ok tt s' /\ WF s' /\
    forall t, on_grid s' t -> blocked t (-1, 0) s'.
Proof.
  assert (WF chain_grid) as Hwf by (apply wf_check_sound; vm_compute; reflexivity).
  assert (((-1, 0), left 4) ∈ moves 4) as Hm by (unfold moves; left).
  assert (Z.to_nat GRID_SIZE <= 4)%nat as Hfuel by (vm_compute; lia).
  split; [exact Hm|]. split; [exact Hfuel|]. split; [exact Hwf|].
  exact (move_leaves_tiles_blocked 4 (-1, 0) (left 4) chain_grid Hm Hfuel Hwf).
Defined.

(** X2.  A move on a grid where no tile can go further in its direction
    returns with the state as it was: no cell, no tile and no score is
    changed, no listener is called and nothing is printed. *)
Theorem blocked_grid_does_not_move (fuel : nat) (v : Z * Z) (m : M unit) (s : State) :
  (v, m) ∈ moves (S fuel) ->
  WF s ->
  (forall t, on_grid s t -> blocked t v s) ->
  m s = Ok tt s.
Proof.
  intros Hm Hwf Hb.
  destruct (moves_direction (S fuel) v m Hm) as (rr & rc & Hd & ->).
  apply sweep_blocked; [by eapply direction_unit | done | done].
Qed.

Lemma blocked_grid_does_not_move_witness :
  ((-1, 0), left 4) ∈ moves 4 /\
  WF (grid_of [[2; 4; 0; 0]; empty_row; empty_row; empty_row]) /\
  left 4 (grid_of [[2; 4; 0; 0]; empty_row; empty_row; empty_row])
  = Ok tt (grid_of [[2; 4; 0; 0]; empty_row; empty_row; empty_row]).
Proof.
  set (s := grid_of [[2; 4; 0; 0]; empty_row; empty_row; empty_row]).
  assert (WF s) as Hwf by (apply wf_check_sound; vm_compute; reflexivity).
  assert (((-1, 0), left 4) ∈ moves 4) as Hm by (unfold moves; left).
  assert (forall t, on_grid s t -> blocked t (-1, 0) s) as Hb.
  { intros t (i & j & H).
    destruct i as [|[|[|[|i]]]]; destruct j as [|[|[|[|j]]]];
      vm_compute in H; try discriminate H; injection H as <-.
    - left. vm_compute. intros [_ [H _]]. by apply H.
    - right. exists 0%nat. split; [vm_compute; reflexivity | vm_compute; discriminate]. }
  split; [exact Hm|]. split; [exact Hwf|].
  exact (blocked_grid_does_not_move 3 (-1, 0) (left 4) s Hm Hwf Hb).
Defined.

(** X3.  A move made twice in a row does what the move made once does:
    the second one changes nothing. *)
Theorem move_twice_is_move_once (fuel : nat) (v : Z * Z) (m : M unit) (s : State) :
  (v, m) ∈ moves fuel ->
  (Z.to_nat GRID_SIZE <= fuel)%nat ->
  WF s ->
  exists s', m s = Ok tt s' /\ m s' = Ok tt s'.
Proof.
  intros Hm Hfuel Hwf.
  destruct (moves_direction fuel v m Hm) as (rr & rc & Hd & ->).
  destruct (wp_elim _ _ _ (sweep_settles fuel v rr rc s Hd Hfuel Hwf))
    as ([] & s' & Hrun & Hwf' & Hb).
  exists s'. split; [done|].
  destruct fuel as [|fuel]; [unfold GRID_SIZE in Hfuel; lia|].
  apply sweep_blocked; [by eapply direction_unit | done | done].
Qed.

Lemma move_twice_is_move_once_witness :
  ((1, 0), right 4) ∈ moves 4 /\
  (Z.to_nat GRID_SIZE <= 4)%nat /\
  WF chain_grid /\
  exists s', right 4 chain_grid = Ok tt s' /\ right 4 s' = Ok tt s'.
Proof.
  assert (WF chain_grid) as Hwf by (apply wf_check_sound; vm_compute; reflexivity).
  assert (((1, 0), right 4) ∈ moves 4) as Hm by (unfold moves; right; left).
  assert (Z.to_nat GRID_SIZE <= 4)%nat as Hfuel by (vm_compute; lia).
  split; [exact Hm|]. split; [exact Hfuel|]. split; [exact Hwf|].
  exact (move_twice_is_move_once 4 (1, 0) (right 4) chain_grid Hm Hfuel Hwf).
Defined.

(** X4.  A move creates no tile and brings none back to the grid: the
    store keeps its size, the tiles of the grid after the move were on it
    before, there is one tile less for each merge, and the listeners are
    told of no creation, and only of tiles that were on the grid. *)
Theorem move_creates_no_tile (fuel : nat) (v : Z * Z) (m : M unit) (s : State) :
  (v, m) ∈ moves fuel ->
  (Z.to_nat GRID_SIZE <= fuel)%nat ->
  WF s ->
  exists s',
    m s = Ok tt s' /\
    length (heap s') = length (heap s) /\
    (forall t, on_grid s' t -> on_grid s t) /\
    (merges s <= merges s')%nat /\
    occupied s' = occupied s - Z.of_nat (merges s' - merges s) /\
    exists l,
      notified s' = notified s ++ l /\
      Forall (fun e => kind (fst e) <> tile_created /\ on_grid s (tile (fst e))) l.
Proof.
  intros Hm Hfuel Hwf.
  destruct (move_steps fuel v m s Hm Hfuel Hwf) as (Hv & s' & Hrun & Hwf' & Hsteps).
  destruct (steps_advanced v s s' Hv Hsteps) as [Hh Hg Hc He (p & _ & Hp & _)].
  exists s'. do 3 (split; [done|]). split; [lia|]. split; [lia | done].
Qed.

Lemma move_creates_no_tile_witness :
  ((0, -1), up 4) ∈ moves 4 /\
  (Z.to_nat GRID_SIZE <= 4)%nat /\
  WF chain_grid /\
  exists s',
    up 4 chain_grid = Ok tt s' /\
    length (heap s') = length (heap chain_grid) /\
    occupied s' = occupied chain_grid - Z.of_nat (merges s' - merges chain_grid).
Proof.
  assert (WF chain_grid) as Hwf by (apply wf_check_sound; vm_compute; reflexivity).
  assert (((0, -1), up 4) ∈ moves 4) as Hm by (unfold moves; right; right; left).
  assert (Z.to_nat GRID_SIZE <= 4)%nat as Hfuel by (vm_compute; lia).
  split; [exact Hm|]. split; [exact Hfuel|]. split; [exact Hwf|].
  destruct (move_creates_no_tile 4 (0, -1) (up 4) chain_grid Hm Hfuel Hwf)
    as (s' & Hrun & Hh & _ & _ & Hc & _).
  exists s'. split; [exact Hrun|]. split; [exact Hh | exact Hc].
Defined.



(** X6.  When the tiles of the grid have positive values, a move does not
    lower the score, it leaves it as it is exactly when no tiles merge,
    and the tiles still have positive values after it. *)
Theorem score_grows_with_merges (fuel : nat) (v : Z * Z) (m : M unit) (s : State) :
  (v, m) ∈ moves fuel ->
  (Z.to_nat GRID_SIZE <= fuel)%nat ->
  WF s ->
  values_in (fun x => 0 < x) s ->
  exists s',
    m s = Ok tt s' /\
    values_in (fun x => 0 < x) s' /\
    score s <= score s' /\
    (score s = score s' <-> merges s' = merges s).
Proof.
  intros Hm Hfuel Hwf Hpos.
  destruct (move_steps fuel v m s Hm Hfuel Hwf) as (Hv & s' & Hrun & Hwf' & Hsteps).
  exists s'. split; [done|]. split.
  - eapply steps_values; [|exact Hv|exact Hsteps|exact Hpos]. simpl. lia.
  - by eapply steps_score.
Qed.

Lemma score_grows_with_merges_witness :
  ((0, 1), down 4) ∈ moves 4 /\
  (Z.to_nat GRID_SIZE <= 4)%nat /\
  WF pair_grid /\
  values_in (fun x => 0 < x) pair_grid /\
  exists s',
    down 4 pair_grid = Ok tt s' /\
    values_in (fun x => 0 < x) s' /\
    score pair_grid <= score s' /\
    (score pair_grid = score s' <-> merges s' = merges pair_grid).
Proof.
  assert (WF pair_grid) as Hwf by (apply wf_check_sound; vm_compute; reflexivity).
  assert (((0, 1), down 4) ∈ moves 4) as Hm by (unfold moves; do 3 right; left).
  assert (Z.to_nat GRID_SIZE <= 4)%nat as Hfuel by (vm_compute; lia).
  assert (values_in (fun x => 0 < x) pair_grid) as Hpos.
  { intros t (i & j & H).
    destruct i as [|[|[|[|i]]]]; destruct j as [|[|[|[|j]]]];
      vm_compute in H; try discriminate H; injection H as <-;
      vm_compute; reflexivity. }
  split; [exact Hm|]. split; [exact Hfuel|]. split; [exact Hwf|]. split; [exact Hpos|].
  exact (score_grows_with_merges 4 (0, 1) (down 4) pair_grid Hm Hfuel Hwf Hpos).
Defined.

(** X7.  A move takes a tile along the movement vector only: a tile of
    the grid after the move is some cells further in the direction of the
    move than it was, fewer than [GRID_SIZE], and in the same row, for
    [left] and [right], or the same column, for [up] and [down]. *)
Theorem tiles_move_along_the_vector (fuel : nat) (v : Z * Z) (m : M unit) (s : State) :
  (v, m) ∈ moves fuel ->
  (Z.to_nat GRID_SIZE <= fuel)%nat ->
  WF s ->
  exists s',
    m s = Ok tt s' /\
    forall t, on_grid s' t ->
      exists k, 0 <= k < GRID_SIZE /\ shifted v t k s s'.
Proof.
  intros Hm Hfuel Hwf.
  destruct (move_steps fuel v m s Hm Hfuel Hwf) as (Hv & s' & Hrun & Hwf' & Hsteps).
  exists s'. split; [done|]. intros t Ht.
  destruct (steps_shifted v s s' Hv Hsteps t Ht) as (k & Hk & Hr & Hc).
  exists k. split; [|done]. split; [done|].
  pose proof (adv_on_grid s s' (steps_advanced v s s' Hv Hsteps) t Ht) as (a & b & Hab).
  destruct Ht as (a' & b' & Hab').
  destruct (wf_refs s Hwf a b t Hab) as (_ & Hr0 & Hc0).
  destruct (wf_refs s' Hwf' a' b' t Hab') as (_ & Hr1 & Hc1).
  destruct (cell_at_lt s a b _ Hwf Hab) as (? & ?).
  destruct (cell_at_lt s' a' b' _ Hwf' Hab') as (? & ?).
  unfold unit_vector in Hv.
  destruct Hv as [ -> | [ -> | [ -> | -> ]]]; simpl in *; lia.
Qed.

Lemma tiles_move_along_the_vector_witness :
  ((1, 0), right 4) ∈ moves 4 /\
  (Z.to_nat GRID_SIZE <= 4)%nat /\
  WF chain_grid /\
  exists s',
    right 4 chain_grid = Ok tt s' /\
    forall t, on_grid s' t ->
      exists k, 0 <= k < GRID_SIZE /\ shifted (1, 0) t k chain_grid s'.
Proof.
  assert (WF chain_grid) as Hwf by (apply wf_check_sound; vm_compute; reflexivity).
  assert (((1, 0), right 4) ∈ moves 4) as Hm by (unfold moves; right; left).
  assert (Z.to_nat GRID_SIZE <= 4)%nat as Hfuel by (vm_compute; lia).
  split; [exact Hm|]. split; [exact Hfuel|]. split; [exact Hwf|].
  exact (tiles_move_along_the_vector 4 (1, 0) (right 4) chain_grid Hm Hfuel Hwf).
Defined.

(** ** A whole game *)

(** X8.  In a game, that is from a new grid and with any calls but
    [set_tiles], the value of every tile of the grid is a power of two,
    2 at least, and the score never goes down; the same holds from any
    well-formed grid whose tiles have such values. *)
Theorem game_tiles_are_powers_of_two (fuel : nat) (cs : list Call) (s0 s : State) :
  (Z.to_nat GRID_SIZE <= fuel)%nat ->
  Forall (fun c => plays c = true) cs ->
  WF s0 ->
  values_in power_of_two s0 ->
  run_calls fuel cs s0 = Some s ->
  (WF Grid_init /\ values_in power_of_two Grid_init) /\
  WF s /\ values_in power_of_two s /\ score s0 <= score s.
Proof.
  intros Hfuel Hcs Hwf Hval Hrun.
  split; [split; [apply WF_Grid_init | apply values_in_Grid_init]|].
  by apply (run_calls_values fuel cs Hfuel Hcs s0 s).
Qed.

Lemma game_tiles_are_powers_of_two_witness :
  (Z.to_nat GRID_SIZE <= 4)%nat /\
  Forall (fun c => plays c = true)
    [CallPlaceTile 0 3; CallPlaceTile 0 0; CallLeft; CallPlaceTile 7 1; CallDown] /\
  WF Grid_init /\
  values_in power_of_two Grid_init /\
  exists s,
    run_calls 4 [CallPlaceTile 0 3; CallPlaceTile 0 0; CallLeft; CallPlaceTile 7 1; CallDown]
      Grid_init = Some s /\
    WF s /\ values_in power_of_two s /\ score Grid_init <= score s.
Proof.
  set (cs := [CallPlaceTile 0 3; CallPlaceTile 0 0; CallLeft; CallPlaceTile 7 1; CallDown]).
  assert (Z.to_nat GRID_SIZE <= 4)%nat as Hfuel by (vm_compute; lia).
  assert (Forall (fun c => plays c = true) cs) as Hcs by (repeat constructor).
  assert (WF Grid_init) as Hwf by (apply wf_check_sound; vm_compute; reflexivity).
  assert (values_in power_of_two Grid_init) as Hval by apply values_in_Grid_init.
  destruct (run_calls 4 cs Grid_init) as [s|] eqn:Hrun; [|vm_compute in Hrun; discriminate Hrun].
  split; [exact Hfuel|]. split; [exact Hcs|]. split; [exact Hwf|]. split; [exact Hval|].
  exists s. split; [reflexivity|].
  exact (proj2 (game_tiles_are_powers_of_two 4 cs Grid_init s Hfuel Hcs Hwf Hval Hrun)).
Defined.

(** X9.  In a game, what is on the grid is what was put on it: the
    values of the tiles of the grid add up to the values of the tiles
    created so far, as the listeners were told of them.  Moves and merges
    lose and add nothing. *)
Theorem grid_holds_what_was_placed (fuel : nat) (cs : list Call) (s : State) :
  (Z.to_nat GRID_SIZE <= fuel)%nat ->
  Forall (fun c => plays c = true) cs ->
  run_calls fuel cs Grid_init = Some s ->
  grid_total s = placed_total s.
Proof.
  intros Hfuel Hcs Hrun.
  pose proof (run_calls_placed_total fuel cs Hfuel Hcs Grid_init s WF_Grid_init Hrun) as H.
  change (grid_total Grid_init) with 0 in H.
  change (placed_total Grid_init) with 0 in H. lia.
Qed.

Lemma grid_holds_what_was_placed_witness :
  (Z.to_nat GRID_SIZE <= 4)%nat /\
  Forall (fun c => plays c = true)
    [CallPlaceTile 0 3; CallPlaceTile 0 0; CallLeft; CallPlaceTile 7 1; CallDown] /\
  exists s,
    run_calls 4 [CallPlaceTile 0 3; CallPlaceTile 0 0; CallLeft; CallPlaceTile 7 1; CallDown]
      Grid_init = Some s /\
    grid_total s = placed_total s.
Proof.
  set (cs := [CallPlaceTile 0 3; CallPlaceTile 0 0; CallLeft; CallPlaceTile 7 1; CallDown]).
  assert (Z.to_nat GRID_SIZE <= 4)%nat as Hfuel by (vm_compute; lia).
  assert (Forall (fun c => plays c = true) cs) as Hcs by (repeat constructor).
  destruct (run_calls 4 cs Grid_init) as [s|] eqn:Hrun; [|vm_compute in Hrun; discriminate Hrun].
  split; [exact Hfuel|]. split; [exact Hcs|].
  exists s. split; [reflexivity|].
  exact (grid_holds_what_was_placed 4 cs s Hfuel Hcs Hrun).
Defined.

(** ** New tiles *)

(** X10.  When [place_tile] returns, the grid has one tile more, the new
    tile is the last of the store, the listeners are told once, of its
    creation, with its cell and its value, and neither the score nor what
    is printed has changed. *)
Theorem place_tile_adds_one_tile (pick draw : nat) (s s' : State) :
  WF s ->
  place_tile pick draw s = Ok tt s' ->
  occupied s' = occupied s + 1 /\
  length (heap s') = S (length (heap s)) /\
  (exists i j v,
     (v = 2 \/ v = 4) /\
     cell_at (tiles s') i j = Some (Some (length (heap s))) /\
     notified s'
     = notified s ++ [(mkGameEvent tile_created (length (heap s)),
                       mkTile (Z.of_nat i) (Z.of_nat j) v)]) /\
  score s' = score s /\
  printed s' = printed s.
Proof.
  intros Hwf Hrun.
  destruct (place_tile_outcome pick draw s Hwf)
    as [[_ Hfail]|(i & j & v & Hcell & Hv & Hok)]; [congruence|].
  rewrite Hok in Hrun. injection Hrun as <-.
  split; [by apply placed_occupied|].
  split; [simpl; rewrite length_app; simpl; lia|].
  split; [|done].
  exists i, j, v. split; [done|]. split; [|done].
  simpl. apply cell_at_put_eq. by rewrite Hcell.
Qed.

Lemma place_tile_adds_one_tile_witness :
  WF chain_grid /\
  place_tile 5 3 chain_grid = Ok tt (after (place_tile 5 3) chain_grid) /\
  occupied (after (place_tile 5 3) chain_grid) = occupied chain_grid + 1.
Proof.
  assert (WF chain_grid) as Hwf by (apply wf_check_sound; vm_compute; reflexivity).
  assert (place_tile 5 3 chain_grid = Ok tt (after (place_tile 5 3) chain_grid)) as Hrun
    by (vm_compute; reflexivity).
  split; [exact Hwf|]. split; [exact Hrun|].
  exact (proj1 (place_tile_adds_one_tile 5 3 chain_grid _ Hwf Hrun)).
Defined.

(** ** Saving and loading *)

(** X11.  What [as_list] gives for a well-formed grid can be loaded with
    [set_tiles] in any grid of the same size, and [as_list] then gives the
    same matrix again; the score of the grid loaded into is kept. *)
Theorem save_and_restore (s s0 : State) :
  WF s ->
  rows s0 = GRID_SIZE ->
  cols s0 = GRID_SIZE ->
  exists s',
    set_tiles (as_list s) s0 = Ok tt s' /\
    WF s' /\
    as_list s' = as_list s /\
    score s' = score s0.
Proof.
  intros Hwf Hr Hc.
  destruct (wp_elim _ _ _ (set_tiles_ok (as_list s) s0 Hr Hc (as_list_fits s Hwf)))
    as ([] & s' & Hrun & Hwf' & Hl & (_ & _ & Hsum & _) & _).
  exists s'. split; [done|]. split; [done|]. split; [|done].
  by rewrite Hl, as_list_block.
Qed.

Lemma save_and_restore_witness :
  WF chain_grid /\
  rows full_grid = GRID_SIZE /\
  cols full_grid = GRID_SIZE /\
  exists s',
    set_tiles (as_list chain_grid) full_grid = Ok tt s' /\
    WF s' /\
    as_list s' = as_list chain_grid /\
    score s' = score full_grid.
Proof.
  assert (WF chain_grid) as Hwf by (apply wf_check_sound; vm_compute; reflexivity).
  split; [exact Hwf|]. split; [reflexivity|]. split; [reflexivity|].
  exact (save_and_restore chain_grid full_grid Hwf eq_refl eq_refl).
Defined.

(** X12.  Whatever the matrix and the state, and whether it returns or
    fails, [set_tiles] leaves none of the earlier tiles on the grid, and
    tells the listeners of each tile it creates, in the order of creation,
    and of nothing else: the tiles that were on the grid are dropped
    without a [tile_removed] event. *)
Theorem set_tiles_starts_afresh (rep : list (list Z)) (s : State) :
  match set_tiles rep s with
  | Ok _ s' | Raise _ s' =>
      reloaded s s' /\
      (forall t, (t < length (heap s))%nat -> retired t s') /\
      merges s' = merges s
  | OutOfFuel => False
  end.
Proof.
  pose proof (reloaded_set_tiles s rep) as H. unfold wlp in H.
  pose proof (finishes_set_tiles rep s) as Hfin.
  assert (forall s', reloaded s s' ->
            reloaded s s' /\
            (forall t, (t < length (heap s))%nat -> retired t s') /\
            merges s' = merges s) as Hre.
  { intros s' Hs'. split; [done|]. destruct Hs' as (Hon & l & Hd & Hk & _ & Hh).
    split.
    - intros t Ht. split; [lia|]. intros Hg. apply Hon in Hg. lia.
    - rewrite (merges_app s s' l Hd).
      assert (List.filter is_removed l = []) as ->; [|simpl; lia].
      clear Hd Hh. induction Hk as [|e l He _ IH]; [done|]. simpl.
      unfold is_removed at 1. by rewrite He. }
  destruct (set_tiles rep s) as [a s'|e s'|]; [by apply Hre..|done].
Qed.



(** ** The bounds check *)

(** X14.  [in_bounds] holds exactly of the indices from 0 to
    [GRID_SIZE - 1]; a cell with such indices can be read, and it is the
    check that keeps a slide from going round the grid: the row -1, which
    [in_bounds] refuses, can be read as well, and is the last row. *)
Theorem in_bounds_stops_wrap_around (s : State) (r c : Z) :
  WF s ->
  (within s r c = true <-> 0 <= r < GRID_SIZE /\ 0 <= c < GRID_SIZE) /\
  (within s r c = true ->
   exists x, tiles_getitem r c s = Ok x s /\
             cell_at (tiles s) (Z.to_nat r) (Z.to_nat c) = Some x) /\
  (0 <= c < GRID_SIZE ->
   within s (-1) c = false /\
   exists x, tiles_getitem (-1) c s = Ok x s /\
             cell_at (tiles s) (Z.to_nat (GRID_SIZE - 1)) (Z.to_nat c) = Some x).
Proof.
  intros Hwf. split; [|split].
  - unfold within. rewrite (wf_rows s Hwf), (wf_cols s Hwf).
    rewrite !andb_true_iff, !Z.leb_le, !Z.ltb_lt. lia.
  - intros Hin. apply (in_bounds_true s r c Hwf) in Hin as (Hr & Hc & Hi & Hj).
    destruct (WF_cell s _ _ Hwf Hi Hj) as [x Hx].
    exists x. split; [|done]. rewrite Hr, Hc. by apply tiles_getitem_nat.
  - intros Hc. split.
    { unfold within. by rewrite (wf_rows s Hwf). }
    assert (Z.of_nat (Z.to_nat (GRID_SIZE - 1)) < GRID_SIZE) as Hi by (unfold GRID_SIZE; lia).
    assert (Z.of_nat (Z.to_nat c) < GRID_SIZE) as Hj by lia.
    destruct (WF_cell s _ _ Hwf Hi Hj) as [x Hx].
    exists x. split; [|done].
    pose proof (wf_height s Hwf) as Hh.
    unfold cell_at in Hx.
    destruct (tiles s !! Z.to_nat (GRID_SIZE - 1)) as [rw|] eqn:Hrw; [|done].
    unfold tiles_getitem, getitem at 1, norm_index.
    rewrite Hh. simpl.
    change (Z.to_nat (GRID_SIZE + -1)) with (Z.to_nat (GRID_SIZE - 1)). rewrite Hrw.
    replace c with (Z.of_nat (Z.to_nat c)) at 1 by lia.
    by rewrite getitem_nat, Hx.
Qed.

Lemma in_bounds_stops_wrap_around_witness :
  WF chain_grid /\
  0 <= 1 < GRID_SIZE /\
  within chain_grid (-1) 1 = false /\
  exists x,
    tiles_getitem (-1) 1 chain_grid = Ok x chain_grid /\
    cell_at (tiles chain_grid) (Z.to_nat (GRID_SIZE - 1)) (Z.to_nat 1) = Some x.
Proof.
  assert (WF chain_grid) as Hwf by (apply wf_check_sound; vm_compute; reflexivity).
  assert (0 <= 1 < GRID_SIZE) as Hc by (unfold GRID_SIZE; lia).
  split; [exact Hwf|]. split; [exact Hc|].
  exact (proj2 (proj2 (in_bounds_stops_wrap_around chain_grid 0 1 Hwf)) Hc).
Defined.

(** ** The keyboard and the controller *)

(** X15.  [Command.next] returns one of the five commands, [UNMAPPED]
    exactly for the keys that [KEY_BINDINGS] does not bind, and each arrow
    key gives the command of its name. *)
Theorem next_is_a_command (key : string) :
  next key ∈ commands /\
  (next key = UNMAPPED <-> KEY_BINDINGS !! key = None) /\
  next LEFT = LEFT /\ next RIGHT = RIGHT /\ next UP = UP /\ next DOWN = DOWN.
Proof.
  split; [apply next_commands|]. split; [apply next_unmapped|].
  repeat split; vm_compute; reflexivity.
Qed.

(** X16.  Neither assertion of a game fails: in [main], [place_tile] is
    never called on a full grid, and the command is always one that the
    controller knows.  The game ends, or is still running when the turns
    given are used up. *)
Theorem main_asserts_hold (fuel spot0 draw0 : nat) (turns : list Turn) :
  (Z.to_nat GRID_SIZE <= fuel)%nat ->
  forall e s, main fuel spot0 draw0 turns <> Raise e s.
Proof.
  intros Hfuel e s Hrun.
  pose proof (main_spec fuel spot0 draw0 turns Hfuel) as H.
  by rewrite Hrun in H.
Qed.

Lemma main_asserts_hold_witness :
  (Z.to_nat GRID_SIZE <= 4)%nat /\
  forall e s,
    main 4 0 0 [mkTurn 1 2 3 "a"; mkTurn 0 0 4 "Up"; mkTurn 5 1 0 "q"] <> Raise e s.
Proof.
  assert (Z.to_nat GRID_SIZE <= 4)%nat as Hfuel by (vm_compute; lia).
  split; [exact Hfuel|].
  exact (main_asserts_hold 4 0 0 _ Hfuel).
Defined.

(** X17.  When [main] calls [lose], the grid is full, the score passed is
    the score of the grid and is not negative, every tile is a power of
    two, and the loop has gone through [GRID_SIZE * GRID_SIZE - 1] turns
    at least: a game cannot be lost earlier. *)
Theorem game_over_on_full_grid (fuel spot0 draw0 : nat) (turns : list Turn)
    (n : Z) (s : State) :
  (Z.to_nat GRID_SIZE <= fuel)%nat ->
  main fuel spot0 draw0 turns = Ok n s ->
  full s /\ n = score s /\ 0 <= n /\
  WF s /\ values_in power_of_two s /\
  (Z.to_nat (GRID_SIZE * GRID_SIZE) <= length turns)%nat.
Proof.
  intros Hfuel Hrun.
  pose proof (main_spec fuel spot0 draw0 turns Hfuel) as H.
  rewrite Hrun in H. destruct H as ((Hwf & Hval & Hsum) & Hfull & -> & Hlen).
  done.
Qed.

Lemma game_over_on_full_grid_witness :
  (Z.to_nat GRID_SIZE <= 4)%nat /\
  exists n s,
    main 4 0 0 (replicate 16 (mkTurn 0 0 0 "x")) = Ok n s /\
    full s /\ n = score s /\ 0 <= n.
Proof.
  assert (Z.to_nat GRID_SIZE <= 4)%nat as Hfuel by (vm_compute; lia).
  split; [exact Hfuel|].
  destruct (main 4 0 0 (replicate 16 (mkTurn 0 0 0 "x"))) as [n s| |] eqn:Hrun;
    [|vm_compute in Hrun; discriminate Hrun..].
  exists n, s. split; [reflexivity|].
  destruct (game_over_on_full_grid 4 0 0 _ n s Hfuel Hrun) as (H1 & H2 & H3 & _).
  split; [exact H1|]. split; [exact H2 | exact H3].
Defined.
